(** * Instagram production-readiness audit: a shallow embedding

    The development follows [audit_instagram_prod_readiness.py].  The script
    walks a project tree, matches fixed regular expressions against the text
    of selected files, and assembles a report with one entry per check and a
    score.

    Layout:
    - [Re]: the part of Python's [re] module the script relies on (pattern
      syntax, backtracking matcher, [search], [finditer], the flags
      [re.I], [re.M], [re.S]);
    - [Fs]: the project tree as the script sees it through [pathlib];
    - [Audit]: the functions of the script, one definition per source
      function, with the source's names;
    - [Props], [Laws]: the properties of the audit.

    Text is modelled by [string]; a character is one of the codes 0-255,
    read as the first 256 Unicode code points. *)

From Stdlib Require Import String Ascii List ZArith NArith Bool Arith Lia.
From Stdlib Require Import Sorted.
From Stdlib Require OrderedTypeEx.
Import ListNotations.
Open Scope string_scope.

(* ================================================================= *)
(** ** Python's [re], as far as the script uses it *)

Module Re.

(** Flags are bit masks combined with [|], as in [re.I|re.M]. *)
Definition IGNORECASE : Z := 2.   (* re.I *)
Definition MULTILINE : Z := 8.    (* re.M *)
Definition DOTALL : Z := 16.      (* re.S *)
Definition NOFLAG : Z := 0.

Definition has_flag (flags f : Z) : bool := negb (Z.land flags f =? 0)%Z.

(** Items of a bracketed character set. *)
Inductive citem : Type :=
| CChr (c : ascii)
| CRange (lo hi : ascii)
| CSpace            (* \s *)
| CNotSpace         (* \S *)
| CDigit.           (* \d *)

Inductive regex : Type :=
| Eps
| Chr (c : ascii)
| Any                                   (* . *)
| Cls (neg : bool) (items : list citem) (* [...] , [^...], \s, \d *)
| Bol                                   (* ^ *)
| Cat (r1 r2 : regex)
| Alt (r1 r2 : regex)
| Rep (greedy : bool) (lo : nat) (hi : option nat) (r : regex)
| Grp (n : nat) (r : regex).

(** *** Characters *)

Definition nl : ascii := "010"%char.
Definition dq : ascii := "034"%char.

Definition code (c : ascii) : N := N_of_ascii c.

Definition between (lo hi n : N) : bool := ((lo <=? n) && (n <=? hi))%N.

(** [str.isspace] on the codes 0-255. *)
Definition is_space (c : ascii) : bool :=
  let n := code c in
  (between 9 13 n || between 28 32 n || (n =? 133) || (n =? 160))%N.

(** Decimal digits (category Nd) among the codes 0-255. *)
Definition is_digit (c : ascii) : bool := between 48 57 (code c).

(** The other-case partner of a cased character, the character itself
    otherwise. *)
Definition swapcase (c : ascii) : ascii :=
  let n := code c in
  if (between 65 90 n || (between 192 222 n && negb (n =? 215)))%N
  then ascii_of_N (n + 32)
  else if (between 97 122 n || (between 224 254 n && negb (n =? 247)))%N
  then ascii_of_N (n - 32)
  else c.

Definition citem_mem (it : citem) (a : ascii) : bool :=
  match it with
  | CChr c => Ascii.eqb c a
  | CRange lo hi => between (code lo) (code hi) (code a)
  | CSpace => is_space a
  | CNotSpace => negb (is_space a)
  | CDigit => is_digit a
  end.

Definition chr_match (flags : Z) (c a : ascii) : bool :=
  Ascii.eqb c a || (has_flag flags IGNORECASE && Ascii.eqb c (swapcase a)).

Definition cls_match (flags : Z) (neg : bool) (items : list citem) (a : ascii)
  : bool :=
  let hit :=
    existsb (fun it => citem_mem it a) items
    || (has_flag flags IGNORECASE
        && existsb (fun it => citem_mem it (swapcase a)) items) in
  if neg then negb hit else hit.

Definition any_match (flags : Z) (a : ascii) : bool :=
  has_flag flags DOTALL || negb (Ascii.eqb a nl).

(** *** Pattern syntax *)

Definition is_alnum (c : ascii) : bool :=
  let n := code c in (between 48 57 n || between 65 90 n || between 97 122 n)%N.

(** The atom an escape [\c] stands for outside a set. *)
Definition escape_atom (c : ascii) : option regex :=
  if Ascii.eqb c "s" then Some (Cls false [CSpace])
  else if Ascii.eqb c "S" then Some (Cls false [CNotSpace])
  else if Ascii.eqb c "d" then Some (Cls false [CDigit])
  else if Ascii.eqb c "n" then Some (Chr nl)
  else if is_alnum c then None
  else Some (Chr c).

Definition escape_citem (c : ascii) : option citem :=
  if Ascii.eqb c "s" then Some CSpace
  else if Ascii.eqb c "S" then Some CNotSpace
  else if Ascii.eqb c "d" then Some CDigit
  else if Ascii.eqb c "n" then Some (CChr nl)
  else if is_alnum c then None
  else Some (CChr c).

(** Items of a set up to the closing bracket. *)
Fixpoint parse_items (s : string) : option (list citem * string) :=
  match s with
  | EmptyString => None
  | String "]" s' => Some ([], s')
  | String "\" (String c s') =>
      match escape_citem c, parse_items s' with
      | Some it, Some (its, r) => Some (it :: its, r)
      | _, _ => None
      end
  | String "\" EmptyString => None
  | String lo (String "-" (String hi s' as tl)) =>
      if Ascii.eqb hi "]" then
        match parse_items tl with
        | Some (its, r) => Some (CChr lo :: CChr "-" :: its, r)
        | None => None
        end
      else if Ascii.eqb hi "\" then None
      else
        match parse_items s' with
        | Some (its, r) => Some (CRange lo hi :: its, r)
        | None => None
        end
  | String c s' =>
      match parse_items s' with
      | Some (its, r) => Some (CChr c :: its, r)
      | None => None
      end
  end.

Definition parse_set (s : string) : option (regex * string) :=
  match s with
  | String "^" s' =>
      match parse_items s' with
      | Some (its, r) => Some (Cls true its, r)
      | None => None
      end
  | _ =>
      match parse_items s with
      | Some (its, r) => Some (Cls false its, r)
      | None => None
      end
  end.

Definition digit_val (c : ascii) : option nat :=
  if is_digit c then Some (N.to_nat (code c - 48)) else None.

(** A run of decimal digits: its value and the rest; [None] on no digit. *)
Fixpoint parse_nat_aux (acc : nat) (s : string) : nat * string :=
  match s with
  | String c s' =>
      match digit_val c with
      | Some d => parse_nat_aux (10 * acc + d) s'
      | None => (acc, s)
      end
  | EmptyString => (acc, s)
  end.

Definition parse_nat (s : string) : option (nat * string) :=
  match s with
  | String c _ => if is_digit c then Some (parse_nat_aux 0 s) else None
  | EmptyString => None
  end.

(** The bounds of [{m}], [{m,}] and [{m,n}], read after the opening brace. *)
Definition parse_bounds (s : string) : option (nat * option nat * string) :=
  match parse_nat s with
  | Some (lo, String "}" r) => Some (lo, Some lo, r)
  | Some (lo, String "," (String "}" r)) => Some (lo, None, r)
  | Some (lo, String "," r) =>
      match parse_nat r with
      | Some (hi, String "}" r') => Some (lo, Some hi, r')
      | _ => None
      end
  | _ => None
  end.

(** A trailing [?] makes a repetition lazy. *)
Definition with_mode (lo : nat) (hi : option nat) (a : regex) (s : string)
  : regex * string :=
  match s with
  | String "?" s' => (Rep false lo hi a, s')
  | _ => (Rep true lo hi a, s)
  end.

Definition parse_quant (a : regex) (s : string) : option (regex * string) :=
  match s with
  | String "*" s' => Some (with_mode 0 None a s')
  | String "+" s' => Some (with_mode 1 None a s')
  | String "?" s' => Some (with_mode 0 (Some 1) a s')
  | String "{" s' =>
      match parse_bounds s' with
      | Some (lo, hi, r) => Some (with_mode lo hi a r)
      | None => None
      end
  | _ => Some (a, s)
  end.

(** Recursive descent; [g] is the number the next group gets.  The fuel
    bounds the depth of the descent, [re_compile] gives enough of it. *)
Fixpoint parse_alt (fuel : nat) (s : string) (g : nat)
  : option (regex * string * nat) :=
  match fuel with
  | O => None
  | S f =>
      match parse_seq f s g with
      | Some (r1, String "|" s', g') =>
          match parse_alt f s' g' with
          | Some (r2, s'', g'') => Some (Alt r1 r2, s'', g'')
          | None => None
          end
      | other => other
      end
  end
with parse_seq (fuel : nat) (s : string) (g : nat)
  : option (regex * string * nat) :=
  match fuel with
  | O => None
  | S f =>
      match s with
      | EmptyString => Some (Eps, s, g)
      | String "|" _ => Some (Eps, s, g)
      | String ")" _ => Some (Eps, s, g)
      | _ =>
          match parse_atom f s g with
          | Some (a, s1, g1) =>
              match parse_quant a s1 with
              | Some (q, s2) =>
                  match parse_seq f s2 g1 with
                  | Some (Eps, s3, g3) => Some (q, s3, g3)
                  | Some (r, s3, g3) => Some (Cat q r, s3, g3)
                  | None => None
                  end
              | None => None
              end
          | None => None
          end
      end
  end
with parse_atom (fuel : nat) (s : string) (g : nat)
  : option (regex * string * nat) :=
  match fuel with
  | O => None
  | S f =>
      match s with
      | EmptyString => None
      | String "(" s' =>
          match parse_alt f s' (S g) with
          | Some (r, String ")" s'', g') => Some (Grp g r, s'', g')
          | _ => None
          end
      | String "[" s' =>
          match parse_set s' with
          | Some (r, s'') => Some (r, s'', g)
          | None => None
          end
      | String "\" (String c s') =>
          match escape_atom c with
          | Some r => Some (r, s', g)
          | None => None
          end
      | String "\" EmptyString => None
      | String "." s' => Some (Any, s', g)
      | String "^" s' => Some (Bol, s', g)
      | String "*" _ => None
      | String "+" _ => None
      | String "?" _ => None
      | String "{" _ => None
      | String "$" _ => None
      | String c s' => Some (Chr c, s', g)
      end
  end.

(** [re.compile]: [None] stands for [re.error] and for syntax outside the
    fragment above. *)
Definition compile (p : string) : option regex :=
  match parse_alt (3 * String.length p + 3) p 1 with
  | Some (r, EmptyString, _) => Some r
  | _ => None
  end.

(** *** The backtracking matcher

    A match state: the text still to be read, the character just before
    it (none at the start of the text), the number of characters read
    since the attempt began, and the text of the groups closed so far,
    latest first. *)
Record mstate : Type := MState {
  rest : string;
  prev : option ascii;
  nread : nat;
  caps : list (nat * string)
}.

Definition read (st : mstate) : option (ascii * mstate) :=
  match rest st with
  | String a s' => Some (a, MState s' (Some a) (S (nread st)) (caps st))
  | EmptyString => None
  end.

(** [^]: the start of the text and, under [re.M], the start of a line. *)
Definition at_bol (flags : Z) (st : mstate) : bool :=
  match prev st with
  | None => true
  | Some c => has_flag flags MULTILINE && Ascii.eqb c nl
  end.

(** The text read between two states of one run. *)
Definition consumed (st0 st1 : mstate) : string :=
  substring 0 (nread st1 - nread st0) (rest st0).

Definition close_group (n : nat) (st0 st1 : mstate) : mstate :=
  MState (rest st1) (prev st1) (nread st1) ((n, consumed st0 st1) :: caps st1).

Definition progressed (st0 st1 : mstate) : bool :=
  Nat.ltb (nread st0) (nread st1).

Definition orelse {A : Type} (x y : option A) : option A :=
  match x with
  | Some _ => x
  | None => y
  end.

Definition dec_bound (hi : option nat) : option nat :=
  match hi with
  | Some n => Some (pred n)
  | None => None
  end.

Definition exhausted (hi : option nat) : bool :=
  match hi with
  | Some O => true
  | _ => false
  end.

(** The rounds of a repetition, given the matcher [body] of what is
    repeated and the continuation [k] of the whole repetition.  Optional
    rounds: at most [left] more, longest first when [greedy], shortest
    first otherwise; a round that reads nothing is not repeated, so the
    text left bounds the number of rounds ([fuel]). *)
Fixpoint rep_optional (body : (mstate -> option mstate) -> mstate -> option mstate)
         (greedy : bool) (k : mstate -> option mstate)
         (fuel : nat) (left : option nat) (st0 : mstate) {struct fuel}
  : option mstate :=
  match fuel with
  | O => k st0
  | S fuel' =>
      if exhausted left then k st0
      else
        let again :=
          body (fun st1 => if progressed st0 st1
                           then rep_optional body greedy k fuel' (dec_bound left) st1
                           else None) st0 in
        if greedy then orelse again (k st0) else orelse (k st0) again
  end.

(** The [n] required rounds, then the optional ones. *)
Fixpoint rep_required (body : (mstate -> option mstate) -> mstate -> option mstate)
         (greedy : bool) (k : mstate -> option mstate)
         (optional : option nat) (n : nat) (st0 : mstate) {struct n}
  : option mstate :=
  match n with
  | O => rep_optional body greedy k (String.length (rest st0)) optional st0
  | S n' => body (rep_required body greedy k optional n') st0
  end.

(** [exec flags r k st]: match [r] at [st], then continue with [k];
    alternatives are tried in the order of the backtracking engine (left
    branch first, greedy repetitions longest first, lazy ones shortest
    first). *)
Fixpoint exec (flags : Z) (r : regex) (k : mstate -> option mstate)
         (st : mstate) {struct r} : option mstate :=
  match r with
  | Eps => k st
  | Chr c =>
      match read st with
      | Some (a, st') => if chr_match flags c a then k st' else None
      | None => None
      end
  | Any =>
      match read st with
      | Some (a, st') => if any_match flags a then k st' else None
      | None => None
      end
  | Cls neg items =>
      match read st with
      | Some (a, st') => if cls_match flags neg items a then k st' else None
      | None => None
      end
  | Bol => if at_bol flags st then k st else None
  | Cat r1 r2 => exec flags r1 (exec flags r2 k) st
  | Alt r1 r2 => orelse (exec flags r1 k st) (exec flags r2 k st)
  | Grp n r1 => exec flags r1 (fun st' => k (close_group n st st')) st
  | Rep greedy lo hi r1 =>
      rep_required (exec flags r1) greedy k
                   (match hi with Some h => Some (h - lo) | None => None end)
                   lo st
  end.

Definition match_here (flags : Z) (r : regex) (st : mstate) : option mstate :=
  exec flags r (fun st' => Some st') st.

(** Leftmost match at or after [st]: the state at its start and the state
    at its end. *)
Fixpoint scan (flags : Z) (r : regex) (t : string) (p : option ascii)
         (cs : list (nat * string)) {struct t} : option (mstate * mstate) :=
  let st := MState t p 0 cs in
  match match_here flags r st with
  | Some st' => Some (st, st')
  | None =>
      match t with
      | String a t' => scan flags r t' (Some a) cs
      | EmptyString => None
      end
  end.

(** [re.search(r, t, flags)] as a truth value. *)
Definition search_re (flags : Z) (r : regex) (t : string) : bool :=
  match scan flags r t None [] with
  | Some _ => true
  | None => false
  end.

(** [m.group(n)] of a match that ended in [st]: the latest text of group
    [n]. *)
Fixpoint group (n : nat) (cs : list (nat * string)) : option string :=
  match cs with
  | [] => None
  | (i, s) :: cs' => if Nat.eqb i n then Some s else group n cs'
  end.

(** [re.finditer]: the matches from left to right, none overlapping; each
    is given by the groups it captured.  After a match the scan resumes
    where the match ended, one character further when the match was
    empty (no pattern of the script matches the empty text). *)
Fixpoint finditer_from (fuel : nat) (flags : Z) (r : regex) (t : string)
         (p : option ascii) : list (list (nat * string)) :=
  match fuel with
  | O => []
  | S fuel' =>
      match scan flags r t p [] with
      | None => []
      | Some (st0, st1) =>
          caps st1 ::
          (if progressed st0 st1
           then finditer_from fuel' flags r (rest st1) (prev st1)
           else match read st1 with
                | Some (_, st2) => finditer_from fuel' flags r (rest st2) (prev st2)
                | None => []
                end)
      end
  end.

Definition finditer_re (flags : Z) (r : regex) (t : string)
  : list (list (nat * string)) :=
  finditer_from (S (String.length t)) flags r t None.

(** The two calls on pattern text.  A pattern that does not compile
    matches nothing here; every pattern of the script compiles. *)
Definition search (p : string) (t : string) (flags : Z) : bool :=
  match compile p with
  | Some r => search_re flags r t
  | None => false
  end.

Definition finditer (p : string) (t : string) (flags : Z)
  : list (list (nat * string)) :=
  match compile p with
  | Some r => finditer_re flags r t
  | None => []
  end.

(** [m.group(1)] of every match, in order. *)
Definition finditer_group1 (p : string) (t : string) (flags : Z) : list string :=
  flat_map (fun cs => match group 1 cs with Some s => [s] | None => [] end)
           (finditer p t flags).

End Re.

(* ================================================================= *)
(** ** Python values the script handles *)

(** Exceptions that the script does not catch. *)
Inductive exn : Type :=
| KeyError (k : string)
| OSError (path : string).

Inductive res (A : Type) : Type :=
| Ok (a : A)
| Raise (e : exn).
Arguments Ok {A} a.
Arguments Raise {A} e.

Definition bind {A B : Type} (x : res A) (f : A -> res B) : res B :=
  match x with
  | Ok a => f a
  | Raise e => Raise e
  end.

Notation "x <- c1 ;; c2" := (bind c1 (fun x => c2))
  (at level 61, c1 at next level, right associativity).

(** A loop whose body may raise. *)
Fixpoint for_each {A St : Type} (xs : list A) (body : St -> A -> res St)
         (s : St) : res St :=
  match xs with
  | [] => Ok s
  | x :: xs' => s' <- body s x ;; for_each xs' body s'
  end.

(** A [dict] with string keys keeps its items in insertion order. *)
Definition dict (V : Type) : Type := list (string * V).

Definition keys {V : Type} (d : dict V) : list string := map fst d.

(** [d.get(k)] *)
Fixpoint get {V : Type} (d : dict V) (k : string) : option V :=
  match d with
  | [] => None
  | (k', v) :: d' => if String.eqb k' k then Some v else get d' k
  end.

(** [d[k]] *)
Definition getitem {V : Type} (d : dict V) (k : string) : res V :=
  match get d k with
  | Some v => Ok v
  | None => Raise (KeyError k)
  end.

(** [d[k] = v] *)
Fixpoint setitem {V : Type} (d : dict V) (k : string) (v : V) : dict V :=
  match d with
  | [] => [(k, v)]
  | (k', v') :: d' =>
      if String.eqb k' k then (k', v) :: d' else (k', v') :: setitem d' k v
  end.

(** Truth value of a list. *)
Definition truthy {A : Type} (l : list A) : bool :=
  match l with
  | [] => false
  | _ :: _ => true
  end.

(** A [set] of strings, and [sorted] on it. *)
Fixpoint set_add (x : string) (s : list string) : list string :=
  match s with
  | [] => [x]
  | y :: s' => if String.eqb x y then s else y :: set_add x s'
  end.

Definition set_add_all (xs : list string) (s : list string) : list string :=
  fold_left (fun acc x => set_add x acc) xs s.

Fixpoint insert_sorted (x : string) (l : list string) : list string :=
  match l with
  | [] => [x]
  | y :: l' => if String.leb x y then x :: l else y :: insert_sorted x l'
  end.

Definition sorted (s : list string) : list string :=
  fold_right insert_sorted [] s.

(** String methods. *)
Fixpoint split (c : ascii) (s : string) : list string :=
  match s with
  | EmptyString => [EmptyString]
  | String a s' =>
      if Ascii.eqb a c then EmptyString :: split c s'
      else match split c s' with
           | h :: t => String a h :: t
           | [] => [String a EmptyString]
           end
  end.

(** [s.split(c, 1)] when [c] occurs in [s]. *)
Fixpoint split_once (c : ascii) (s : string) : option (string * string) :=
  match s with
  | EmptyString => None
  | String a s' =>
      if Ascii.eqb a c then Some (EmptyString, s')
      else match split_once c s' with
           | Some (h, t) => Some (String a h, t)
           | None => None
           end
  end.

Fixpoint lstrip (f : ascii -> bool) (s : string) : string :=
  match s with
  | String a s' => if f a then lstrip f s' else s
  | EmptyString => EmptyString
  end.

Definition reverse (s : string) : string :=
  string_of_list_ascii (rev (list_ascii_of_string s)).

Definition strip (f : ascii -> bool) (s : string) : string :=
  reverse (lstrip f (reverse (lstrip f s))).

Definition upper_char (c : ascii) : ascii :=
  if Re.between 97 122 (Re.code c) then Re.swapcase c else c.

Fixpoint upper (s : string) : string :=
  match s with
  | String a s' => String (upper_char a) (upper s')
  | EmptyString => EmptyString
  end.

(* ================================================================= *)
(** ** The project tree *)

Module Fs.

Inductive read_result : Type :=
| Text (t : string)
| Fails.

(** A path below the root: its components from the root down (the last
    one is its name; a component holds no separator), whether it is a
    regular file, and what reading it as text gives under each of the two
    encodings the script tries (a directory cannot be read). *)
Record entry : Type := Entry {
  rel : list string;
  is_file : bool;
  read_utf8 : read_result;
  read_latin1 : read_result
}.

(** The root the script is given: its text form and everything below
    it, in the order a recursive walk yields it. *)
Record Path : Type := MkPath {
  root_str : string;
  walk : list entry
}.

Definition name (p : entry) : string := last (rel p) EmptyString.

(** [base / c] on text forms: the root of the file system already ends in
    a separator. *)
Definition joinpath (base c : string) : string :=
  if String.eqb base "/" then base ++ c else base ++ "/" ++ c.

(** [str(p)] *)
Definition str (root : Path) (p : entry) : string :=
  fold_left joinpath (rel p) (root_str root).

(** Shell-style match of one path component; [*] stands for any run of
    characters. *)
Fixpoint fnmatch (pat : string) (s : string) {struct pat} : bool :=
  match pat with
  | EmptyString =>
      match s with
      | EmptyString => true
      | _ => false
      end
  | String "*" pat' =>
      (fix star (s0 : string) : bool :=
         fnmatch pat' s0 ||
         match s0 with
         | String _ s1 => star s1
         | EmptyString => false
         end) s
  | String c pat' =>
      match s with
      | String a s' => Ascii.eqb c a && fnmatch pat' s'
      | EmptyString => false
      end
  end.

(** The last components of [comps] against the components of a pattern,
    both given last first. *)
Fixpoint match_rev (pats comps : list string) : bool :=
  match pats, comps with
  | [], _ => true
  | pt :: pats', c :: comps' => fnmatch pt c && match_rev pats' comps'
  | _ :: _, [] => false
  end.

Definition glob_match (pattern : string) (p : entry) : bool :=
  match_rev (rev (split "/" pattern)) (rev (rel p)).

(** [root.rglob(pattern)]: the paths of the walk that the pattern
    matches.  For a pattern of one component these come in the order of
    the walk.  For a pattern of several components pathlib goes
    directory by directory and leaves out links that lead nowhere; the
    order among several matches of such a pattern is not modelled, and
    what is stated of [scan_env_validation], the one function that uses
    such patterns, takes a single regular file as match. *)
Definition rglob (root : Path) (pattern : string) : list entry :=
  filter (glob_match pattern) (walk root).

End Fs.

(* ================================================================= *)
(** ** The script *)

Module Audit.
Import Fs.

Definition q : string := String Re.dq EmptyString.

Definition REQ_ENVS : list string :=
  [ "META_APP_ID"; "IG_APP_SECRET"; "GRAPH_API_VERSION"; "API_BASE_URL";
    "ENCRYPTION_KEY"; "DATABASE_URL"; "REDIS_URL"; "OPENAI_API_KEY"; "PORT";
    "IG_VERIFY_TOKEN"; "REDIRECT_URI" ].

(** The two sets below are defined by the script and never read. *)
Definition TEXT_EXTS : list string :=
  [ ".ts"; ".tsx"; ".js"; ".jsx"; ".json"; ".yml"; ".yaml"; ".env"; ".md";
    ".toml"; ".sql"; ".conf"; ".dockerfile" ].

Definition ENV_LIKE : list string :=
  [ ".env"; ".env.example"; ".env.production"; ".env.prod"; ".env.sample" ].

Definition read_text_safe (p : entry) : string :=
  match read_utf8 p with
  | Text t => t
  | Fails =>
      match read_latin1 p with
      | Text t => t
      | Fails => EmptyString
      end
  end.

Definition glob_files (root : Path) (patterns : list string) : list entry :=
  fold_left (fun out pat => (out ++ rglob root pat)%list) patterns [].

Definition find_any (root : Path) (names : list string) : list entry :=
  filter (fun p => is_file p && existsb (String.eqb (name p)) names)
         (rglob root "*").

(** The container side of the port mappings in one compose text: the
    items of every bracketed [ports:] list, split at the first colon. *)
Definition compose_pairs (t : string) : list (string * string) :=
  flat_map
    (fun g =>
       flat_map
         (fun pair =>
            let s := strip (Ascii.eqb "'")
                       (strip (Ascii.eqb Re.dq) (strip Re.is_space pair)) in
            match split_once ":" s with
            | Some (host, cont) => [(host, cont)]
            | None => []
            end)
         (split "," g))
    (Re.finditer_group1 "ports:\s*\[([^\]]+)\]" t Re.DOTALL).

Definition compose_files (root : Path) : list entry :=
  (rglob root "docker-compose*.yml" ++ rglob root "docker-compose*.yaml")%list.

Definition summarize_ports (root : Path) : dict (list string) :=
  let env :=
    fold_left
      (fun acc p =>
         set_add_all
           (Re.finditer_group1 "^\s*PORT\s*=\s*([0-9]+)" (read_text_safe p)
                               Re.MULTILINE) acc)
      (find_any root [".env"; ".env.production"; ".env.example"; ".env.sample"])
      [] in
  let dockerfile :=
    fold_left
      (fun acc p =>
         set_add_all
           (Re.finditer_group1 "EXPOSE\s+([0-9]+)" (read_text_safe p) Re.NOFLAG)
           acc)
      (rglob root "Dockerfile") [] in
  let compose_health :=
    fold_left
      (fun '(compose, health) p =>
         let t := read_text_safe p in
         (set_add_all (map snd (compose_pairs t)) compose,
          set_add_all
            (Re.finditer_group1
               "healthcheck:[\s\S]*?curl[^\n]*?http[s]?://[^\n]+?:(\d+)/health"
               t Re.IGNORECASE) health))
      (compose_files root) ([], []) in
  let code :=
    fold_left
      (fun acc p =>
         let t := read_text_safe p in
         set_add_all
           (Re.finditer_group1 "\.listen\(\s*([0-9]{2,5})" t Re.NOFLAG)
           (set_add_all
              (Re.finditer_group1 "process\.env\.PORT\s*\|\|\s*([0-9]+)" t
                                  Re.NOFLAG) acc))
      (glob_files root ["*.ts"; "*.js"]) [] in
  [ ("env", sorted env); ("dockerfile", sorted dockerfile);
    ("compose", sorted (fst compose_health));
    ("health_targets", sorted (snd compose_health));
    ("code", sorted code) ].

(** The result of [scan_env_validation]: the early return when no
    validation file exists, or the three fields of [res]. *)
Inductive env_validation : Type :=
| EnvNotFound (error : string)
| EnvScanned (file : string) (missing_checks placeholders_leaking : list string).

Definition placeholder_patterns : list string :=
  [ "sk-your_"; "your_jwt_secret_here"; "your_instagram_app_id_here";
    "ENCRYPTION_KEY=.*(key_here|1234)" ].

Definition scan_env_validation (root : Path) : env_validation :=
  let candidates :=
    (rglob root "startup/validation.ts"
       ++ rglob root "config/environment.ts")%list in
  match candidates with
  | [] => EnvNotFound "validation file not found"
  | c :: _ =>
      let t := read_text_safe c in
      let missing :=
        filter (fun key => negb (Re.search key t Re.NOFLAG)) REQ_ENVS in
      let leaking :=
        flat_map
          (fun ef =>
             let et := read_text_safe ef in
             flat_map
               (fun pat =>
                  if Re.search pat et Re.NOFLAG
                  then [name ef ++ ":" ++ pat] else [])
               placeholder_patterns)
          (find_any root [".env.example"; ".env.sample"]) in
      EnvScanned (str root c) missing leaking
  end.

(** [hits[key].append(path)] *)
Definition append_hit (hits : dict (list string)) (key path : string)
  : res (dict (list string)) :=
  v <- getitem hits key ;;
  Ok (setitem hits key (v ++ [path])%list).

Definition SEARCH_FLAGS : Z := Z.lor Re.IGNORECASE Re.MULTILINE.

Definition search_patterns (root : Path) (patterns : dict (list string))
  : res (dict (list string)) :=
  for_each (glob_files root ["*.ts"; "*.js"; "*.sql"; "*.yml"; "*.yaml"])
    (fun hits p =>
       let t := read_text_safe p in
       for_each patterns
         (fun hits '(key, regs) =>
            if existsb (fun rx => Re.search rx t SEARCH_FLAGS) regs
            then append_hit hits key (str root p)
            else Ok hits)
         hits)
    (map (fun '(k, _) => (k, [])) patterns).

(** The result of a check: [{"ok": ok, "hits": hits}]. *)
Record CheckResult : Type := MkCheck {
  ok : bool;
  hits : dict (list string)
}.

(** [hits[a] and hits[b]], [hits[a] or hits[b]] as truth values: the
    right operand is looked up only when the left one does not decide. *)
Definition hit (h : dict (list string)) (k : string) : res bool :=
  v <- getitem h k ;; Ok (truthy v).

Definition and_ (x y : res bool) : res bool :=
  a <- x ;; if a then y else Ok false.

Definition or_ (x y : res bool) : res bool :=
  a <- x ;; if a then Ok true else y.

(** [all(hits[k] for k in hits)] *)
Fixpoint all_hits (h : dict (list string)) (ks : list string) : res bool :=
  match ks with
  | [] => Ok true
  | k :: ks' => and_ (hit h k) (all_hits h ks')
  end.

Definition pkce_pats : dict (list string) :=
  [ ("has_pkce_terms", ["code_verifier"; "pkce"]);
    ("stores_in_redis", ["pkce:.*state"; "setex|setEx\("]);
    ("callback_reads_verifier", ["/callback"; "code_verifier"; "redis\.get"]);
    ("deletes_after_use", ["redis\.(del|unlink)\("]) ].

Definition check_pkce (root : Path) : res CheckResult :=
  hits <- search_patterns root pkce_pats ;;
  ok <- all_hits hits (keys hits) ;;
  Ok (MkCheck ok hits).

Definition idempotency_pats : dict (list string) :=
  [ ("hash_merchant_and_body",
     [ "createHash\(['\" ++ q ++ "]sha256['\" ++ q
         ++ "]\).*?update\(.+merchant.*raw";
       "sha256\(.+merchant_id.+rawBody" ]);
    ("db_unique",
     [ "UNIQUE\s*\(\s*merchant_id\s*,\s*event_id\s*\)";
       "ADD CONSTRAINT .* UNIQUE .*merchant_id.*event_id" ]) ].

Definition check_idempotency (root : Path) : res CheckResult :=
  hits <- search_patterns root idempotency_pats ;;
  ok <- or_ (hit hits "hash_merchant_and_body") (hit hits "db_unique") ;;
  Ok (MkCheck ok hits).

Definition redis_required_pats : dict (list string) :=
  [ ("env_required", ["REDIS_URL"; "throw new Error\(.+REDIS_URL.+required"]);
    ("fail_on_end",
     ["redis\.on\(['\" ++ q ++ "]end['\" ++ q ++ "].+process\.exit"]);
    ("rediss_tls", ["rediss://"]) ].

Definition check_redis_required (root : Path) : res CheckResult :=
  hits <- search_patterns root redis_required_pats ;;
  ok <- hit hits "env_required" ;;
  Ok (MkCheck ok hits).

Definition rate_limiter_pats : dict (list string) :=
  [ ("redis_window",
     ["rl:.*merchant.*endpoint.*\d+"; "redis\.incr\("; "redis\.expire\("]) ].

Definition check_rate_limiter (root : Path) : res CheckResult :=
  hits <- search_patterns root rate_limiter_pats ;;
  ok <- hit hits "redis_window" ;;
  Ok (MkCheck ok hits).

Definition retry_backoff_pats : dict (list string) :=
  [ ("handles_429_5xx", ["429"; "502"; "503"; "504"]);
    ("exponential_backoff", ["2\s*\*\*\s*i"; "exponential"; "backoff"]);
    ("jitter", ["Math\.random\(\)"]) ].

Definition check_retry_backoff (root : Path) : res CheckResult :=
  hits <- search_patterns root retry_backoff_pats ;;
  ok <- and_ (hit hits "handles_429_5xx")
             (or_ (hit hits "exponential_backoff") (hit hits "jitter")) ;;
  Ok (MkCheck ok hits).

Definition dlq_pats : dict (list string) :=
  [ ("queue_failed_handler", ["\.on\(['\" ++ q ++ "]failed['\" ++ q ++ "]"]);
    ("push_dlq", ["dlq"; "redis\.(lpush|rpush)\("]) ].

Definition check_dlq (root : Path) : res CheckResult :=
  hits <- search_patterns root dlq_pats ;;
  ok <- and_ (hit hits "queue_failed_handler") (hit hits "push_dlq") ;;
  Ok (MkCheck ok hits).

Definition token_renewal_pats : dict (list string) :=
  [ ("renew_long_lived", ["renew"; "long.*lived"; "refresh.*token"]) ].

Definition check_token_renewal (root : Path) : res CheckResult :=
  hits <- search_patterns root token_renewal_pats ;;
  ok <- hit hits "renew_long_lived" ;;
  Ok (MkCheck ok hits).

Definition rls_pats : dict (list string) :=
  [ ("policies",
     ["CREATE POLICY"; "ALTER TABLE .* ENABLE ROW LEVEL SECURITY"]);
    ("context_fn", ["set_merchant_context\("; "current_merchant_id\("]) ].

Definition check_rls (root : Path) : res CheckResult :=
  hits <- search_patterns root rls_pats ;;
  ok <- and_ (hit hits "policies") (hit hits "context_fn") ;;
  Ok (MkCheck ok hits).

Definition mapping_table_pats : dict (list string) :=
  [ ("composite_pk",
     ["PRIMARY KEY\s*\(\s*merchant_id\s*,\s*instagram_page_id\s*\)"]);
    ("encrypted_token", ["page_access_token_enc"; "encryp"]) ].

Definition check_mapping_table (root : Path) : res CheckResult :=
  hits <- search_patterns root mapping_table_pats ;;
  ok <- and_ (hit hits "composite_pk") (hit hits "encrypted_token") ;;
  Ok (MkCheck ok hits).

Definition hmac_rawbody_pats : dict (list string) :=
  [ ("header_check", ["X-Hub-Signature-256"; "x-hub-signature-256"]);
    ("raw_body_used", ["rawBody"; "getRawBody"; "req\.raw"]);
    ("timing_safe_equal", ["timingSafeEqual"; "crypto\.timingSafeEqual"]) ].

Definition check_hmac_rawbody (root : Path) : res CheckResult :=
  hits <- search_patterns root hmac_rawbody_pats ;;
  ok <- and_ (hit hits "header_check")
             (and_ (hit hits "raw_body_used") (hit hits "timing_safe_equal")) ;;
  Ok (MkCheck ok hits).

Definition openai_hardening_pats : dict (list string) :=
  [ ("timeout", ["timeout\s*:\s*\d+"]);
    ("json_parse_guard", ["JSON\.parse\([^\)]*\)"; "try"; "catch"]);
    ("input_cap", ["2KB|2048|<=\s*2000"]) ].

Definition check_openai_hardening (root : Path) : res CheckResult :=
  hits <- search_patterns root openai_hardening_pats ;;
  ok <- and_ (hit hits "timeout") (hit hits "json_parse_guard") ;;
  Ok (MkCheck ok hits).

Definition media_validation_pats : dict (list string) :=
  [ ("size_type_checks",
     ["mime"; "content[-_ ]type"; "file.*size"; "MB"; "8MB|10MB|1048576"]) ].

Definition check_media_validation (root : Path) : res CheckResult :=
  hits <- search_patterns root media_validation_pats ;;
  ok <- hit hits "size_type_checks" ;;
  Ok (MkCheck ok hits).

Definition docker_multistage_pats : dict (list string) :=
  [ ("has_build_stage", ["FROM\s+node:.*AS\s+build"]);
    ("runtime_stage", ["FROM\s+node:.*\n"; "EXPOSE\s+[0-9]+"]) ].

Definition check_docker_multistage (root : Path) : res CheckResult :=
  hits <- search_patterns root docker_multistage_pats ;;
  ok <- and_ (hit hits "has_build_stage") (hit hits "runtime_stage") ;;
  Ok (MkCheck ok hits).

Definition check_compose_ports (root : Path)
  : list (string * string * string) :=
  flat_map
    (fun p =>
       map (fun '(host, cont) => (str root p, host, cont))
           (compose_pairs (read_text_safe p)))
    (compose_files root).

(** An entry of the report. *)
Inductive section : Type :=
| PortsSummary (ports : dict (list string))
| EnvValidation (e : env_validation)
| Check (r : CheckResult)
| ComposePorts (ports : list (string * string * string))
| Score (passed total : nat).

Definition Report : Type := dict section.

(** [report.get(c, {}).get("ok")] as a truth value: only the result of a
    check has an [ok] item. *)
Definition get_ok (report : Report) (c : string) : bool :=
  match get report c with
  | Some (Check r) => ok r
  | _ => false
  end.

(** The scored checks, as listed in [main]. *)
Definition checks : list string :=
  [ "pkce"; "idempotency"; "redis_required"; "rate_limiter"; "retry_backoff";
    "dlq"; "token_renewal"; "rls"; "mapping_table"; "hmac_rawbody";
    "openai_hardening"; "media_validation"; "docker_multistage" ].

(** The heading of one section of the Markdown report: its title and
    whether it is marked as passed ([data.get("ok", False)]). *)
Definition add_section (title : string) (data_ok : bool) : string * bool :=
  (title, data_ok).

Definition env_ok (e : env_validation) : bool :=
  match e with
  | EnvNotFound _ => false
  | EnvScanned _ missing _ => negb (truthy missing)
  end.

Definition section_ok (s : section) : bool :=
  match s with
  | Check r => ok r
  | _ => false
  end.

(** What the command line resolves to: the absolute text of the root,
    everything below it when that path exists, and whether a file can be
    written into it. *)
Record Located : Type := MkLocated {
  resolved : string;
  listing : option (list entry);
  can_write : bool
}.

(** [path.write_text(...)].  Whether the root takes the report files is
    given with the root and not derived from the tree: a report file
    that exists as a directory, or that may not be written, is a root
    with [can_write] false. *)
Definition write_text (loc : Located) (path : string) : res unit :=
  if can_write loc then Ok tt else Raise (OSError path).

Definition World : Type := string -> Located.

(** What a run leaves behind: the status [main] returns, the report it
    built (none when it stopped before the checks), the files it wrote
    and the section headings of the Markdown file.  The console lines
    and the rendering of the two files are left out. *)
Record Run : Type := MkRun {
  exit_code : Z;
  report : option Report;
  written : list string;
  md_sections : list (string * bool)
}.

Definition main (argv : list string) (world : World) : res Run :=
  match argv with
  | _ :: arg :: _ =>
      let loc := world arg in
      match listing loc with
      | None => Ok (MkRun 2 None [] [])
      | Some below =>
          let root := MkPath (resolved loc) below in
          let report : Report := [] in
          let report :=
            setitem report "ports_summary" (PortsSummary (summarize_ports root)) in
          let report :=
            setitem report "env_validation"
                    (EnvValidation (scan_env_validation root)) in
          r <- check_pkce root ;;
          let report := setitem report "pkce" (Check r) in
          r <- check_idempotency root ;;
          let report := setitem report "idempotency" (Check r) in
          r <- check_redis_required root ;;
          let report := setitem report "redis_required" (Check r) in
          r <- check_rate_limiter root ;;
          let report := setitem report "rate_limiter" (Check r) in
          r <- check_retry_backoff root ;;
          let report := setitem report "retry_backoff" (Check r) in
          r <- check_dlq root ;;
          let report := setitem report "dlq" (Check r) in
          r <- check_token_renewal root ;;
          let report := setitem report "token_renewal" (Check r) in
          r <- check_rls root ;;
          let report := setitem report "rls" (Check r) in
          r <- check_mapping_table root ;;
          let report := setitem report "mapping_table" (Check r) in
          r <- check_hmac_rawbody root ;;
          let report := setitem report "hmac_rawbody" (Check r) in
          r <- check_openai_hardening root ;;
          let report := setitem report "openai_hardening" (Check r) in
          r <- check_media_validation root ;;
          let report := setitem report "media_validation" (Check r) in
          r <- check_docker_multistage root ;;
          let report := setitem report "docker_multistage" (Check r) in
          let report :=
            setitem report "compose_ports"
                    (ComposePorts (check_compose_ports root)) in
          let score := List.length (filter (get_ok report) checks) in
          let report :=
            setitem report "score" (Score score (List.length checks)) in
          _ <- write_text loc (joinpath (resolved loc) "audit_report.json") ;;
          ports <- getitem report "ports_summary" ;;
          env <- getitem report "env_validation" ;;
          let md :=
            [ add_section "Ports summary" true;
              add_section "Env validation"
                (match env with EnvValidation e => env_ok e | _ => false end) ] in
          md <- for_each checks
                  (fun md c =>
                     data <- getitem report c ;;
                     Ok (md ++ [add_section (upper c) (section_ok data)])%list)
                  md ;;
          _ <- write_text loc (joinpath (resolved loc) "audit_report.md") ;;
          Ok (MkRun 0 (Some report)
                    [ joinpath (resolved loc) "audit_report.json";
                      joinpath (resolved loc) "audit_report.md" ]
                    md)
      end
  | _ => Ok (MkRun 2 None [] [])
  end.

End Audit.

(* ================================================================= *)
(** ** Properties *)

Module Props.
Import Fs Audit.
Local Open Scope list_scope.

(** *** What [search_patterns] computes

    The loop of [search_patterns] fills the hit lists file by file.  Read
    as a whole it computes, for every group, the searched files that match
    one of the group's patterns. *)

Definition SEARCHED : list string := ["*.ts"; "*.js"; "*.sql"; "*.yml"; "*.yaml"].

Definition searched (root : Path) : list entry := glob_files root SEARCHED.

Definition group_matches (regs : list string) (p : entry) : bool :=
  existsb (fun rx => Re.search rx (read_text_safe p) SEARCH_FLAGS) regs.

Definition evidence_in (root : Path) (files : list entry) (regs : list string)
  : list string :=
  map (str root) (filter (group_matches regs) files).

Definition evidence (root : Path) (regs : list string) : list string :=
  evidence_in root (searched root) regs.

Definition table (root : Path) (files : list entry)
           (patterns : dict (list string)) : dict (list string) :=
  map (fun '(k, regs) => (k, evidence_in root files regs)) patterns.

Section Dict.
Context {V : Type}.

Lemma get_app_skip (d1 d2 : dict V) (k : string) :
  ~ In k (keys d1) -> get (d1 ++ d2) k = get d2 k.
Proof.
  induction d1 as [|[k' v'] d1 IH]; simpl; intros Hk; [reflexivity|].
  destruct (String.eqb_spec k' k) as [->|Hne].
  - exfalso; apply Hk; now left.
  - apply IH; intros Hin; apply Hk; now right.
Qed.

Lemma setitem_app_skip (d1 d2 : dict V) (k : string) (v : V) :
  ~ In k (keys d1) -> setitem (d1 ++ d2) k v = (d1 ++ setitem d2 k v)%list.
Proof.
  induction d1 as [|[k' v'] d1 IH]; simpl; intros Hk; [reflexivity|].
  destruct (String.eqb_spec k' k) as [->|Hne].
  - exfalso; apply Hk; now left.
  - f_equal; apply IH; intros Hin; apply Hk; now right.
Qed.

Lemma get_head (d : dict V) (k : string) (v : V) :
  get ((k, v) :: d) k = Some v.
Proof. simpl; now rewrite String.eqb_refl. Qed.

Lemma setitem_head (d : dict V) (k : string) (v w : V) :
  setitem ((k, v) :: d) k w = (k, w) :: d.
Proof. simpl; now rewrite String.eqb_refl. Qed.
End Dict.

Lemma keys_table root files patterns :
  keys (table root files patterns) = keys patterns.
Proof.
  unfold table, keys; rewrite map_map; apply map_ext; now intros [k regs].
Qed.

Lemma get_table root files patterns k :
  get (table root files patterns) k =
  option_map (evidence_in root files) (get patterns k).
Proof.
  induction patterns as [|[k' regs] ps IH]; simpl; [reflexivity|].
  destruct (String.eqb k' k); [reflexivity | apply IH].
Qed.

Lemma evidence_in_snoc root files p regs :
  evidence_in root (files ++ [p]) regs =
  if group_matches regs p
  then (evidence_in root files regs ++ [str root p])%list
  else evidence_in root files regs.
Proof.
  unfold evidence_in; rewrite filter_app; simpl.
  destruct (group_matches regs p); simpl.
  - now rewrite map_app.
  - now rewrite app_nil_r.
Qed.

(** One file: the inner loop over the groups, started after the groups
    [done] have been brought up to date. *)
Lemma inner_loop root files p (done todo : dict (list string)) :
  NoDup (keys (done ++ todo)) ->
  for_each todo
    (fun hits '(key, regs) =>
       if existsb (fun rx => Re.search rx (read_text_safe p) SEARCH_FLAGS) regs
       then append_hit hits key (str root p)
       else Ok hits)
    (table root (files ++ [p]) done ++ table root files todo)%list
  = Ok (table root (files ++ [p]) (done ++ todo)).
Proof.
  revert done; induction todo as [|[key regs] todo IH]; intros done Hnd.
  - simpl; now rewrite !app_nil_r.
  - assert (Hfresh : ~ In key (keys (table root (files ++ [p]) done))).
    { rewrite keys_table. unfold keys in *. rewrite map_app in Hnd.
      simpl in Hnd. apply NoDup_remove_2 in Hnd.
      intros Hin; apply Hnd; apply in_or_app; now left. }
    assert (Hstep :
      table root (files ++ [p]) (done ++ [(key, regs)]) ++ table root files todo
      = (table root (files ++ [p]) done
           ++ (key, evidence_in root (files ++ [p]) regs)
           :: table root files todo)%list).
    { unfold table; rewrite map_app; simpl; now rewrite <- app_assoc. }
    specialize (IH (done ++ [(key, regs)])%list).
    rewrite <- app_assoc in IH; simpl in IH. specialize (IH Hnd).
    rewrite Hstep in IH.
    cbn [for_each table map bind].
    fold (table root files todo). fold (group_matches regs p).
    rewrite (evidence_in_snoc root files p regs) in IH.
    destruct (group_matches regs p) eqn:Hm.
    + unfold append_hit, getitem.
      rewrite (get_app_skip _ _ _ Hfresh), get_head.
      cbn [bind].
      rewrite (setitem_app_skip _ _ _ _ Hfresh), setitem_head.
      exact IH.
    + cbn [bind]. exact IH.
Qed.

Lemma outer_loop root patterns (seen rest_ : list entry) :
  NoDup (keys patterns) ->
  for_each rest_
    (fun hits p =>
       for_each patterns
         (fun hits '(key, regs) =>
            if existsb (fun rx => Re.search rx (read_text_safe p) SEARCH_FLAGS) regs
            then append_hit hits key (str root p)
            else Ok hits)
         hits)
    (table root seen patterns)
  = Ok (table root (seen ++ rest_) patterns).
Proof.
  intros Hnd; revert seen; induction rest_ as [|p rest_ IH]; intros seen.
  - simpl; now rewrite app_nil_r.
  - cbn [for_each].
    pose proof (inner_loop root seen p [] patterns Hnd) as Hin.
    simpl in Hin. rewrite Hin. cbn [bind].
    rewrite (IH (seen ++ [p])%list), <- app_assoc. reflexivity.
Qed.

(** [search_patterns] never raises, and its result is the table of the
    evidence of every group. *)
Lemma search_patterns_spec root patterns :
  NoDup (keys patterns) ->
  search_patterns root patterns = Ok (table root (searched root) patterns).
Proof.
  intros Hnd. unfold search_patterns.
  pose proof (outer_loop root patterns [] (searched root) Hnd) as H.
  unfold table at 1 in H. unfold evidence_in in H. simpl in H.
  exact H.
Qed.

(** *** The checks, one by one

    Every check is [search_patterns] on its groups followed by a Boolean
    rule on which groups have evidence.  [catalogue] lists the scored
    checks of [main] with the rule each one applies. *)

(** The evidence of the group [k] of [patterns]. *)
Definition ev (root : Path) (patterns : dict (list string)) (k : string)
  : list string :=
  match get patterns k with
  | Some regs => evidence root regs
  | None => []
  end.

(** Whether the group has evidence. *)
Definition sat (root : Path) (patterns : dict (list string)) (k : string)
  : bool :=
  truthy (ev root patterns k).

Record scored : Type := MkScored {
  title : string;
  run : Path -> res CheckResult;
  groups : dict (list string);
  rule : (string -> bool) -> bool
}.

Definition catalogue : list scored :=
  [ MkScored "pkce" check_pkce pkce_pats
      (fun s => forallb s (keys pkce_pats));
    MkScored "idempotency" check_idempotency idempotency_pats
      (fun s => s "hash_merchant_and_body" || s "db_unique");
    MkScored "redis_required" check_redis_required redis_required_pats
      (fun s => s "env_required");
    MkScored "rate_limiter" check_rate_limiter rate_limiter_pats
      (fun s => s "redis_window");
    MkScored "retry_backoff" check_retry_backoff retry_backoff_pats
      (fun s => s "handles_429_5xx" && (s "exponential_backoff" || s "jitter"));
    MkScored "dlq" check_dlq dlq_pats
      (fun s => s "queue_failed_handler" && s "push_dlq");
    MkScored "token_renewal" check_token_renewal token_renewal_pats
      (fun s => s "renew_long_lived");
    MkScored "rls" check_rls rls_pats
      (fun s => s "policies" && s "context_fn");
    MkScored "mapping_table" check_mapping_table mapping_table_pats
      (fun s => s "composite_pk" && s "encrypted_token");
    MkScored "hmac_rawbody" check_hmac_rawbody hmac_rawbody_pats
      (fun s => s "header_check" && (s "raw_body_used" && s "timing_safe_equal"));
    MkScored "openai_hardening" check_openai_hardening openai_hardening_pats
      (fun s => s "timeout" && s "json_parse_guard");
    MkScored "media_validation" check_media_validation media_validation_pats
      (fun s => s "size_type_checks");
    MkScored "docker_multistage" check_docker_multistage docker_multistage_pats
      (fun s => s "has_build_stage" && s "runtime_stage") ].

Lemma and_Ok a b : and_ (Ok a) (Ok b) = Ok (a && b).
Proof. now destruct a. Qed.

Lemma or_Ok a b : or_ (Ok a) (Ok b) = Ok (a || b).
Proof. now destruct a. Qed.

Lemma hit_table root patterns k regs :
  get patterns k = Some regs ->
  hit (table root (searched root) patterns) k = Ok (sat root patterns k).
Proof.
  intros Hk. unfold hit, getitem, sat, ev.
  now rewrite get_table, Hk.
Qed.

Lemma all_hits_Ok root patterns ks :
  (forall k, In k ks -> exists regs, get patterns k = Some regs) ->
  all_hits (table root (searched root) patterns) ks
  = Ok (forallb (sat root patterns) ks).
Proof.
  induction ks as [|k ks IH]; intros Hks; [reflexivity|].
  destruct (Hks k (or_introl eq_refl)) as [regs Hk].
  cbn [all_hits forallb].
  rewrite (hit_table _ _ _ _ Hk), IH, and_Ok; [reflexivity|].
  intros k' Hin; apply Hks; now right.
Qed.

Lemma get_keys {V : Type} (d : dict V) k :
  In k (keys d) -> exists v, get d k = Some v.
Proof.
  induction d as [|[k' v'] d IH]; simpl; [tauto|].
  intros [->|Hin].
  - rewrite String.eqb_refl; eauto.
  - destruct (String.eqb k' k); eauto.
Qed.

Ltac nodup_keys :=
  repeat (constructor; [simpl; intuition discriminate|]); constructor.

(** The result of a check: its rule applied to the evidence, and the
    evidence of every group. *)
Definition outcome (root : Path) (c : scored) : CheckResult :=
  MkCheck (rule c (sat root (groups c))) (table root (searched root) (groups c)).

Ltac solve_check :=
  intros root; unfold outcome; cbn [run rule groups];
  match goal with
  | |- ?chk root = _ => unfold chk
  end;
  rewrite search_patterns_spec by nodup_keys;
  cbn [bind];
  repeat (erewrite hit_table by reflexivity);
  repeat first [rewrite and_Ok | rewrite or_Ok]; cbn [bind];
  reflexivity.

Lemma catalogue_spec :
  Forall (fun c => forall root, run c root = Ok (outcome root c)) catalogue.
Proof.
  unfold catalogue.
  constructor.
  { intros root; unfold outcome; cbn [run rule groups].
    unfold check_pkce.
    rewrite search_patterns_spec by nodup_keys. cbn [bind].
    rewrite keys_table, all_hits_Ok; [reflexivity|].
    intros k Hk; now apply get_keys. }
  repeat (constructor; [solve_check|]).
  constructor.
Qed.

Lemma length_catalogue : List.length catalogue = 13.
Proof. reflexivity. Qed.

Lemma titles_catalogue : map title catalogue = checks.
Proof. reflexivity. Qed.

(** *** What [main] computes *)

Definition passed (root : Path) : nat :=
  List.length (filter (fun c => ok (outcome root c)) catalogue).

Definition report_of (root : Path) : Report :=
  [ ("ports_summary", PortsSummary (summarize_ports root));
    ("env_validation", EnvValidation (scan_env_validation root)) ]
  ++ map (fun c => (title c, Check (outcome root c))) catalogue
  ++ [ ("compose_ports", ComposePorts (check_compose_ports root));
       ("score", Score (passed root) 13) ].

Definition md_of (root : Path) : list (string * bool) :=
  [ ("Ports summary", true);
    ("Env validation", env_ok (scan_env_validation root)) ]
  ++ map (fun c => (upper (title c), ok (outcome root c))) catalogue.

Definition run_of (root : Path) : Run :=
  MkRun 0 (Some (report_of root))
        [ joinpath (root_str root) "audit_report.json";
          joinpath (root_str root) "audit_report.md" ]
        (md_of root).

Definition stopped : Run := MkRun 2 None [] [].

Lemma length_filter_sum {A : Type} (f : A -> bool) (l : list A) :
  List.length (filter f l) = list_sum (map (fun x => if f x then 1 else 0) l).
Proof.
  induction l as [|x l IH]; simpl; [reflexivity|].
  destruct (f x); simpl; now rewrite IH.
Qed.

Lemma main_runs prog arg more (world : World) below :
  listing (world arg) = Some below ->
  can_write (world arg) = true ->
  main (prog :: arg :: more) world
  = Ok (run_of (MkPath (resolved (world arg)) below)).
Proof.
  intros Hl Hw. unfold main, write_text. rewrite Hl, Hw.
  set (root := MkPath (resolved (world arg)) below).
  pose proof catalogue_spec as H. unfold catalogue in H.
  repeat (apply Forall_cons_iff in H;
          let H1 := fresh "Hc" in destruct H as [H1 H];
          cbn [run] in H1; rewrite (H1 root)).
  clear H. cbn [bind].
  unfold run_of, report_of, md_of, passed, catalogue.
  rewrite !length_filter_sum.
  cbn [map app title root_str root].
  generalize (summarize_ports root) (scan_env_validation root)
             (check_compose_ports root). intros ps env cp.
  repeat match goal with
         | |- context [outcome root ?c] =>
             let r := fresh "r" in
             generalize (outcome root c); intros r
         end.
  reflexivity.
Qed.

Lemma main_write_fails prog arg more (world : World) below :
  listing (world arg) = Some below ->
  can_write (world arg) = false ->
  main (prog :: arg :: more) world
  = Raise (OSError (joinpath (resolved (world arg)) "audit_report.json")).
Proof.
  intros Hl Hw. unfold main, write_text. rewrite Hl, Hw.
  set (root := MkPath (resolved (world arg)) below).
  pose proof catalogue_spec as H. unfold catalogue in H.
  repeat (apply Forall_cons_iff in H;
          let H1 := fresh "Hc" in destruct H as [H1 H];
          cbn [run] in H1; rewrite (H1 root)).
  reflexivity.
Qed.

Lemma main_stops_missing_root prog arg more (world : World) :
  listing (world arg) = None ->
  main (prog :: arg :: more) world = Ok stopped.
Proof. intros Hl; unfold main; rewrite Hl; reflexivity. Qed.

Lemma main_stops_no_argument (world : World) argv :
  List.length argv < 2 -> main argv world = Ok stopped.
Proof.
  intros Hlen; destruct argv as [|prog [|arg more]];
    [reflexivity | reflexivity | simpl in Hlen; lia].
Qed.

Ltac abstract_outcomes root :=
  repeat match goal with
         | |- context [outcome root ?c] => generalize (outcome root c); intro
         end.

Lemma report_score root :
  get (report_of root) "score" = Some (Score (passed root) 13).
Proof.
  unfold report_of, catalogue. cbn [map app title].
  generalize (passed root); intro.
  abstract_outcomes root. reflexivity.
Qed.

Lemma report_checks root :
  Forall (fun c => get (report_of root) (title c) = Some (Check (outcome root c)))
         catalogue.
Proof.
  unfold report_of, catalogue. cbn [map app title].
  generalize (passed root); intro.
  repeat (constructor;
          [cbn [title];
           match goal with
           | |- context [Some (Check (outcome root ?c))] => set (this := outcome root c)
           end;
           abstract_outcomes root; reflexivity|]).
  constructor.
Qed.

Lemma report_diagnostic root :
  get (report_of root) "ports_summary" = Some (PortsSummary (summarize_ports root))
  /\ get (report_of root) "env_validation"
     = Some (EnvValidation (scan_env_validation root))
  /\ get (report_of root) "compose_ports"
     = Some (ComposePorts (check_compose_ports root)).
Proof.
  unfold report_of, catalogue. cbn [map app title].
  generalize (passed root) (summarize_ports root) (scan_env_validation root)
             (check_compose_ports root); intros.
  abstract_outcomes root. repeat split; reflexivity.
Qed.

Lemma passed_counts root :
  passed root = List.length (filter (get_ok (report_of root)) checks).
Proof.
  unfold passed. rewrite !length_filter_sum.
  unfold get_ok, report_of, catalogue, checks. cbn [map app title].
  generalize (passed root); intro.
  abstract_outcomes root. reflexivity.
Qed.

Lemma passed_le root : passed root <= 13.
Proof.
  unfold passed.
  etransitivity; [apply filter_length_le | rewrite length_catalogue; lia].
Qed.

(** *** Growing the tree *)

Lemma glob_files_flat_map root patterns :
  glob_files root patterns = flat_map (rglob root) patterns.
Proof.
  unfold glob_files.
  assert (H : forall acc, fold_left (fun out pat => out ++ rglob root pat)
                                    patterns acc
                          = acc ++ flat_map (rglob root) patterns).
  { induction patterns as [|pat ps IH]; intros acc; simpl.
    - now rewrite app_nil_r.
    - now rewrite IH, app_assoc. }
  apply (H []).
Qed.

Lemma in_glob_files root patterns p :
  In p (glob_files root patterns) <->
  In p (walk root) /\ existsb (fun pat => glob_match pat p) patterns = true.
Proof.
  rewrite glob_files_flat_map, in_flat_map, existsb_exists.
  unfold rglob. split.
  - intros (pat & Hpat & Hin). apply filter_In in Hin. destruct Hin; eauto.
  - intros (Hin & pat & Hpat & Hm). exists pat. rewrite filter_In. auto.
Qed.

Lemma in_evidence root regs x :
  In x (evidence root regs) <->
  exists p, In p (searched root) /\ group_matches regs p = true /\ str root p = x.
Proof.
  unfold evidence, evidence_in. rewrite in_map_iff. split.
  - intros (p & Hx & Hin). apply filter_In in Hin. destruct Hin. eauto.
  - intros (p & Hin & Hm & Hx). exists p. rewrite filter_In. auto.
Qed.

Lemma truthy_In {A : Type} (l : list A) :
  truthy l = true <-> exists x, In x l.
Proof.
  destruct l as [|a l]; simpl; split.
  - discriminate.
  - intros [x []].
  - eauto.
  - reflexivity.
Qed.

Section Growth.
Variables (root root' : Path).
Hypothesis same_root : root_str root' = root_str root.
Hypothesis more_files : incl (walk root) (walk root').

Lemma str_same p : str root' p = str root p.
Proof. unfold str. now rewrite same_root. Qed.

Lemma searched_grows : incl (searched root) (searched root').
Proof.
  intros p. unfold searched. rewrite !in_glob_files.
  intros [Hin Hm]. split; [now apply more_files | exact Hm].
Qed.

Lemma evidence_grows regs : incl (evidence root regs) (evidence root' regs).
Proof.
  intros x. rewrite !in_evidence. intros (p & Hin & Hm & Hx).
  exists p. rewrite str_same. auto using searched_grows.
Qed.

Lemma ev_grows patterns k : incl (ev root patterns k) (ev root' patterns k).
Proof.
  unfold ev. destruct (get patterns k); [apply evidence_grows | apply incl_refl].
Qed.

Lemma sat_grows patterns k :
  sat root patterns k = true -> sat root' patterns k = true.
Proof.
  unfold sat. rewrite !truthy_In. intros [x Hx]. exists x.
  now apply ev_grows.
Qed.
End Growth.

(** Every rule of the catalogue is a monotone function of the group
    satisfactions. *)
Lemma rules_monotone :
  Forall (fun c => forall s s' : string -> bool,
              (forall k, s k = true -> s' k = true) ->
              rule c s = true -> rule c s' = true)
         catalogue.
Proof.
  unfold catalogue.
  repeat (constructor;
          [intros s s' Hm; cbn [rule forallb keys map fst pkce_pats];
           rewrite ?andb_true_iff, ?orb_true_iff; intuition auto|]).
  constructor.
Qed.

Lemma get_table_ev root patterns k :
  get (table root (searched root) patterns) k
  = option_map (fun _ => ev root patterns k) (get patterns k).
Proof.
  rewrite get_table. unfold ev. now destruct (get patterns k).
Qed.

(** *** Searching a text that contains a matching part *)

Lemma scan_unfold flags r t p cs :
  Re.scan flags r t p cs =
  match Re.match_here flags r (Re.MState t p 0 cs) with
  | Some st' => Some (Re.MState t p 0 cs, st')
  | None =>
      match t with
      | String a t' => Re.scan flags r t' (Some a) cs
      | EmptyString => None
      end
  end.
Proof. destruct t; reflexivity. Qed.

(** A part of the text that matches wherever it stands is found behind
    any prefix. *)
Lemma scan_behind flags r s :
  (forall p cs, exists st, Re.match_here flags r (Re.MState s p 0 cs) = Some st) ->
  forall pre p cs, exists m, Re.scan flags r (pre ++ s)%string p cs = Some m.
Proof.
  intros Hs pre; induction pre as [|a pre IH]; intros p cs.
  - simpl. rewrite scan_unfold. destruct (Hs p cs) as [st ->]. eauto.
  - rewrite scan_unfold.
    destruct (Re.match_here flags r _); [eauto|].
    simpl. apply IH.
Qed.

Lemma search_behind pat r flags s :
  Re.compile pat = Some r ->
  (forall p cs, exists st, Re.match_here flags r (Re.MState s p 0 cs) = Some st) ->
  forall pre, Re.search pat (pre ++ s)%string flags = true.
Proof.
  intros Hc Hs pre. unfold Re.search, Re.search_re. rewrite Hc.
  destruct (scan_behind flags r s Hs pre None []) as [m ->]. reflexivity.
Qed.

Definition DB_UNIQUE : string :=
  "UNIQUE\s*\(\s*merchant_id\s*,\s*event_id\s*\)".

Lemma db_unique_found pre post :
  Re.search DB_UNIQUE
    (pre ++ "UNIQUE (merchant_id, event_id)" ++ post)%string SEARCH_FLAGS = true.
Proof.
  eapply search_behind; [vm_compute; reflexivity|].
  intros p cs. eexists. vm_compute. reflexivity.
Qed.

(** *** Sets of ports *)

Lemma set_add_In x y s : In x (set_add y s) <-> x = y \/ In x s.
Proof.
  induction s as [|z s IH]; simpl.
  - intuition.
  - destruct (String.eqb_spec y z) as [->|Hne]; simpl; intuition.
Qed.

Lemma set_add_all_In x xs s : In x (set_add_all xs s) <-> In x xs \/ In x s.
Proof.
  unfold set_add_all. revert s.
  induction xs as [|y xs IH]; intros s; simpl.
  - intuition.
  - rewrite IH, set_add_In. intuition.
Qed.

Lemma insert_sorted_In x y l : In x (insert_sorted y l) <-> x = y \/ In x l.
Proof.
  induction l as [|z l IH]; simpl.
  - intuition.
  - destruct (String.leb y z); simpl; intuition.
Qed.

Lemma sorted_In x s : In x (sorted s) <-> In x s.
Proof.
  unfold sorted. induction s as [|y s IH]; simpl.
  - reflexivity.
  - rewrite insert_sorted_In, IH. intuition.
Qed.

Section Accumulate.
Context {A : Type} (step : list string -> A -> list string).
Hypothesis keeps : forall acc a x, In x acc -> In x (step acc a).

Lemma fold_keeps l acc x : In x acc -> In x (fold_left step l acc).
Proof.
  revert acc; induction l as [|a l IH]; intros acc Hx; simpl; auto.
Qed.

Lemma fold_adds l acc a x :
  In a l -> (forall acc', In x (step acc' a)) -> In x (fold_left step l acc).
Proof.
  revert acc; induction l as [|b l IH]; intros acc Hin Hstep; simpl.
  - destruct Hin.
  - destruct Hin as [->|Hin].
    + apply fold_keeps, Hstep.
    + now apply IH.
Qed.
End Accumulate.

Definition ENV_DEFAULT : string := "process\.env\.PORT\s*\|\|\s*([0-9]+)".
Definition LISTEN_CALL : string := "\.listen\(\s*([0-9]{2,5})".

(** The loop of [summarize_ports] over the code files. *)
Definition code_step (acc : list string) (p : entry) : list string :=
  let t := read_text_safe p in
  set_add_all (Re.finditer_group1 LISTEN_CALL t Re.NOFLAG)
    (set_add_all (Re.finditer_group1 ENV_DEFAULT t Re.NOFLAG) acc).

Definition code_ports (root : Path) : list string :=
  sorted (fold_left code_step (glob_files root ["*.ts"; "*.js"]) []).

Lemma summarize_ports_code root :
  get (summarize_ports root) "code" = Some (code_ports root).
Proof. reflexivity. Qed.

Lemma code_ports_In root p x :
  In p (glob_files root ["*.ts"; "*.js"]) ->
  In x (Re.finditer_group1 ENV_DEFAULT (read_text_safe p) Re.NOFLAG)
  \/ In x (Re.finditer_group1 LISTEN_CALL (read_text_safe p) Re.NOFLAG) ->
  In x (code_ports root).
Proof.
  intros Hp Hx. unfold code_ports. rewrite sorted_In.
  apply fold_adds with (a := p); [| exact Hp |].
  - intros acc a y Hy. unfold code_step. rewrite !set_add_all_In. auto.
  - intros acc. unfold code_step. rewrite !set_add_all_In. tauto.
Qed.

(** *** Sample trees *)

Definition file (path : list string) (t : string) : entry :=
  Entry path true (Text t) (Text t).

Definition tree (below : list entry) : Path := MkPath "/srv/app" below.

Definition at_root (below : list entry) : World :=
  fun _ => MkLocated "/srv/app" (Some below) true.

Definition read_only (below : list entry) : World :=
  fun _ => MkLocated "/srv/app" (Some below) false.

Definition nowhere : World := fun _ => MkLocated "/srv/app" None false.

Definition line (t : string) : string := (t ++ String Re.nl EmptyString)%string.

(* ----------------------------------------------------------------- *)
(** *** The score *)

(** C3.  On every tree (the root exists and takes the report files) the
    report carries a score [passed]/[total] with
    [0 <= passed <= total]; [total] is 13, the number of scored checks
    listed in [main], whatever the tree holds; [passed] is the number of
    scored checks whose result has [ok] true.  Each scored check has a
    result in the report; the ports summary, the env validation and the
    compose ports are in the report and are not scored. *)
Theorem score_totality prog arg more (world : World) below :
  listing (world arg) = Some below ->
  can_write (world arg) = true ->
  exists run rep passed total,
    main (prog :: arg :: more) world = Ok run
    /\ report run = Some rep
    /\ get rep "score" = Some (Score passed total)
    /\ 0 <= passed <= total
    /\ total = 13
    /\ total = List.length checks
    /\ Forall (fun c => exists r, get rep c = Some (Check r)) checks
    /\ passed
       = List.length
           (filter (fun c => match get rep c with
                             | Some (Check r) => ok r
                             | _ => false
                             end) checks)
    /\ (exists ps env cp,
           get rep "ports_summary" = Some (PortsSummary ps)
           /\ get rep "env_validation" = Some (EnvValidation env)
           /\ get rep "compose_ports" = Some (ComposePorts cp))
    /\ ~ In "ports_summary" checks
    /\ ~ In "env_validation" checks
    /\ ~ In "compose_ports" checks.
Proof.
  intros Hl Hw. rewrite (main_runs _ _ _ _ _ Hl Hw).
  set (root := MkPath (resolved (world arg)) below).
  exists (run_of root), (report_of root), (passed root), 13.
  split; [reflexivity|]. split; [reflexivity|].
  split; [apply report_score|].
  split; [pose proof (passed_le root); lia|].
  split; [reflexivity|]. split; [reflexivity|].
  split.
  { rewrite <- titles_catalogue, Forall_map.
    eapply Forall_impl; [|apply (report_checks root)].
    intros c Hc; simpl in Hc; eauto. }
  split; [apply passed_counts|].
  split.
  { destruct (report_diagnostic root) as (H1 & H2 & H3). eauto 7. }
  unfold checks; simpl; repeat split; intuition discriminate.
Qed.

Lemma score_totality_witness :
  exists run rep passed total,
    main ["audit"; "app"] (at_root [file ["api.ts"] "process.env.REDIS_URL"])
    = Ok run
    /\ report run = Some rep
    /\ get rep "score" = Some (Score passed total)
    /\ 0 <= passed <= total
    /\ total = 13
    /\ total = List.length checks
    /\ Forall (fun c => exists r, get rep c = Some (Check r)) checks
    /\ passed
       = List.length
           (filter (fun c => match get rep c with
                             | Some (Check r) => ok r
                             | _ => false
                             end) checks)
    /\ (exists ps env cp,
           get rep "ports_summary" = Some (PortsSummary ps)
           /\ get rep "env_validation" = Some (EnvValidation env)
           /\ get rep "compose_ports" = Some (ComposePorts cp))
    /\ ~ In "ports_summary" checks
    /\ ~ In "env_validation" checks
    /\ ~ In "compose_ports" checks.
Proof.
  apply (score_totality "audit" "app" []
           (at_root [file ["api.ts"] "process.env.REDIS_URL"])
           [file ["api.ts"] "process.env.REDIS_URL"]).
  - reflexivity.
  - reflexivity.
Defined.

(* ----------------------------------------------------------------- *)
(** *** Exit status *)

(** C9.  [main] returns 2, without running a check or writing a file,
    when the command line has no root argument and when the root does
    not exist.  Otherwise it runs the checks and, once the two report
    files are written, returns 0 whatever the score: the tree with no
    file scores 0 of 13 and exits with 0.  A run that cannot write its
    report ends in the error of the write and returns no status. *)
Theorem exit_codes :
  (forall (argv : list string) (world : World),
      main argv world
      = match argv with
        | _ :: arg :: _ =>
            match listing (world arg) with
            | None => Ok stopped
            | Some below =>
                if can_write (world arg)
                then Ok (run_of (MkPath (resolved (world arg)) below))
                else Raise (OSError (joinpath (resolved (world arg))
                                              "audit_report.json"))
            end
        | _ => Ok stopped
        end)
  /\ (exit_code stopped = 2%Z /\ report stopped = None
      /\ written stopped = [] /\ md_sections stopped = [])
  /\ (forall root,
         exit_code (run_of root) = 0%Z
         /\ exists rep passed,
              report (run_of root) = Some rep
              /\ get rep "score" = Some (Score passed 13))
  /\ (forall argv world run,
         main argv world = Ok run ->
         (exit_code run = 2%Z /\ report run = None)
         \/ (exit_code run = 0%Z /\ report run <> None))
  /\ (exists run rep,
         main ["audit"; "app"] (at_root []) = Ok run
         /\ exit_code run = 0%Z
         /\ report run = Some rep
         /\ get rep "score" = Some (Score 0 13))
  /\ (exists run rep,
         main ["audit"; "app"] (at_root [file ["api.ts"] "process.env.REDIS_URL"])
         = Ok run
         /\ exit_code run = 0%Z
         /\ report run = Some rep
         /\ get rep "score" = Some (Score 1 13))
  /\ main ["audit"] (at_root []) = Ok stopped
  /\ main ["audit"; "app"] nowhere = Ok stopped
  /\ main ["audit"; "app"] (read_only [])
     = Raise (OSError "/srv/app/audit_report.json").
Proof.
  assert (Hmain : forall (argv : list string) (world : World),
      main argv world
      = match argv with
        | _ :: arg :: _ =>
            match listing (world arg) with
            | None => Ok stopped
            | Some below =>
                if can_write (world arg)
                then Ok (run_of (MkPath (resolved (world arg)) below))
                else Raise (OSError (joinpath (resolved (world arg))
                                              "audit_report.json"))
            end
        | _ => Ok stopped
        end).
  { intros argv world. destruct argv as [|prog [|arg more]];
      [reflexivity | reflexivity |].
    destruct (listing (world arg)) as [below|] eqn:Hl.
    - destruct (can_write (world arg)) eqn:Hw.
      + apply (main_runs _ _ _ _ _ Hl Hw).
      + apply (main_write_fails _ _ _ _ _ Hl Hw).
    - apply (main_stops_missing_root _ _ _ _ Hl). }
  split; [exact Hmain|].
  split; [repeat split|].
  split.
  { intros root. split; [reflexivity|].
    eexists _, _. split; [reflexivity | apply report_score]. }
  split.
  { intros argv world run. rewrite Hmain.
    destruct argv as [|prog [|arg more]].
    - intros [= <-]. left. split; reflexivity.
    - intros [= <-]. left. split; reflexivity.
    - destruct (listing (world arg)) as [below|].
      + destruct (can_write (world arg)); [|discriminate].
        intros [= <-]. right. split; [reflexivity | discriminate].
      + intros [= <-]. left. split; reflexivity. }
  split.
  { eexists _, _. rewrite Hmain. cbn [at_root listing can_write resolved].
    split; [reflexivity|]. split; [reflexivity|]. split; [reflexivity|].
    vm_compute. reflexivity. }
  split.
  { eexists _, _. rewrite Hmain. cbn [at_root listing can_write resolved].
    split; [reflexivity|]. split; [reflexivity|]. split; [reflexivity|].
    vm_compute. reflexivity. }
  split; [reflexivity|]. split; [reflexivity|].
  rewrite Hmain. reflexivity.
Qed.

(* ----------------------------------------------------------------- *)
(** *** Evidence for every group *)

Definition SIGNATURE_ONLY : Path :=
  tree [file ["src"; "webhook.ts"] "const sig = req.headers['X-Hub-Signature-256'];"].

(** C4.  The result of every scored check lists every group of the
    check with all of its evidence, whether or not the verdict needed
    it.  The webhook-signature check passes only when its three groups
    all have evidence; a tree with evidence for [header_check] alone
    gives [ok] false, a non-empty list for [header_check] and empty
    lists for the other two groups. *)
Theorem hits_for_every_group :
  (forall root,
      Forall (fun c =>
                exists r,
                  run c root = Ok r
                  /\ keys (hits r) = keys (groups c)
                  /\ forall k regs,
                       get (groups c) k = Some regs ->
                       get (hits r) k = Some (evidence root regs))
             catalogue)
  /\ (forall root,
         check_hmac_rawbody root
         = Ok (MkCheck
                 (truthy (ev root hmac_rawbody_pats "header_check")
                  && (truthy (ev root hmac_rawbody_pats "raw_body_used")
                      && truthy (ev root hmac_rawbody_pats "timing_safe_equal")))
                 [ ("header_check", ev root hmac_rawbody_pats "header_check");
                   ("raw_body_used", ev root hmac_rawbody_pats "raw_body_used");
                   ("timing_safe_equal",
                    ev root hmac_rawbody_pats "timing_safe_equal") ]))
  /\ (forall root,
         ev root hmac_rawbody_pats "header_check" <> [] ->
         ev root hmac_rawbody_pats "raw_body_used" = [] ->
         ev root hmac_rawbody_pats "timing_safe_equal" = [] ->
         check_hmac_rawbody root
         = Ok (MkCheck false
                 [ ("header_check", ev root hmac_rawbody_pats "header_check");
                   ("raw_body_used", []);
                   ("timing_safe_equal", []) ]))
  /\ check_hmac_rawbody SIGNATURE_ONLY
     = Ok (MkCheck false
             [ ("header_check", ["/srv/app/src/webhook.ts"]);
               ("raw_body_used", []);
               ("timing_safe_equal", []) ]).
Proof.
  assert (Hhmac : forall root,
    check_hmac_rawbody root
    = Ok (MkCheck
            (truthy (ev root hmac_rawbody_pats "header_check")
             && (truthy (ev root hmac_rawbody_pats "raw_body_used")
                 && truthy (ev root hmac_rawbody_pats "timing_safe_equal")))
            [ ("header_check", ev root hmac_rawbody_pats "header_check");
              ("raw_body_used", ev root hmac_rawbody_pats "raw_body_used");
              ("timing_safe_equal",
               ev root hmac_rawbody_pats "timing_safe_equal") ])).
  { intros root. pose proof catalogue_spec as H.
    rewrite Forall_forall in H.
    specialize (H (MkScored "hmac_rawbody" check_hmac_rawbody hmac_rawbody_pats
                     (fun s => s "header_check"
                               && (s "raw_body_used" && s "timing_safe_equal")))).
    cbn [run] in H. rewrite H; [reflexivity|].
    unfold catalogue; simpl; tauto. }
  split; [|split; [exact Hhmac | split]].
  - intros root. eapply Forall_impl; [|apply catalogue_spec].
    intros c Hc; simpl in Hc. exists (outcome root c).
    split; [apply Hc|]. unfold outcome; cbn [hits].
    split; [apply keys_table|].
    intros k regs Hk. now rewrite get_table, Hk.
  - intros root Hh Hr Ht. rewrite Hhmac, Hr, Ht.
    destruct (ev root hmac_rawbody_pats "header_check"); [congruence|reflexivity].
  - vm_compute. reflexivity.
Qed.

(* ----------------------------------------------------------------- *)
(** *** Monotonicity *)

Definition CONSTRAINT_ONLY : entry :=
  file ["db"; "001_events.sql"]
       "CREATE TABLE events (id int, UNIQUE (merchant_id, event_id));".

(** C5.  Adding a file to the tree, anywhere in the walk, keeps every
    hit of every group of every scored check and never turns a verdict
    from true to false; it can turn the verdict of the idempotency
    check, an OR of its two groups, from false to true. *)
Theorem evaluation_monotone :
  (forall (root_s : string) (before after : list entry) (f : entry),
      Forall (fun c =>
                exists r r',
                  run c (MkPath root_s (before ++ after)) = Ok r
                  /\ run c (MkPath root_s (before ++ f :: after)) = Ok r'
                  /\ keys (hits r') = keys (hits r)
                  /\ (forall k v,
                         get (hits r) k = Some v ->
                         exists v', get (hits r') k = Some v' /\ incl v v')
                  /\ (ok r = true -> ok r' = true))
             catalogue)
  /\ (exists r r',
         check_idempotency (tree []) = Ok r
         /\ check_idempotency (tree [CONSTRAINT_ONLY]) = Ok r'
         /\ ok r = false /\ ok r' = true).
Proof.
  split.
  - intros root_s before after f.
    set (root := MkPath root_s (before ++ after)).
    set (root' := MkPath root_s (before ++ f :: after)).
    assert (Hsame : root_str root' = root_str root) by reflexivity.
    assert (Hmore : incl (walk root) (walk root')).
    { intros p; simpl; rewrite !in_app_iff; simpl; tauto. }
    pose proof catalogue_spec as Hspec. pose proof rules_monotone as Hmono.
    rewrite Forall_forall in *. intros c Hc.
    exists (outcome root c), (outcome root' c).
    split; [apply (Hspec c Hc)|]. split; [apply (Hspec c Hc)|].
    unfold outcome; cbn [hits ok].
    split; [now rewrite !keys_table|]. split.
    + intros k v. rewrite !get_table_ev.
      destruct (get (groups c) k); simpl; [|discriminate].
      intros [= <-]. eexists; split; [reflexivity|].
      now apply ev_grows.
    + apply (Hmono c Hc). intros k. now apply sat_grows.
  - eexists _, _. split; [vm_compute; reflexivity|].
    split; [vm_compute; reflexivity|]. split; reflexivity.
Qed.

(* ----------------------------------------------------------------- *)
(** *** The Redis check *)

Definition TLS_AND_EXIT_ONLY : Path :=
  tree [ file ["src"; "cache.ts"]
              "const c = connect('rediss://cache'); redis.on('end', () => process.exit(1));" ].

Definition URL_ONLY : Path :=
  tree [ file ["src"; "cache.ts"] "const url = process.env.REDIS_URL;" ].

(** C10.  The verdict of the Redis check is exactly whether its
    [env_required] group has evidence.  The groups [fail_on_end] and
    [rediss_tls] are searched and reported and have no part in the
    verdict: evidence for both of them without [env_required] fails,
    evidence for [env_required] alone passes. *)
Theorem redis_verdict_is_env_required :
  (forall root,
      check_redis_required root
      = Ok (MkCheck
              (truthy (ev root redis_required_pats "env_required"))
              [ ("env_required", ev root redis_required_pats "env_required");
                ("fail_on_end", ev root redis_required_pats "fail_on_end");
                ("rediss_tls", ev root redis_required_pats "rediss_tls") ]))
  /\ check_redis_required TLS_AND_EXIT_ONLY
     = Ok (MkCheck false
             [ ("env_required", []);
               ("fail_on_end", ["/srv/app/src/cache.ts"]);
               ("rediss_tls", ["/srv/app/src/cache.ts"]) ])
  /\ check_redis_required URL_ONLY
     = Ok (MkCheck true
             [ ("env_required", ["/srv/app/src/cache.ts"]);
               ("fail_on_end", []);
               ("rediss_tls", []) ]).
Proof.
  split; [|split; vm_compute; reflexivity].
  intros root. pose proof catalogue_spec as H.
  rewrite Forall_forall in H.
  specialize (H (MkScored "redis_required" check_redis_required
                   redis_required_pats (fun s => s "env_required"))).
  cbn [run] in H. rewrite H; [reflexivity|].
  unfold catalogue; simpl; tauto.
Qed.

(* ----------------------------------------------------------------- *)
(** *** The uniqueness constraint *)

Lemma db_unique_group :
  get idempotency_pats "db_unique"
  = Some [DB_UNIQUE; "ADD CONSTRAINT .* UNIQUE .*merchant_id.*event_id"].
Proof. reflexivity. Qed.

(** C7.  A searched file whose text contains
    [UNIQUE (merchant_id, event_id)] is evidence for the [db_unique]
    group, and the idempotency check then passes whatever the evidence
    [hashed] of the hashing group is, the empty list included. *)
Theorem unique_constraint_passes_idempotency root p pre post :
  In p (walk root) ->
  existsb (fun pat => glob_match pat p) SEARCHED = true ->
  read_text_safe p = (pre ++ "UNIQUE (merchant_id, event_id)" ++ post)%string ->
  exists hashed constrained,
    check_idempotency root
    = Ok (MkCheck true [ ("hash_merchant_and_body", hashed);
                         ("db_unique", constrained) ])
    /\ hashed = ev root idempotency_pats "hash_merchant_and_body"
    /\ In (str root p) constrained.
Proof.
  intros Hin Hglob Htext.
  assert (Hhit : In (str root p) (ev root idempotency_pats "db_unique")).
  { unfold ev. rewrite db_unique_group. apply in_evidence.
    exists p. split; [|split; [|reflexivity]].
    - unfold searched. apply in_glob_files. auto.
    - unfold group_matches. cbn [existsb].
      now rewrite Htext, db_unique_found. }
  pose proof catalogue_spec as H. rewrite Forall_forall in H.
  specialize (H (MkScored "idempotency" check_idempotency idempotency_pats
                   (fun s => s "hash_merchant_and_body" || s "db_unique"))).
  cbn [run] in H.
  exists (ev root idempotency_pats "hash_merchant_and_body"),
         (ev root idempotency_pats "db_unique").
  split; [|split; [reflexivity | exact Hhit]].
  rewrite H by (unfold catalogue; simpl; tauto).
  unfold outcome; cbn [rule groups]. unfold sat.
  assert (Ht : truthy (ev root idempotency_pats "db_unique") = true)
    by (apply truthy_In; eauto).
  rewrite Ht, orb_true_r. reflexivity.
Qed.

Lemma unique_constraint_passes_idempotency_witness :
  (exists hashed constrained,
      check_idempotency (tree [CONSTRAINT_ONLY])
      = Ok (MkCheck true [ ("hash_merchant_and_body", hashed);
                           ("db_unique", constrained) ])
      /\ hashed = ev (tree [CONSTRAINT_ONLY]) idempotency_pats
                     "hash_merchant_and_body"
      /\ In (str (tree [CONSTRAINT_ONLY]) CONSTRAINT_ONLY) constrained)
  /\ ev (tree [CONSTRAINT_ONLY]) idempotency_pats "hash_merchant_and_body" = [].
Proof.
  split.
  - apply (unique_constraint_passes_idempotency
             (tree [CONSTRAINT_ONLY]) CONSTRAINT_ONLY
             "CREATE TABLE events (id int, " ");").
    + simpl; auto.
    + reflexivity.
    + reflexivity.
  - vm_compute. reflexivity.
Defined.

(* ----------------------------------------------------------------- *)
(** *** Ports in code *)

Definition SERVER_TEXT : string :=
  "const port = process.env.PORT || 8080; app.listen(3000)".

(** C8.  A [.ts] or [.js] file with the text
    [const port = process.env.PORT || 8080; app.listen(3000)] puts
    8080, captured by the environment-default pattern, and 3000,
    captured by the listen-call pattern, among the [code] ports of the
    ports summary. *)
Theorem code_ports_of_server_file root p :
  In p (walk root) ->
  existsb (fun pat => glob_match pat p) ["*.ts"; "*.js"] = true ->
  read_text_safe p = SERVER_TEXT ->
  exists code,
    get (summarize_ports root) "code" = Some code
    /\ In "8080" code
    /\ In "3000" code
    /\ Re.finditer_group1 "process\.env\.PORT\s*\|\|\s*([0-9]+)"
                          (read_text_safe p) Re.NOFLAG = ["8080"]
    /\ Re.finditer_group1 "\.listen\(\s*([0-9]{2,5})"
                          (read_text_safe p) Re.NOFLAG = ["3000"].
Proof.
  intros Hin Hglob Htext.
  assert (Hp : In p (glob_files root ["*.ts"; "*.js"]))
    by (apply in_glob_files; auto).
  assert (He : Re.finditer_group1 ENV_DEFAULT (read_text_safe p) Re.NOFLAG
               = ["8080"]) by (rewrite Htext; vm_compute; reflexivity).
  assert (Hs : Re.finditer_group1 LISTEN_CALL (read_text_safe p) Re.NOFLAG
               = ["3000"]) by (rewrite Htext; vm_compute; reflexivity).
  exists (code_ports root).
  split; [apply summarize_ports_code|].
  split; [|split; [|split; [exact He | exact Hs]]].
  - apply (code_ports_In root p); [exact Hp|]. left. rewrite He. now left.
  - apply (code_ports_In root p); [exact Hp|]. right. rewrite Hs. now left.
Qed.

Lemma code_ports_of_server_file_witness :
  (exists code,
      get (summarize_ports (tree [file ["src"; "server.ts"] SERVER_TEXT])) "code"
      = Some code
      /\ In "8080" code
      /\ In "3000" code
      /\ Re.finditer_group1 "process\.env\.PORT\s*\|\|\s*([0-9]+)"
           (read_text_safe (file ["src"; "server.ts"] SERVER_TEXT)) Re.NOFLAG
         = ["8080"]
      /\ Re.finditer_group1 "\.listen\(\s*([0-9]{2,5})"
           (read_text_safe (file ["src"; "server.ts"] SERVER_TEXT)) Re.NOFLAG
         = ["3000"])
  /\ get (summarize_ports (tree [file ["src"; "server.ts"] SERVER_TEXT])) "code"
     = Some ["3000"; "8080"].
Proof.
  split.
  - apply (code_ports_of_server_file
             (tree [file ["src"; "server.ts"] SERVER_TEXT])
             (file ["src"; "server.ts"] SERVER_TEXT)).
    + simpl; auto.
    + reflexivity.
    + reflexivity.
  - vm_compute. reflexivity.
Defined.

(* ----------------------------------------------------------------- *)
(** *** Which files are searched *)

Lemma name_rev p : name p = hd EmptyString (rev (rel p)).
Proof.
  unfold name. destruct (rel p) as [|c l] using rev_ind; [reflexivity|].
  now rewrite last_last, rev_app_distr.
Qed.

Lemma glob_match_name pat p :
  split "/" pat = [pat] ->
  glob_match pat p = true -> fnmatch pat (name p) = true.
Proof.
  intros Hs. unfold glob_match. rewrite Hs, name_rev. simpl.
  destruct (rev (rel p)); simpl; [discriminate|].
  now rewrite andb_true_r.
Qed.

Lemma searched_name root p :
  In p (searched root) ->
  existsb (fun pat => fnmatch pat (name p)) SEARCHED = true.
Proof.
  unfold searched. rewrite in_glob_files. intros [_ H].
  rewrite existsb_exists in *. destruct H as (pat & Hpat & Hm).
  exists pat. split; [exact Hpat|].
  apply glob_match_name; [|exact Hm].
  unfold SEARCHED in Hpat; simpl in Hpat.
  intuition (subst; reflexivity).
Qed.

Definition DOCKERFILE_TEXT : string :=
  (line "FROM node:18 AS build" ++ line "RUN npm ci && npm run build"
   ++ line "FROM node:18" ++ line "EXPOSE 3000")%string.

(** C1.  [search_patterns] reads only the files matched by its five
    extension patterns: no file named [Dockerfile] and no dotenv file is
    ever searched.  A tree whose multi-stage evidence is in its
    [Dockerfile] gets no hit and fails the container check, although the
    same text under a searched name passes it and although the ports
    summary does read the [Dockerfile]; a [.env] file that sets
    [REDIS_URL] is no evidence for the Redis check. *)
Theorem special_files_not_searched :
  check_docker_multistage (tree [file ["Dockerfile"] DOCKERFILE_TEXT])
  = Ok (MkCheck false [("has_build_stage", []); ("runtime_stage", [])])
  /\ check_docker_multistage (tree [file ["deploy.yml"] DOCKERFILE_TEXT])
     = Ok (MkCheck true [ ("has_build_stage", ["/srv/app/deploy.yml"]);
                          ("runtime_stage", ["/srv/app/deploy.yml"]) ])
  /\ get (summarize_ports (tree [file ["Dockerfile"] DOCKERFILE_TEXT]))
         "dockerfile" = Some ["3000"]
  /\ check_redis_required (tree [file [".env"] "REDIS_URL=redis://cache:6379"])
     = Ok (MkCheck false [ ("env_required", []); ("fail_on_end", []);
                           ("rediss_tls", []) ])
  /\ (forall root p,
         In p (searched root) -> ~ In (name p) ("Dockerfile" :: ENV_LIKE)).
Proof.
  split; [vm_compute; reflexivity|].
  split; [vm_compute; reflexivity|].
  split; [vm_compute; reflexivity|].
  split; [vm_compute; reflexivity|].
  intros root p Hin Hname. apply searched_name in Hin.
  unfold ENV_LIKE in Hname; simpl in Hname.
  repeat (destruct Hname as [Hname|Hname];
          [rewrite <- Hname in Hin; vm_compute in Hin; discriminate|]).
  exact Hname.
Qed.

(* ----------------------------------------------------------------- *)
(** *** Flags *)

Fixpoint has_bol (r : Re.regex) : bool :=
  match r with
  | Re.Bol => true
  | Re.Cat r1 r2 | Re.Alt r1 r2 => has_bol r1 || has_bol r2
  | Re.Rep _ _ _ r1 | Re.Grp _ r1 => has_bol r1
  | _ => false
  end.

(** The pattern compiles and has no [^] in it. *)
Definition unanchored (pat : string) : bool :=
  match Re.compile pat with
  | Some r => negb (has_bol r)
  | None => false
  end.

Fixpoint no_newline (t : string) : bool :=
  match t with
  | EmptyString => true
  | String a t' => negb (Ascii.eqb a Re.nl) && no_newline t'
  end.

Definition ENV_PORT : string := "^\s*PORT\s*=\s*([0-9]+)".

Definition ENV_NAMES : list string :=
  [".env"; ".env.production"; ".env.example"; ".env.sample"].

(** The loop of [summarize_ports] over the env files. *)
Definition env_step (acc : list string) (p : entry) : list string :=
  set_add_all
    (Re.finditer_group1 ENV_PORT (read_text_safe p) Re.MULTILINE) acc.

Definition env_ports (root : Path) : list string :=
  sorted (fold_left env_step (find_any root ENV_NAMES) []).

Lemma summarize_ports_env root :
  get (summarize_ports root) "env" = Some (env_ports root).
Proof. reflexivity. Qed.

Lemma bol_needs_line_start flags r st :
  Re.at_bol flags st = false ->
  Re.match_here flags (Re.Cat Re.Bol r) st = None.
Proof.
  intros H. unfold Re.match_here. cbn [Re.exec]. now rewrite H.
Qed.

(** Past the first character of a line without line break, an anchored
    pattern finds nothing. *)
Lemma not_line_start a t st_rest n cs :
  no_newline (String a t) = true ->
  Re.at_bol Re.MULTILINE (Re.MState st_rest (Some a) n cs) = false.
Proof.
  simpl. intros H. apply andb_true_iff in H. destruct H as [Ha _].
  apply negb_true_iff in Ha. unfold Re.at_bol; cbn [Re.prev]. now rewrite Ha.
Qed.

Lemma scan_mid_line r t a cs :
  no_newline (String a t) = true ->
  Re.scan Re.MULTILINE (Re.Cat Re.Bol r) t (Some a) cs = None.
Proof.
  revert a; induction t as [|b t IH]; intros a Hnl;
    rewrite scan_unfold, (bol_needs_line_start _ _ _ (not_line_start _ _ _ _ _ Hnl)).
  - reflexivity.
  - apply IH. simpl in Hnl. apply andb_true_iff in Hnl. tauto.
Qed.

Lemma exec_Cat flags r1 r2 k st :
  Re.exec flags (Re.Cat r1 r2) k st = Re.exec flags r1 (Re.exec flags r2 k) st.
Proof. reflexivity. Qed.

Lemma exec_Bol flags k st :
  Re.exec flags Re.Bol k st = if Re.at_bol flags st then k st else None.
Proof. reflexivity. Qed.

(** A greedy star over a set reads nothing when the next character is
    outside the set. *)
Lemma exec_star_skip flags neg items k a t p n cs :
  Re.cls_match flags neg items a = false ->
  Re.exec flags (Re.Rep true 0 None (Re.Cls neg items)) k
          (Re.MState (String a t) p n cs)
  = k (Re.MState (String a t) p n cs).
Proof.
  intros H.
  cbn [Re.exec Re.rep_required Re.rep_optional Re.rest String.length
       Re.exhausted Re.read Re.caps Re.nread].
  now rewrite H.
Qed.

Lemma exec_Chr_mismatch flags c k a t p n cs :
  Re.chr_match flags c a = false ->
  Re.exec flags (Re.Chr c) k (Re.MState (String a t) p n cs) = None.
Proof.
  intros H. cbn [Re.exec Re.read Re.rest]. now rewrite H.
Qed.

Definition ENV_PORT_BODY : Re.regex :=
  Eval vm_compute in
    match Re.compile ENV_PORT with
    | Some (Re.Cat Re.Bol r) => r
    | _ => Re.Eps
    end.

Lemma env_port_compiled :
  Re.compile ENV_PORT = Some (Re.Cat Re.Bol ENV_PORT_BODY).
Proof. vm_compute. reflexivity. Qed.

(** On a text of one line that begins with neither white space nor an
    upper-case P, the anchored pattern finds no port: an assignment
    further along the line is not seen, nor is one in lower case. *)
Lemma env_port_single_line a t :
  no_newline (String a t) = true ->
  Re.is_space a = false ->
  a <> "P"%char ->
  Re.finditer_group1 ENV_PORT (String a t) Re.MULTILINE = [].
Proof.
  intros Hnl Hsp HP.
  unfold Re.finditer_group1, Re.finditer. rewrite env_port_compiled.
  unfold Re.finditer_re. cbn [Re.finditer_from].
  rewrite scan_unfold.
  assert (Hfirst : Re.match_here Re.MULTILINE (Re.Cat Re.Bol ENV_PORT_BODY)
                     (Re.MState (String a t) None 0 []) = None).
  { unfold Re.match_here, ENV_PORT_BODY.
    rewrite exec_Cat, exec_Bol. cbn [Re.at_bol Re.prev].
    rewrite exec_Cat, exec_star_skip.
    - rewrite exec_Cat. apply exec_Chr_mismatch.
      unfold Re.chr_match. apply orb_false_iff. split; [|reflexivity].
      apply Ascii.eqb_neq. congruence.
    - unfold Re.cls_match. cbn [existsb Re.citem_mem]. now rewrite Hsp. }
  rewrite Hfirst, (scan_mid_line _ _ _ _ Hnl). reflexivity.
Qed.

(** *** The case of letters under [re.I] *)

Lemma swapcase_involutive a : Re.swapcase (Re.swapcase a) = a.
Proof. destruct a as [[] [] [] [] [] [] [] []]; reflexivity. Qed.

Lemma swapcase_nl a : Ascii.eqb (Re.swapcase a) Re.nl = Ascii.eqb a Re.nl.
Proof. destruct a as [[] [] [] [] [] [] [] []]; reflexivity. Qed.

Section IgnoreCase.
Variable flags : Z.
Hypothesis ignorecase : Re.has_flag flags Re.IGNORECASE = true.

Lemma chr_match_recase c a :
  Re.chr_match flags c (Re.swapcase a) = Re.chr_match flags c a.
Proof.
  unfold Re.chr_match. rewrite ignorecase, swapcase_involutive. simpl.
  apply orb_comm.
Qed.

Lemma cls_match_recase neg items a :
  Re.cls_match flags neg items (Re.swapcase a) = Re.cls_match flags neg items a.
Proof.
  unfold Re.cls_match. rewrite ignorecase, swapcase_involutive. simpl.
  now rewrite orb_comm.
Qed.

Lemma any_match_recase a :
  Re.any_match flags (Re.swapcase a) = Re.any_match flags a.
Proof. unfold Re.any_match. now rewrite swapcase_nl. Qed.
End IgnoreCase.

(** Every pattern of the script is in the fragment [Re.compile] reads. *)
Definition compiles (pat : string) : bool :=
  match Re.compile pat with
  | Some _ => true
  | None => false
  end.

Definition SCRIPT_PATTERNS : list string :=
  flat_map (fun c => flat_map snd (groups c)) catalogue
  ++ REQ_ENVS ++ placeholder_patterns
  ++ [ ENV_PORT; "EXPOSE\s+([0-9]+)"; "ports:\s*\[([^\]]+)\]";
       "healthcheck:[\s\S]*?curl[^\n]*?http[s]?://[^\n]+?:(\d+)/health";
       ENV_DEFAULT; LISTEN_CALL ].

Lemma script_patterns_compile : forallb compiles SCRIPT_PATTERNS = true.
Proof. vm_compute. reflexivity. Qed.

Definition env_file (t : string) : Path := tree [file [".env"] t].

Lemma env_ports_of_file t :
  env_ports (env_file t)
  = sorted (set_add_all (Re.finditer_group1 ENV_PORT t Re.MULTILINE) []).
Proof. reflexivity. Qed.

End Props.

(* ================================================================= *)
(** ** Laws of the report *)

Module Laws.
Import Fs Audit Props.
Local Open Scope list_scope.

(** *** The five lists of the ports summary *)

Definition EXPOSE : string := "EXPOSE\s+([0-9]+)".
Definition HEALTH : string :=
  "healthcheck:[\s\S]*?curl[^\n]*?http[s]?://[^\n]+?:(\d+)/health".

(** What one file adds to each list. *)
Definition env_found (p : entry) : list string :=
  Re.finditer_group1 ENV_PORT (read_text_safe p) Re.MULTILINE.

Definition dockerfile_found (p : entry) : list string :=
  Re.finditer_group1 EXPOSE (read_text_safe p) Re.NOFLAG.

Definition compose_found (p : entry) : list string :=
  map snd (compose_pairs (read_text_safe p)).

Definition health_found (p : entry) : list string :=
  Re.finditer_group1 HEALTH (read_text_safe p) Re.IGNORECASE.

Definition code_found (p : entry) : list string :=
  Re.finditer_group1 ENV_DEFAULT (read_text_safe p) Re.NOFLAG
  ++ Re.finditer_group1 LISTEN_CALL (read_text_safe p) Re.NOFLAG.

(** A set filled file by file, then sorted. *)
Definition gather (found : entry -> list string) (files : list entry)
  : list string :=
  sorted (fold_left (fun acc p => set_add_all (found p) acc) files []).

(** The files each list is read from and what is read from them. *)
Definition port_source (root : Path) (k : string)
  : option (list entry * (entry -> list string)) :=
  if String.eqb k "env" then Some (find_any root ENV_NAMES, env_found)
  else if String.eqb k "dockerfile"
  then Some (rglob root "Dockerfile", dockerfile_found)
  else if String.eqb k "compose" then Some (compose_files root, compose_found)
  else if String.eqb k "health_targets"
  then Some (compose_files root, health_found)
  else if String.eqb k "code"
  then Some (glob_files root ["*.ts"; "*.js"], code_found)
  else None.

Lemma fold_pair {A : Type} (f g : list string -> A -> list string) l c h :
  fold_left (fun '(x, y) a => (f x a, g y a)) l (c, h)
  = (fold_left f l c, fold_left g l h).
Proof.
  revert c h; induction l as [|a l IH]; intros c h; simpl; [reflexivity|].
  apply IH.
Qed.

Lemma fold_left_same {A B : Type} (f g : A -> B -> A) l a :
  (forall x y, f x y = g x y) -> fold_left f l a = fold_left g l a.
Proof.
  intros H; revert a; induction l as [|b l IH]; intros a; simpl; [reflexivity|].
  now rewrite H, IH.
Qed.

Lemma set_add_all_app xs ys s :
  set_add_all ys (set_add_all xs s) = set_add_all (xs ++ ys) s.
Proof. unfold set_add_all. now rewrite fold_left_app. Qed.

Lemma code_ports_gather root :
  code_ports root = gather code_found (glob_files root ["*.ts"; "*.js"]).
Proof.
  unfold code_ports, gather. f_equal. apply fold_left_same. intros acc p.
  unfold code_step, code_found. cbn zeta. now rewrite set_add_all_app.
Qed.

Lemma summarize_ports_lists root :
  summarize_ports root
  = [ ("env", gather env_found (find_any root ENV_NAMES));
      ("dockerfile", gather dockerfile_found (rglob root "Dockerfile"));
      ("compose", gather compose_found (compose_files root));
      ("health_targets", gather health_found (compose_files root));
      ("code", gather code_found (glob_files root ["*.ts"; "*.js"])) ].
Proof.
  rewrite <- code_ports_gather.
  unfold summarize_ports, gather, code_ports.
  rewrite (fold_pair
             (fun compose p => set_add_all (compose_found p) compose)
             (fun health p => set_add_all (health_found p) health)).
  reflexivity.
Qed.

Lemma ports_lookup root k :
  get (summarize_ports root) k
  = option_map (fun s => gather (snd s) (fst s)) (port_source root k).
Proof.
  rewrite summarize_ports_lists. unfold port_source. cbn [get].
  rewrite !(String.eqb_sym _ k).
  repeat (destruct (String.eqb k _); [reflexivity|]). reflexivity.
Qed.

(** Sets. *)
Lemma set_add_NoDup x s : NoDup s -> NoDup (set_add x s).
Proof.
  induction s as [|y s IH]; simpl; intros Hs.
  - repeat constructor. intros [].
  - destruct (String.eqb_spec x y) as [->|Hne]; [exact Hs|].
    inversion Hs as [|? ? Hy Hs']; subst. constructor.
    + rewrite set_add_In. intros [Heq|Hin]; [congruence | contradiction].
    + now apply IH.
Qed.

Lemma set_add_all_NoDup xs s : NoDup s -> NoDup (set_add_all xs s).
Proof.
  unfold set_add_all. revert s.
  induction xs as [|x xs IH]; intros s Hs; simpl; [exact Hs|].
  apply IH. now apply set_add_NoDup.
Qed.

Section Filling.
Variable found : entry -> list string.

Lemma fill_NoDup files acc :
  NoDup acc ->
  NoDup (fold_left (fun acc p => set_add_all (found p) acc) files acc).
Proof.
  revert acc; induction files as [|p files IH]; intros acc Hacc; simpl.
  - exact Hacc.
  - apply IH. now apply set_add_all_NoDup.
Qed.

Lemma fill_In files acc x :
  In x (fold_left (fun acc p => set_add_all (found p) acc) files acc)
  <-> In x acc \/ exists p, In p files /\ In x (found p).
Proof.
  revert acc; induction files as [|p files IH]; intros acc; simpl.
  - split; [auto | intros [H|(p & [] & _)]; exact H].
  - rewrite IH, set_add_all_In. split.
    + intros [[H|H]|(p' & Hp' & Hx)]; eauto 6.
    + intros [H|(p' & [->|Hp'] & Hx)]; eauto 6.
Qed.

Lemma gather_In files x :
  In x (gather found files) <-> exists p, In p files /\ In x (found p).
Proof.
  unfold gather. rewrite sorted_In, fill_In. simpl. tauto.
Qed.
End Filling.

(** Order of strings. *)
Definition before (a b : string) : Prop := String.ltb a b = true.

Lemma before_lts a b : before a b <-> OrderedTypeEx.String_as_OT.lt a b.
Proof.
  unfold before, String.ltb.
  rewrite <- OrderedTypeEx.String_as_OT.cmp_lt.
  unfold OrderedTypeEx.String_as_OT.cmp.
  destruct (String.compare a b); split; congruence.
Qed.

Lemma before_trans a b c : before a b -> before b c -> before a c.
Proof.
  rewrite !before_lts. apply OrderedTypeEx.String_as_OT.lt_trans.
Qed.

Lemma leb_cases a b : String.leb a b = true -> a = b \/ before a b.
Proof.
  unfold String.leb, before, String.ltb.
  destruct (String.compare a b) eqn:Hc; intros H.
  - left. now apply String.compare_eq_iff.
  - now right.
  - discriminate.
Qed.

Lemma not_leb_before a b : String.leb a b = false -> before b a.
Proof.
  unfold String.leb, before, String.ltb. rewrite (String.compare_antisym b a).
  destruct (String.compare a b); simpl; congruence.
Qed.

Lemma insert_sorted_increasing x l :
  ~ In x l ->
  StronglySorted before l -> StronglySorted before (insert_sorted x l).
Proof.
  induction l as [|y l IH]; simpl; intros Hx Hl.
  - repeat constructor.
  - inversion Hl as [|? ? Hl' Hy]; subst.
    destruct (String.leb x y) eqn:Hxy.
    + assert (Hb : before x y).
      { destruct (leb_cases _ _ Hxy) as [->|Hb]; [|exact Hb].
        exfalso; apply Hx; now left. }
      constructor; [exact Hl|]. constructor; [exact Hb|].
      rewrite Forall_forall in *. intros z Hz.
      eapply before_trans; [exact Hb | now apply Hy].
    + constructor; [apply IH; [tauto | exact Hl']|].
      rewrite Forall_forall in *. intros z Hz.
      apply insert_sorted_In in Hz. destruct Hz as [->|Hz].
      * now apply not_leb_before.
      * now apply Hy.
Qed.

Lemma sorted_increasing s : NoDup s -> StronglySorted before (sorted s).
Proof.
  unfold sorted. induction s as [|x s IH]; simpl; intros Hs.
  - constructor.
  - inversion Hs; subst. apply insert_sorted_increasing; [|auto].
    fold (sorted s). now rewrite sorted_In.
Qed.

Lemma gather_increasing found files :
  StronglySorted before (gather found files).
Proof. apply sorted_increasing, fill_NoDup. constructor. Qed.

Definition PORT_KEYS : list string :=
  ["env"; "dockerfile"; "compose"; "health_targets"; "code"].

Definition SEVERAL_PORTS : Path :=
  tree [ file ["a.ts"] "app.listen(80); app.listen(3000); app.listen(10000)";
         file ["b.js"] "server.listen(3000)" ].

(** X1.  Every list of the ports summary is strictly increasing in the
    order of strings: sorted, and free of duplicates although the same
    port may be found many times.  The order is that of the characters,
    not of the numbers: 10000 comes before 3000 and 3000 before 80. *)
Theorem ports_lists_strictly_increasing :
  (forall root,
      keys (summarize_ports root) = PORT_KEYS
      /\ Forall (fun kv => StronglySorted (fun a b => String.ltb a b = true)
                                          (snd kv))
                (summarize_ports root))
  /\ get (summarize_ports SEVERAL_PORTS) "code" = Some ["10000"; "3000"; "80"].
Proof.
  split; [|vm_compute; reflexivity].
  intros root. rewrite summarize_ports_lists. split; [reflexivity|].
  repeat (constructor; [apply gather_increasing|]). constructor.
Qed.

Section Inserted.
Variables (root root' : Path).
Hypothesis more_files : incl (walk root) (walk root').

Lemma rglob_grows pat : incl (rglob root pat) (rglob root' pat).
Proof.
  unfold rglob. intros p. rewrite !filter_In. intros [Hin Hm].
  split; [now apply more_files | exact Hm].
Qed.

Lemma glob_files_grows pats : incl (glob_files root pats) (glob_files root' pats).
Proof.
  intros p. rewrite !in_glob_files. intros [Hin Hm].
  split; [now apply more_files | exact Hm].
Qed.

Lemma find_any_grows names : incl (find_any root names) (find_any root' names).
Proof.
  unfold find_any. intros p. rewrite !filter_In. intros [Hin Hm].
  split; [now apply rglob_grows | exact Hm].
Qed.

Lemma compose_files_grows : incl (compose_files root) (compose_files root').
Proof.
  unfold compose_files. intros p. rewrite !in_app_iff.
  intros [H|H]; [left | right]; now apply rglob_grows.
Qed.

Lemma port_source_grows k files found :
  port_source root k = Some (files, found) ->
  exists files', port_source root' k = Some (files', found) /\ incl files files'.
Proof.
  unfold port_source.
  repeat (destruct (String.eqb k _);
          [intros [= <- <-]; eexists; split; [reflexivity|];
           auto using find_any_grows, rglob_grows, compose_files_grows,
                      glob_files_grows|]).
  discriminate.
Qed.
End Inserted.

Definition COMPOSE_2 : entry :=
  file ["docker-compose.yml"] "ports: ['8080:3000']".

(** X2.  Adding a file to the tree, anywhere in the walk, never removes
    a port from any list of the ports summary; it can add one. *)
Theorem ports_summary_monotone :
  (forall (root_s : string) (front back : list entry) (f : entry),
      Forall (fun k =>
                exists l l',
                  get (summarize_ports (MkPath root_s (front ++ back))) k = Some l
                  /\ get (summarize_ports (MkPath root_s (front ++ f :: back))) k
                     = Some l'
                  /\ incl l l')
             PORT_KEYS)
  /\ get (summarize_ports (tree [])) "compose" = Some []
  /\ get (summarize_ports (tree [COMPOSE_2])) "compose" = Some ["3000"].
Proof.
  split; [|split; vm_compute; reflexivity].
  intros root_s front back f.
  set (root := MkPath root_s (front ++ back)).
  set (root' := MkPath root_s (front ++ f :: back)).
  assert (Hmore : incl (walk root) (walk root')).
  { intros p; simpl; rewrite !in_app_iff; simpl; tauto. }
  rewrite Forall_forall. intros k Hk. rewrite !ports_lookup.
  destruct (port_source root k) as [[files found]|] eqn:Hsrc.
  - destruct (port_source_grows root root' Hmore k files found Hsrc)
      as (files' & -> & Hincl).
    eexists _, _. split; [reflexivity|]. split; [reflexivity|].
    cbn [fst snd]. intros x. rewrite !gather_In.
    intros (p & Hp & Hx). exists p. auto.
  - exfalso. unfold port_source, PORT_KEYS in *. simpl in Hk.
    repeat (destruct Hk as [<-|Hk]; [discriminate|]). exact Hk.
Qed.

(** *** Ports are numerals *)

Fixpoint has_grp (r : Re.regex) : bool :=
  match r with
  | Re.Grp _ _ => true
  | Re.Cat r1 r2 | Re.Alt r1 r2 => has_grp r1 || has_grp r2
  | Re.Rep _ _ _ r1 => has_grp r1
  | _ => false
  end.

Fixpoint all_chars (f : ascii -> bool) (s : string) : bool :=
  match s with
  | EmptyString => true
  | String a s' => f a && all_chars f s'
  end.

(** A non-empty run of decimal digits. *)
Definition numeral (s : string) : bool :=
  match s with
  | EmptyString => false
  | String _ _ => all_chars Re.is_digit s
  end.

(** An item of a set that holds the digits [0] to [9] only; the escape
    [\d] is not one, it stands for every decimal digit there is. *)
Definition digit_item (it : Re.citem) : bool :=
  match it with
  | Re.CChr c => Re.is_digit c
  | Re.CRange lo hi => Re.is_digit lo && Re.is_digit hi
  | _ => false
  end.

(** One or more characters of a set of digits. *)
Definition digit_rep (r : Re.regex) : bool :=
  match r with
  | Re.Rep _ lo _ (Re.Cls false items) =>
      Nat.leb 1 lo && forallb digit_item items
  | _ => false
  end.

(** Group 1 is a run of digits and closes last: it ends the pattern, or
    what follows it has no group. *)
Fixpoint digit_capture (r : Re.regex) : bool :=
  match r with
  | Re.Grp 1 r1 => digit_rep r1
  | Re.Cat (Re.Grp 1 r1) r2 => digit_rep r1 && negb (has_grp r2)
  | Re.Cat _ r2 => digit_capture r2
  | _ => false
  end.

Definition captures_numeral (pat : string) : bool :=
  match Re.compile pat with
  | Some r => digit_capture r
  | None => false
  end.

Lemma is_digit_swapcase a : Re.is_digit (Re.swapcase a) = Re.is_digit a.
Proof. destruct a as [[] [] [] [] [] [] [] []]; reflexivity. Qed.

Lemma digit_item_mem it a :
  digit_item it = true -> Re.citem_mem it a = true -> Re.is_digit a = true.
Proof.
  destruct it as [c|lo hi| | |]; simpl; try discriminate.
  - intros Hc Ha. apply Ascii.eqb_eq in Ha. now subst.
  - unfold Re.is_digit, Re.between. intros H1 H2.
    rewrite !andb_true_iff, !N.leb_le in *. lia.
Qed.

Lemma digit_items_mem items a :
  forallb digit_item items = true ->
  existsb (fun it => Re.citem_mem it a) items = true -> Re.is_digit a = true.
Proof.
  rewrite forallb_forall, existsb_exists. intros Hall (it & Hin & Hm).
  eapply digit_item_mem; eauto.
Qed.

Lemma digit_cls_match flags items a :
  forallb digit_item items = true ->
  Re.cls_match flags false items a = true -> Re.is_digit a = true.
Proof.
  intros Hall. unfold Re.cls_match. rewrite orb_true_iff, andb_true_iff.
  intros [H|[_ H]].
  - eapply digit_items_mem; eauto.
  - rewrite <- is_digit_swapcase. eapply digit_items_mem; eauto.
Qed.

Lemma orelse_Some {A : Type} (a b : option A) x :
  Re.orelse a b = Some x -> a = Some x \/ b = Some x.
Proof. destruct a; simpl; auto. Qed.

(** Where a successful run leaves the continuation. *)
Section Reaches.
Variable body : (Re.mstate -> option Re.mstate) -> Re.mstate -> option Re.mstate.
Variable keeps : Prop.
Hypothesis body_reaches :
  forall k st x, body k st = Some x ->
                 exists st', k st' = Some x /\ (keeps -> Re.caps st' = Re.caps st).
Variables (greedy : bool) (k : Re.mstate -> option Re.mstate).

Lemma rep_optional_reaches fuel left st x :
  Re.rep_optional body greedy k fuel left st = Some x ->
  exists st', k st' = Some x /\ (keeps -> Re.caps st' = Re.caps st).
Proof.
  revert left st; induction fuel as [|fuel IH]; intros left st; simpl.
  - eauto.
  - destruct (Re.exhausted left); [eauto|].
    intros H.
    assert (Hcases :
      body (fun st1 => if Re.progressed st st1
                       then Re.rep_optional body greedy k fuel
                                            (Re.dec_bound left) st1
                       else None) st = Some x \/ k st = Some x).
    { destruct greedy; apply orelse_Some in H; tauto. }
    destruct Hcases as [Hb|Hk]; [|eauto].
    apply body_reaches in Hb. destruct Hb as (st1 & Hst1 & Hc1).
    destruct (Re.progressed st st1); [|discriminate].
    apply IH in Hst1. destruct Hst1 as (st' & Hk & Hc).
    exists st'. split; [exact Hk|]. intros Hkeep.
    now rewrite (Hc Hkeep), (Hc1 Hkeep).
Qed.

Lemma rep_required_reaches optional n st x :
  Re.rep_required body greedy k optional n st = Some x ->
  exists st', k st' = Some x /\ (keeps -> Re.caps st' = Re.caps st).
Proof.
  revert st x; induction n as [|n IH]; intros st x; simpl.
  - apply rep_optional_reaches.
  - intros H. apply body_reaches in H. destruct H as (st1 & Hst1 & Hc1).
    apply IH in Hst1. destruct Hst1 as (st' & Hk & Hc).
    exists st'. split; [exact Hk|]. intros Hkeep.
    now rewrite (Hc Hkeep), (Hc1 Hkeep).
Qed.
End Reaches.

Lemma read_caps st a st' : Re.read st = Some (a, st') -> Re.caps st' = Re.caps st.
Proof.
  unfold Re.read. destruct (Re.rest st); [discriminate|].
  now intros [= _ <-].
Qed.

Lemma exec_reaches flags r :
  forall k st x,
    Re.exec flags r k st = Some x ->
    exists st', k st' = Some x /\ (has_grp r = false -> Re.caps st' = Re.caps st).
Proof.
  induction r as [|c| |neg items| |r1 IH1 r2 IH2|r1 IH1 r2 IH2
                 |greedy lo hi r1 IH1|n r1 IH1];
    intros k st x; cbn [Re.exec has_grp].
  - eauto.
  - destruct (Re.read st) as [[a st1]|] eqn:Hr; [|discriminate].
    destruct (Re.chr_match flags c a); [|discriminate].
    intros H. exists st1. split; [exact H|]. intros _. eapply read_caps; eauto.
  - destruct (Re.read st) as [[a st1]|] eqn:Hr; [|discriminate].
    destruct (Re.any_match flags a); [|discriminate].
    intros H. exists st1. split; [exact H|]. intros _. eapply read_caps; eauto.
  - destruct (Re.read st) as [[a st1]|] eqn:Hr; [|discriminate].
    destruct (Re.cls_match flags neg items a); [|discriminate].
    intros H. exists st1. split; [exact H|]. intros _. eapply read_caps; eauto.
  - destruct (Re.at_bol flags st); [eauto | discriminate].
  - intros H. apply IH1 in H. destruct H as (st1 & H & Hc1).
    apply IH2 in H. destruct H as (st2 & H & Hc2).
    exists st2. split; [exact H|]. rewrite orb_false_iff. intros [G1 G2].
    now rewrite (Hc2 G2), (Hc1 G1).
  - intros H. apply orelse_Some in H.
    destruct H as [H|H]; [apply IH1 in H | apply IH2 in H];
      destruct H as (st1 & H & Hc); exists st1; (split; [exact H|]);
      rewrite orb_false_iff; tauto.
  - apply (rep_required_reaches (Re.exec flags r1) (has_grp r1 = false)).
    exact IH1.
  - intros H. apply IH1 in H. destruct H as (st1 & H & _).
    exists (Re.close_group n st st1). split; [exact H | discriminate].
Qed.

(** The text a run of digits reads. *)
Section Digits.
Variables (flags : Z) (items : list Re.citem).
Hypothesis digits : forallb digit_item items = true.
Variables (greedy : bool) (k : Re.mstate -> option Re.mstate).

Definition read_digits (lo : nat) (st st' : Re.mstate) : Prop :=
  exists w,
    Re.rest st = (w ++ Re.rest st')%string
    /\ Re.nread st' = Re.nread st + String.length w
    /\ all_chars Re.is_digit w = true
    /\ lo <= String.length w
    /\ Re.caps st' = Re.caps st.

Lemma read_digits_step lo st a st1 st' :
  Re.read st = Some (a, st1) ->
  Re.is_digit a = true ->
  read_digits lo st1 st' -> read_digits (S lo) st st'.
Proof.
  unfold Re.read. destruct st as [[|b t] p n cs]; simpl; [discriminate|].
  intros [= -> <-] Ha (w & Hrest & Hn & Hw & Hlen & Hc). simpl in *.
  exists (String a w). simpl. rewrite Hrest, Hn, Ha, Hw.
  repeat split; auto; lia.
Qed.

Lemma read_digits_weaken lo lo' st st' :
  lo' <= lo -> read_digits lo st st' -> read_digits lo' st st'.
Proof.
  intros Hle (w & H1 & H2 & H3 & H4 & H5). exists w. repeat split; auto; lia.
Qed.

Lemma digits_optional fuel left st x :
  Re.rep_optional (Re.exec flags (Re.Cls false items)) greedy k fuel left st
  = Some x ->
  exists st', k st' = Some x /\ read_digits 0 st st'.
Proof.
  revert left st; induction fuel as [|fuel IH]; intros left st; simpl.
  - intros H. exists st. split; [exact H|]. exists EmptyString. simpl.
    repeat split; auto; lia.
  - assert (Hstay : k st = Some x -> exists st', k st' = Some x /\ read_digits 0 st st').
    { intros H. exists st. split; [exact H|]. exists EmptyString. simpl.
      repeat split; auto; lia. }
    destruct (Re.exhausted left); [exact Hstay|].
    intros H.
    assert (Hcases :
      match Re.read st with
      | Some (a, st1) =>
          if Re.cls_match flags false items a
          then if Re.progressed st st1
               then Re.rep_optional (Re.exec flags (Re.Cls false items)) greedy k
                                    fuel (Re.dec_bound left) st1
               else None
          else None
      | None => None
      end = Some x \/ k st = Some x).
    { destruct greedy; apply orelse_Some in H; tauto. }
    destruct Hcases as [Hb|Hk]; [|auto].
    destruct (Re.read st) as [[a st1]|] eqn:Hr; [|discriminate].
    destruct (Re.cls_match flags false items a) eqn:Hm; [|discriminate].
    destruct (Re.progressed st st1); [|discriminate].
    apply IH in Hb. destruct Hb as (st' & Hk & Hd).
    exists st'. split; [exact Hk|].
    apply (read_digits_weaken 1); [lia|].
    eapply read_digits_step; eauto using digit_cls_match.
Qed.

Lemma digits_required optional n st x :
  Re.rep_required (Re.exec flags (Re.Cls false items)) greedy k optional n st
  = Some x ->
  exists st', k st' = Some x /\ read_digits n st st'.
Proof.
  revert st; induction n as [|n IH]; intros st;
    cbn [Re.rep_required Re.exec].
  - apply digits_optional.
  - destruct (Re.read st) as [[a st1]|] eqn:Hr; [|discriminate].
    destruct (Re.cls_match flags false items a) eqn:Hm; [|discriminate].
    intros H. apply IH in H. destruct H as (st' & Hk & Hd).
    exists st'. split; [exact Hk|].
    eapply read_digits_step; eauto using digit_cls_match.
Qed.
End Digits.

Lemma substring_prefix w s :
  substring 0 (String.length w) (w ++ s)%string = w.
Proof. induction w as [|a w IH]; simpl; [now destruct s | now rewrite IH]. Qed.

Lemma numeral_digits w :
  1 <= String.length w -> all_chars Re.is_digit w = true -> numeral w = true.
Proof. destruct w; simpl; [lia | auto]. Qed.

Lemma digit_group flags r1 k st x :
  digit_rep r1 = true ->
  Re.exec flags (Re.Grp 1 r1) k st = Some x ->
  exists st' w,
    k st' = Some x /\ Re.caps st' = (1, w) :: Re.caps st /\ numeral w = true.
Proof.
  destruct r1 as [| | | | | | |greedy lo hi r1|]; try discriminate.
  destruct r1 as [| | |neg items| | | | |]; try discriminate.
  destruct neg; [discriminate|].
  intros Hd H. cbn [digit_rep] in Hd. apply andb_true_iff in Hd.
  destruct Hd as [Hlo Hitems]. apply Nat.leb_le in Hlo.
  cbn [Re.exec] in H.
  apply (digits_required flags items Hitems) in H.
  destruct H as (st1 & Hk & w & Hrest & Hn & Hw & Hlen & Hc).
  exists (Re.close_group 1 st st1), w. split; [exact Hk|].
  split; [|apply numeral_digits; [lia | exact Hw]].
  unfold Re.close_group, Re.consumed; simpl.
  rewrite Hrest, Hn.
  replace (Re.nread st + String.length w - Re.nread st) with (String.length w)
    by lia.
  now rewrite substring_prefix, Hc.
Qed.

Lemma group_head w cs : Re.group 1 ((1, w) :: cs) = Some w.
Proof. reflexivity. Qed.

Lemma digit_capture_sound flags r :
  digit_capture r = true ->
  forall k st x,
    Re.exec flags r k st = Some x ->
    exists st' w,
      k st' = Some x /\ Re.group 1 (Re.caps st') = Some w /\ numeral w = true.
Proof.
  induction r as [|c| |neg items| |r1 IH1 r2 IH2|r1 IH1 r2 IH2
                 |greedy lo hi r1 IH1|n r1 IH1];
    try discriminate.
  - (* a sequence *)
    intros Hd k st x H. rewrite exec_Cat in H.
    assert (Hlast : digit_capture r2 = true ->
                    exists st' w, k st' = Some x
                                  /\ Re.group 1 (Re.caps st') = Some w
                                  /\ numeral w = true).
    { intros Hd2. apply exec_reaches in H. destruct H as (st1 & H & _).
      eapply IH2; eauto. }
    destruct r1 as [| | | | | | | |n r1]; try (apply Hlast; exact Hd).
    destruct n as [|[|n]]; try (apply Hlast; exact Hd).
    simpl in Hd. apply andb_true_iff in Hd. destruct Hd as [Hrep Hng].
    apply negb_true_iff in Hng.
    apply (digit_group flags r1 _ _ _ Hrep) in H.
    destruct H as (st1 & w & H & Hc & Hw).
    apply exec_reaches in H. destruct H as (st2 & H & Hc2).
    exists st2, w. split; [exact H|]. split; [|exact Hw].
    now rewrite (Hc2 Hng), Hc.
  - (* the group itself *)
    intros Hd k st x H.
    destruct n as [|[|n]]; try discriminate. simpl in Hd.
    apply (digit_group flags r1 _ _ _ Hd) in H.
    destruct H as (st1 & w & H & Hc & Hw).
    exists st1, w. split; [exact H|]. split; [|exact Hw].
    now rewrite Hc.
Qed.

Lemma scan_matches flags r t p cs st0 st1 :
  Re.scan flags r t p cs = Some (st0, st1) ->
  Re.match_here flags r st0 = Some st1.
Proof.
  revert p; induction t as [|a t IH]; intros p; rewrite scan_unfold;
    destruct (Re.match_here flags r (Re.MState _ p 0 cs)) eqn:Hm.
  - now intros [= <- <-].
  - discriminate.
  - now intros [= <- <-].
  - apply IH.
Qed.

Lemma finditer_from_matches fuel flags r t p cs :
  In cs (Re.finditer_from fuel flags r t p) ->
  exists st0 st1, Re.match_here flags r st0 = Some st1 /\ Re.caps st1 = cs.
Proof.
  revert t p; induction fuel as [|fuel IH]; intros t p; simpl; [tauto|].
  destruct (Re.scan flags r t p []) as [[st0 st1]|] eqn:Hs; [|intros []].
  cbn [In]. intros [<-|Hin].
  - apply scan_matches in Hs. eauto.
  - destruct (Re.progressed st0 st1); [eapply IH; eauto|].
    destruct (Re.read st1) as [[a st2]|]; [eapply IH; eauto | destruct Hin].
Qed.

(** What [finditer] hands out for a pattern whose group 1 is a run of
    digits. *)
Lemma finditer_numerals pat t flags x :
  captures_numeral pat = true ->
  In x (Re.finditer_group1 pat t flags) -> numeral x = true.
Proof.
  unfold captures_numeral, Re.finditer_group1, Re.finditer.
  destruct (Re.compile pat) as [r|]; [|discriminate].
  intros Hd Hin. apply in_flat_map in Hin. destruct Hin as (cs & Hcs & Hx).
  apply finditer_from_matches in Hcs. destruct Hcs as (st0 & st1 & Hm & <-).
  apply (digit_capture_sound flags r Hd) in Hm.
  destruct Hm as (st' & w & [= <-] & Hg & Hw).
  rewrite Hg in Hx. destruct Hx as [<-|[]]. exact Hw.
Qed.

Definition MAPPING_WITH_PROTOCOL : entry :=
  file ["docker-compose.yml"] "ports: ['8080:3000/tcp', '127.0.0.1:8443:443']".

(** X3.  Every port listed under [env], [dockerfile] and [code] is a
    non-empty run of the digits [0] to [9], whatever the files hold:
    the group of each of their four patterns is [[0-9]+] or
    [[0-9]{2,5}].  The two other lists are not of this kind: the group
    of [health_targets] is [\d+], which stands for every decimal digit,
    and [compose] takes whatever follows the first colon of a
    mapping. *)
Theorem listed_ports_are_numerals :
  (forall root,
      Forall (fun k =>
                exists l,
                  get (summarize_ports root) k = Some l
                  /\ Forall (fun x => numeral x = true) l)
             ["env"; "dockerfile"; "code"])
  /\ map captures_numeral [ENV_PORT; EXPOSE; ENV_DEFAULT; LISTEN_CALL; HEALTH]
     = [true; true; true; true; false]
  /\ get (summarize_ports (tree [MAPPING_WITH_PROTOCOL])) "compose"
     = Some ["3000/tcp"; "8443:443"].
Proof.
  split; [|split; vm_compute; reflexivity].
  intros root. rewrite summarize_ports_lists.
  assert (Hnum : forall pat t flags x,
             captures_numeral pat = true ->
             In x (Re.finditer_group1 pat t flags) -> numeral x = true)
    by exact finditer_numerals.
  repeat constructor; (eexists; split; [reflexivity|]);
    rewrite Forall_forall; intros x Hx;
    apply gather_In in Hx; destruct Hx as (p & _ & Hx).
  - eapply Hnum; [|exact Hx]. vm_compute; reflexivity.
  - eapply Hnum; [|exact Hx]. vm_compute; reflexivity.
  - unfold code_found in Hx. apply in_app_iff in Hx.
    destruct Hx as [Hx|Hx];
      (eapply Hnum; [|exact Hx]); vm_compute; reflexivity.
Qed.

(** *** The two readings of the compose files *)

Lemma split_once_parts c s h t :
  split_once c s = Some (h, t) ->
  s = (h ++ String c t)%string
  /\ all_chars (fun a => negb (Ascii.eqb a c)) h = true.
Proof.
  revert h; induction s as [|a s IH]; intros h; simpl; [discriminate|].
  destruct (Ascii.eqb a c) eqn:Hac.
  - intros [= <- <-]. apply Ascii.eqb_eq in Hac. subst. now split.
  - destruct (split_once c s) as [[h' t']|]; [|discriminate].
    intros [= <- <-]. destruct (IH h' eq_refl) as [-> Hh].
    simpl. now rewrite Hac, Hh.
Qed.

Lemma compose_pairs_hosts t host cont :
  In (host, cont) (compose_pairs t) ->
  all_chars (fun a => negb (Ascii.eqb a ":")) host = true.
Proof.
  unfold compose_pairs. rewrite in_flat_map. intros (g & _ & Hin).
  rewrite in_flat_map in Hin. destruct Hin as (pair & _ & Hin).
  destruct (split_once ":" _) as [[h c]|] eqn:Hs; [|destruct Hin].
  destruct Hin as [[= <- <-]|[]].
  now apply split_once_parts in Hs.
Qed.

Lemma in_check_compose_ports root path host cont :
  In (path, host, cont) (check_compose_ports root)
  <-> exists p, In p (compose_files root)
                /\ path = str root p
                /\ In (host, cont) (compose_pairs (read_text_safe p)).
Proof.
  unfold check_compose_ports. rewrite in_flat_map. split.
  - intros (p & Hp & Hin). apply in_map_iff in Hin.
    destruct Hin as ([h c] & [= <- <- <-] & Hin). eauto.
  - intros (p & Hp & -> & Hin). exists p. split; [exact Hp|].
    apply in_map_iff. exists (host, cont). auto.
Qed.

Definition BOUND_MAPPING : Path :=
  tree [ file ["deploy"; "docker-compose.prod.yaml"]
              "ports: [ '127.0.0.1:8443:443', 9000 ]" ].

(** X4.  The ports summary and the compose-ports entry read the compose
    files alike: a string is in the [compose] list of the summary
    exactly when the compose-ports entry has a mapping with it as
    container side.  Every mapping comes from a compose file, and its
    host side holds no colon, so a mapping bound to an address such as
    [127.0.0.1:8443:443] is split into host [127.0.0.1] and container
    [8443:443]; an item without a colon is dropped. *)
Theorem compose_readings_agree :
  (forall root,
      exists l,
        get (summarize_ports root) "compose" = Some l
        /\ forall x,
             In x l
             <-> exists path host, In (path, host, x) (check_compose_ports root))
  /\ (forall root,
         Forall (fun m =>
                   (exists p, In p (compose_files root)
                              /\ fst (fst m) = str root p)
                   /\ all_chars (fun a => negb (Ascii.eqb a ":")) (snd (fst m))
                      = true)
                (check_compose_ports root))
  /\ check_compose_ports BOUND_MAPPING
     = [("/srv/app/deploy/docker-compose.prod.yaml", "127.0.0.1", "8443:443")].
Proof.
  split; [|split; [|vm_compute; reflexivity]].
  - intros root. rewrite summarize_ports_lists. eexists.
    split; [reflexivity|]. intros x. rewrite gather_In. split.
    + intros (p & Hp & Hx). unfold compose_found in Hx.
      apply in_map_iff in Hx. destruct Hx as ([h c] & <- & Hin).
      exists (str root p), h. apply in_check_compose_ports. eauto.
    + intros (path & host & Hin). apply in_check_compose_ports in Hin.
      destruct Hin as (p & Hp & _ & Hin). exists p. split; [exact Hp|].
      unfold compose_found. apply in_map_iff. exists (host, x). auto.
  - intros root. rewrite Forall_forall. intros [[path host] cont] Hin.
    apply in_check_compose_ports in Hin. destruct Hin as (p & Hp & -> & Hin).
    split; [eauto|]. simpl. eapply compose_pairs_hosts; eauto.
Qed.

(** *** The contract of [search_patterns] *)

(** Every pattern of every group is one of the script's own.  They
    all compile; a pattern that does not would end the call in
    [re.error]. *)
Definition of_the_script (patterns : dict (list string)) : bool :=
  forallb
    (fun g => forallb (fun rx => existsb (String.eqb rx) SCRIPT_PATTERNS) (snd g))
    patterns.

Definition TWO_GROUPS : dict (list string) :=
  [ ("queue", ["dlq"; "redis\.(lpush|rpush)\("]); ("none", []) ].

Definition QUEUES : Path :=
  tree [ file ["b.js"] "await redis.LPUSH(key, job)";
         file ["notes.md"] "dlq";
         file ["a.ts"] "const DLQ = 1" ].

(** X5.  For any dictionary that groups patterns of the script under
    distinct keys, [search_patterns] raises nothing and returns a
    dictionary with the same keys in the same order; the entry of a
    group lists the paths of the files found by the five extension
    patterns, in that order, in which one of the group's patterns
    matches under [re.I|re.M]. *)
Theorem search_patterns_contract root patterns :
  NoDup (keys patterns) ->
  of_the_script patterns = true ->
  exists hits,
    search_patterns root patterns = Ok hits
    /\ keys hits = keys patterns
    /\ forall k regs,
         get patterns k = Some regs ->
         get hits k
         = Some (map (str root)
                   (filter
                      (fun p =>
                         existsb
                           (fun rx =>
                              Re.search rx (read_text_safe p)
                                (Z.lor Re.IGNORECASE Re.MULTILINE))
                           regs)
                      (glob_files root
                         ["*.ts"; "*.js"; "*.sql"; "*.yml"; "*.yaml"]))).
Proof.
  intros Hnd _. exists (table root (searched root) patterns).
  split; [now apply search_patterns_spec|].
  split; [apply keys_table|].
  intros k regs Hk. now rewrite get_table, Hk.
Qed.

Lemma search_patterns_contract_witness :
  (exists hits,
      search_patterns QUEUES TWO_GROUPS = Ok hits
      /\ keys hits = keys TWO_GROUPS
      /\ forall k regs,
           get TWO_GROUPS k = Some regs ->
           get hits k
           = Some (map (str QUEUES)
                     (filter
                        (fun p =>
                           existsb
                             (fun rx =>
                                Re.search rx (read_text_safe p)
                                  (Z.lor Re.IGNORECASE Re.MULTILINE))
                             regs)
                        (glob_files QUEUES
                           ["*.ts"; "*.js"; "*.sql"; "*.yml"; "*.yaml"]))))
  /\ search_patterns QUEUES TWO_GROUPS
     = Ok [ ("queue", ["/srv/app/a.ts"; "/srv/app/b.js"]); ("none", []) ].
Proof.
  split.
  - apply (search_patterns_contract QUEUES TWO_GROUPS).
    + repeat constructor; simpl; intuition discriminate.
    + vm_compute. reflexivity.
  - vm_compute. reflexivity.
Defined.

(** *** No file is searched twice *)

Fixpoint suffixes (s : string) : list string :=
  s :: match s with
       | EmptyString => []
       | String _ s' => suffixes s'
       end.

Lemma fnmatch_star pat s :
  fnmatch (String "*" pat) s = existsb (fnmatch pat) (suffixes s).
Proof.
  induction s as [|a s IH].
  - simpl. now rewrite orb_false_r.
  - change (fnmatch (String "*" pat) (String a s))
      with (fnmatch pat (String a s) || fnmatch (String "*" pat) s).
    now rewrite IH.
Qed.

(** A pattern without star matches its own text only. *)
Lemma fnmatch_plain lit s :
  all_chars (fun a => negb (Ascii.eqb a "*")) lit = true ->
  fnmatch lit s = true -> s = lit.
Proof.
  revert s; induction lit as [|c lit IH]; intros s; simpl.
  - now destruct s.
  - rewrite andb_true_iff. intros [Hc Hlit].
    destruct c as [[] [] [] [] [] [] [] []]; try discriminate Hc;
      (destruct s as [|a s]; [discriminate|]);
      rewrite andb_true_iff; intros [Ha Hs];
      apply Ascii.eqb_eq in Ha; subst a; f_equal; now apply IH.
Qed.

Lemma suffix_of_suffix s a b :
  In a (suffixes s) -> In b (suffixes s) ->
  In a (suffixes b) \/ In b (suffixes a).
Proof.
  induction s as [|c s IH]; simpl.
  - intros [<-|[]] [<-|[]]. left. now left.
  - intros [<-|Ha] [<-|Hb].
    + left. now left.
    + right. now right.
    + left. now right.
    + now apply IH.
Qed.

Definition EXTENSIONS : list string := [".ts"; ".js"; ".sql"; ".yml"; ".yaml"].

Lemma searched_by_extension : SEARCHED = map (String "*") EXTENSIONS.
Proof. reflexivity. Qed.

Lemma one_extension s e1 e2 :
  In e1 EXTENSIONS -> In e2 EXTENSIONS ->
  fnmatch (String "*" e1) s = true -> fnmatch (String "*" e2) s = true ->
  e1 = e2.
Proof.
  intros H1 H2. rewrite !fnmatch_star, !existsb_exists.
  intros (x1 & Hx1 & Hm1) (x2 & Hx2 & Hm2).
  assert (x1 = e1).
  { apply fnmatch_plain; [|exact Hm1].
    unfold EXTENSIONS in H1; simpl in H1; intuition (subst; reflexivity). }
  assert (x2 = e2).
  { apply fnmatch_plain; [|exact Hm2].
    unfold EXTENSIONS in H2; simpl in H2; intuition (subst; reflexivity). }
  subst x1 x2.
  destruct (suffix_of_suffix s e1 e2 Hx1 Hx2) as [H|H];
    unfold EXTENSIONS in H1, H2; simpl in H1, H2;
    intuition (subst; simpl in H; intuition congruence).
Qed.

Lemma one_pattern pat1 pat2 p :
  In pat1 SEARCHED -> In pat2 SEARCHED ->
  glob_match pat1 p = true -> glob_match pat2 p = true -> pat1 = pat2.
Proof.
  rewrite searched_by_extension, !in_map_iff.
  intros (e1 & <- & H1) (e2 & <- & H2) Hm1 Hm2.
  f_equal. apply (one_extension (name p)); auto.
  - apply glob_match_name; [|exact Hm1].
    unfold EXTENSIONS in H1; simpl in H1; intuition (subst; reflexivity).
  - apply glob_match_name; [|exact Hm2].
    unfold EXTENSIONS in H2; simpl in H2; intuition (subst; reflexivity).
Qed.

Section Distinct.
Context {B : Type} (f : entry -> B).

Lemma map_injective_on l x y :
  NoDup (map f l) -> In x l -> In y l -> f x = f y -> x = y.
Proof.
  induction l as [|a l IH]; simpl; [tauto|].
  intros Hnd Hx Hy Hf. inversion Hnd as [|? ? Hna Hnd']; subst.
  destruct Hx as [->|Hx], Hy as [->|Hy]; auto.
  - exfalso. apply Hna. rewrite Hf. now apply in_map.
  - exfalso. apply Hna. rewrite <- Hf. now apply in_map.
Qed.

Lemma NoDup_map_filter g l : NoDup (map f l) -> NoDup (map f (filter g l)).
Proof.
  induction l as [|a l IH]; simpl; [auto|].
  intros Hnd. inversion Hnd as [|? ? Hna Hnd']; subst.
  destruct (g a); simpl; [|auto]. constructor; [|auto].
  intros Hin. apply Hna. apply in_map_iff in Hin.
  destruct Hin as (x & Hx & Hin). apply filter_In in Hin.
  apply in_map_iff. exists x. tauto.
Qed.

Lemma NoDup_map_globs l pats :
  NoDup pats ->
  (forall pat1 pat2 p, In pat1 pats -> In pat2 pats ->
                       glob_match pat1 p = true -> glob_match pat2 p = true ->
                       pat1 = pat2) ->
  NoDup (map f l) ->
  NoDup (map f (flat_map (fun pat => filter (glob_match pat) l) pats)).
Proof.
  intros Hpats Hone Hnd. induction pats as [|pat pats IH]; simpl.
  - constructor.
  - inversion Hpats as [|? ? Hfresh Hpats']; subst.
    rewrite map_app. apply NoDup_app.
    + now apply NoDup_map_filter.
    + apply IH; [exact Hpats'|].
      intros pat1 pat2 p H1 H2. apply (Hone pat1 pat2 p); simpl; tauto.
    + intros b Hb1 Hb2. apply in_map_iff in Hb1, Hb2.
      destruct Hb1 as (x & <- & Hx), Hb2 as (y & Hxy & Hy).
      apply filter_In in Hx. apply in_flat_map in Hy.
      destruct Hy as (pat' & Hpat' & Hy). apply filter_In in Hy.
      assert (y = x) by (eapply map_injective_on; eauto; tauto). subst y.
      apply Hfresh.
      replace pat with pat'; [exact Hpat'|].
      apply (Hone pat' pat x); simpl; tauto.
Qed.
End Distinct.

Lemma searched_distinct {B : Type} (f : entry -> B) root :
  NoDup (map f (walk root)) -> NoDup (map f (searched root)).
Proof.
  intros Hnd. unfold searched. rewrite glob_files_flat_map.
  apply NoDup_map_globs; [|apply one_pattern|exact Hnd].
  unfold SEARCHED. repeat (constructor; [simpl; intuition discriminate|]).
  constructor.
Qed.

Definition TWICE_MATCHING : Path :=
  tree [ file ["auth.ts"] "const code_verifier = pkce(); // pkce, code_verifier";
         file ["auth.js"] "PKCE" ].

(** X6.  When the paths of the tree are pairwise distinct, no hit list
    of any scored check names a path twice: no file is found by two of
    the five extension patterns, and a file in which several patterns
    of a group match, or one pattern several times, is one hit. *)
Theorem hits_name_each_file_once root :
  NoDup (map (str root) (walk root)) ->
  Forall (fun c =>
            exists r,
              run c root = Ok r
              /\ Forall (fun g => NoDup (snd g)) (hits r))
         catalogue.
Proof.
  intros Hnd. eapply Forall_impl; [|apply catalogue_spec].
  intros c Hc; simpl in Hc. exists (outcome root c). split; [apply Hc|].
  unfold outcome, table; cbn [hits]. rewrite Forall_map.
  rewrite Forall_forall. intros [k regs] _. cbn [snd].
  unfold evidence_in. apply NoDup_map_filter. now apply searched_distinct.
Qed.

Lemma hits_name_each_file_once_witness :
  Forall (fun c =>
            exists r,
              run c TWICE_MATCHING = Ok r
              /\ Forall (fun g => NoDup (snd g)) (hits r))
         catalogue
  /\ check_pkce TWICE_MATCHING
     = Ok (MkCheck false
             [ ("has_pkce_terms", ["/srv/app/auth.ts"; "/srv/app/auth.js"]);
               ("stores_in_redis", []);
               ("callback_reads_verifier", ["/srv/app/auth.ts"]);
               ("deletes_after_use", []) ]).
Proof.
  split.
  - apply (hits_name_each_file_once TWICE_MATCHING).
    vm_compute. repeat constructor; simpl; intuition discriminate.
  - vm_compute. reflexivity.
Defined.

(** *** Files that cannot be read *)

(** No pattern of the group matches the empty text. *)
Definition needs_text (regs : list string) : bool :=
  forallb (fun rx => negb (Re.search rx EmptyString SEARCH_FLAGS)) regs.

Definition readable (p : entry) : bool :=
  negb (String.eqb (read_text_safe p) EmptyString).

Definition readable_only (root : Path) : Path :=
  MkPath (root_str root) (filter readable (walk root)).

Lemma needs_text_readable regs p :
  needs_text regs = true -> group_matches regs p = true -> readable p = true.
Proof.
  unfold needs_text, group_matches, readable. intros Hn Hm.
  destruct (String.eqb_spec (read_text_safe p) EmptyString) as [He|]; [|reflexivity].
  rewrite He in Hm. rewrite forallb_forall in Hn. rewrite existsb_exists in Hm.
  destruct Hm as (rx & Hrx & Hm). specialize (Hn rx Hrx).
  rewrite Hm in Hn. discriminate.
Qed.

Lemma filter_filter_swap {A : Type} (f g : A -> bool) l :
  filter f (filter g l) = filter g (filter f l).
Proof.
  induction l as [|a l IH]; simpl; [reflexivity|].
  destruct (f a) eqn:Hf, (g a) eqn:Hg; simpl; rewrite ?Hf, ?Hg, IH; reflexivity.
Qed.

Lemma filter_implied {A : Type} (f g : A -> bool) l :
  (forall a, f a = true -> g a = true) -> filter f (filter g l) = filter f l.
Proof.
  intros H. induction l as [|a l IH]; simpl; [reflexivity|].
  destruct (g a) eqn:Hg; simpl.
  - now rewrite IH.
  - destruct (f a) eqn:Hf; [|exact IH]. apply H in Hf. congruence.
Qed.

Lemma searched_readable root :
  searched (readable_only root) = filter readable (searched root).
Proof.
  unfold searched. rewrite !glob_files_flat_map.
  induction SEARCHED as [|pat pats IH]; simpl; [reflexivity|].
  rewrite filter_app, IH. f_equal.
  unfold rglob, readable_only; simpl. apply filter_filter_swap.
Qed.

Lemma evidence_readable root regs :
  needs_text regs = true ->
  evidence (readable_only root) regs = evidence root regs.
Proof.
  intros Hn. unfold evidence, evidence_in.
  rewrite searched_readable, filter_implied; [reflexivity|].
  intros p. now apply needs_text_readable.
Qed.

Definition all_need_text (patterns : dict (list string)) : bool :=
  forallb (fun g => needs_text (snd g)) patterns.

Lemma get_In {V : Type} (d : dict V) k v : get d k = Some v -> In (k, v) d.
Proof.
  induction d as [|[k' v'] d IH]; simpl; [discriminate|].
  destruct (String.eqb_spec k' k) as [->|]; [intros [= ->]; now left | auto].
Qed.

Lemma ev_readable root patterns k :
  all_need_text patterns = true ->
  ev (readable_only root) patterns k = ev root patterns k.
Proof.
  intros Hall. unfold ev. destruct (get patterns k) as [regs|] eqn:Hk; [|reflexivity].
  apply evidence_readable. unfold all_need_text in Hall.
  rewrite forallb_forall in Hall. apply (Hall (k, regs)). now apply get_In.
Qed.

Lemma table_readable root patterns :
  all_need_text patterns = true ->
  table (readable_only root) (searched (readable_only root)) patterns
  = table root (searched root) patterns.
Proof.
  intros Hall. unfold table. apply map_ext_in. intros [k regs] Hin. f_equal.
  apply evidence_readable. unfold all_need_text in Hall.
  rewrite forallb_forall in Hall. apply (Hall (k, regs) Hin).
Qed.

Definition DIRECTORY_NAMED_LIKE_A_FILE : Path :=
  tree [ Entry ["vendor.js"] false Fails Fails;
         file ["vendor.js"; "index.js"] "redis.incr(key)";
         Entry ["locked.ts"] true Fails Fails ].

(** X7.  A path that matches an extension pattern and cannot be read (a
    directory named like a source file, a file that fails under both
    encodings) is searched as the empty text and is never a hit: no
    pattern of any scored check matches the empty text, so leaving out
    every path that reads as empty changes no result. *)
Theorem unreadable_paths_change_nothing :
  (forall root,
      Forall (fun c => run c (readable_only root) = run c root) catalogue)
  /\ forallb (fun c => all_need_text (groups c)) catalogue = true
  /\ check_rate_limiter DIRECTORY_NAMED_LIKE_A_FILE
     = Ok (MkCheck true [("redis_window", ["/srv/app/vendor.js/index.js"])]).
Proof.
  split; [|split; vm_compute; reflexivity].
  intros root.
  pose proof catalogue_spec as H. unfold catalogue in *.
  repeat (apply Forall_cons_iff in H;
          let H1 := fresh "Hc" in destruct H as [H1 H];
          constructor;
          [rewrite !H1; unfold outcome;
           cbn [rule groups forallb keys map fst pkce_pats]; unfold sat;
           rewrite ?ev_readable, table_readable by (vm_compute; reflexivity);
           reflexivity|]).
  constructor.
Qed.

(** *** Paths the script never looks at *)

Lemma fnmatch_head c pat s :
  Ascii.eqb c "*" = false ->
  fnmatch (String c pat) s = true ->
  exists s', s = String c s' /\ fnmatch pat s' = true.
Proof.
  intros Hc.
  destruct c as [[] [] [] [] [] [] [] []]; try discriminate Hc;
    (destruct s as [|a s]; [discriminate|]);
    cbn [fnmatch]; rewrite andb_true_iff; intros [Ha Hs];
    apply Ascii.eqb_eq in Ha; subst a; eauto.
Qed.

Lemma fnmatch_suffix pat s x :
  In x (suffixes s) -> fnmatch pat x = true ->
  fnmatch (String "*" pat) s = true.
Proof.
  intros Hx Hm. rewrite fnmatch_star, existsb_exists. eauto.
Qed.

(** Every compose file is a YAML file. *)
Lemma compose_name_yaml c :
  (fnmatch "docker-compose*.yml" c = true -> fnmatch "*.yml" c = true)
  /\ (fnmatch "docker-compose*.yaml" c = true -> fnmatch "*.yaml" c = true).
Proof.
  split; intros H;
    do 14 (apply fnmatch_head in H; [destruct H as (? & -> & H)|reflexivity]);
    rewrite fnmatch_star, existsb_exists in H; destruct H as (x & Hx & Hm);
    (apply (fnmatch_suffix _ _ x); [|exact Hm]);
    do 14 (cbn [suffixes In]; right); exact Hx.
Qed.

Lemma glob_match_single pat p :
  split "/" pat = [pat] ->
  glob_match pat p
  = match rev (rel p) with
    | [] => false
    | c :: _ => fnmatch pat c
    end.
Proof.
  intros Hs. unfold glob_match. rewrite Hs. simpl.
  destruct (rev (rel p)); [reflexivity|]. simpl. apply andb_true_r.
Qed.

Lemma compose_files_searched pat pat' p :
  (pat, pat') = ("docker-compose*.yml", "*.yml")
  \/ (pat, pat') = ("docker-compose*.yaml", "*.yaml") ->
  glob_match pat p = true -> glob_match pat' p = true.
Proof.
  intros [[= -> ->]|[= -> ->]];
    rewrite !glob_match_single by reflexivity;
    (destruct (rev (rel p)) as [|c l]; [discriminate|]);
    apply compose_name_yaml.
Qed.

Lemma validation_files_searched pat p :
  In pat ["startup/validation.ts"; "config/environment.ts"] ->
  glob_match pat p = true -> glob_match "*.ts" p = true.
Proof.
  intros [<-|[<-|[]]]; rewrite (glob_match_single "*.ts") by reflexivity;
    unfold glob_match;
    [ change (rev (split "/" "startup/validation.ts"))
        with ["validation.ts"; "startup"]
    | change (rev (split "/" "config/environment.ts"))
        with ["environment.ts"; "config"] ];
    (destruct (rev (rel p)) as [|c l]; [discriminate|]);
    cbn [match_rev]; rewrite andb_true_iff; intros [Hc _];
    (apply fnmatch_plain in Hc; [|reflexivity]); subst c; reflexivity.
Qed.

(** The paths the script reads: those found by one of the five
    extension patterns, those named [Dockerfile] and the dotenv files. *)
Definition seen (p : entry) : bool :=
  existsb (fun pat => glob_match pat p) ("Dockerfile" :: SEARCHED)
  || is_file p && existsb (String.eqb (name p)) ENV_NAMES.

Lemma seen_pattern pat p :
  In pat ("Dockerfile" :: SEARCHED) -> glob_match pat p = true -> seen p = true.
Proof.
  intros Hin Hm. unfold seen. apply orb_true_iff. left.
  rewrite existsb_exists. eauto.
Qed.

Lemma seen_glob pat p :
  In pat [ "Dockerfile"; "docker-compose*.yml"; "docker-compose*.yaml";
           "*.ts"; "*.js"; "*.sql"; "*.yml"; "*.yaml";
           "startup/validation.ts"; "config/environment.ts" ] ->
  glob_match pat p = true -> seen p = true.
Proof.
  intros Hin Hm.
  assert (Hc : In pat ("Dockerfile" :: SEARCHED)
               \/ (pat, "*.yml") = ("docker-compose*.yml", "*.yml")
               \/ (pat, "*.yaml") = ("docker-compose*.yaml", "*.yaml")
               \/ In pat ["startup/validation.ts"; "config/environment.ts"]).
  { simpl in Hin |- *. intuition (subst; auto 12). }
  destruct Hc as [Hc|[Hc|[Hc|Hc]]].
  - now apply (seen_pattern pat).
  - apply (seen_pattern "*.yml"); [simpl; tauto|].
    apply (compose_files_searched pat); auto.
  - apply (seen_pattern "*.yaml"); [simpl; tauto|].
    apply (compose_files_searched pat); auto.
  - apply (seen_pattern "*.ts"); [simpl; tauto|].
    now apply (validation_files_searched pat).
Qed.

Section Unseen.
Variables (s : string) (below : list entry).
Let root := MkPath s below.
Let root' := MkPath s (filter seen below).

Lemma rglob_seen pat :
  In pat [ "Dockerfile"; "docker-compose*.yml"; "docker-compose*.yaml";
           "*.ts"; "*.js"; "*.sql"; "*.yml"; "*.yaml";
           "startup/validation.ts"; "config/environment.ts" ] ->
  rglob root' pat = rglob root pat.
Proof.
  intros Hin. unfold rglob, root', root; simpl walk.
  apply filter_implied. intros p. now apply seen_glob.
Qed.

Lemma find_any_seen names :
  incl names ENV_NAMES -> find_any root' names = find_any root names.
Proof.
  intros Hn. unfold find_any, rglob, root', root; simpl walk.
  rewrite (filter_filter_swap (glob_match "*") seen).
  apply filter_implied. intros p Hp. unfold seen.
  apply andb_true_iff in Hp. destruct Hp as [Hf Hp]. rewrite Hf.
  apply orb_true_iff. right. cbn [andb].
  rewrite existsb_exists in Hp. destruct Hp as (n & Hin & Hp).
  apply existsb_exists. exists n. split; [now apply Hn | exact Hp].
Qed.

Lemma glob_files_seen pats :
  incl pats SEARCHED -> glob_files root' pats = glob_files root pats.
Proof.
  intros Hp. rewrite !glob_files_flat_map.
  induction pats as [|pat pats IH]; [reflexivity|].
  simpl. rewrite IH by (intros x Hx; apply Hp; now right).
  rewrite rglob_seen; [reflexivity|].
  specialize (Hp pat (or_introl eq_refl)). simpl in Hp |- *. tauto.
Qed.

Lemma summarize_ports_seen : summarize_ports root' = summarize_ports root.
Proof.
  unfold summarize_ports, compose_files.
  rewrite !rglob_seen by (simpl; tauto).
  rewrite find_any_seen by (intros x Hx; exact Hx).
  rewrite glob_files_seen by (intros x Hx; simpl in Hx |- *; tauto).
  reflexivity.
Qed.

Lemma scan_env_validation_seen :
  scan_env_validation root' = scan_env_validation root.
Proof.
  unfold scan_env_validation.
  rewrite !rglob_seen by (simpl; tauto).
  rewrite find_any_seen by (intros x Hx; simpl in Hx |- *; tauto).
  reflexivity.
Qed.

Lemma check_compose_ports_seen :
  check_compose_ports root' = check_compose_ports root.
Proof.
  unfold check_compose_ports, compose_files.
  rewrite !rglob_seen by (simpl; tauto). reflexivity.
Qed.

Lemma outcome_seen c : outcome root' c = outcome root c.
Proof.
  unfold outcome, sat, ev, table, evidence, evidence_in, searched.
  rewrite glob_files_seen by (intros x Hx; exact Hx). reflexivity.
Qed.

Lemma run_of_seen : run_of root' = run_of root.
Proof.
  unfold run_of, report_of, md_of, passed.
  rewrite summarize_ports_seen, scan_env_validation_seen,
    check_compose_ports_seen.
  rewrite (map_ext _ _ (fun c => f_equal (fun r => (title c, Check r))
                                         (outcome_seen c))).
  rewrite (map_ext _ _ (fun c => f_equal (fun r => (upper (title c), ok r))
                                         (outcome_seen c))).
  rewrite (filter_ext _ _ (fun c => f_equal ok (outcome_seen c))).
  reflexivity.
Qed.
End Unseen.

Definition FIRST_RUN : list entry :=
  [ file ["src"; "server.ts"] "app.listen(3000); // REDIS_URL";
    file ["README.md"] "renew the long lived token";
    file ["src"; "App.tsx"] "crypto.timingSafeEqual(a, b)" ].

Definition SECOND_RUN : list entry :=
  [ file ["audit_report.json"] "{ pkce: renew, 8MB, REDIS_URL }";
    file ["audit_report.md"] "## REDIS_REQUIRED" ]
  ++ FIRST_RUN.



(** *** Patterns without operators *)

(** The expression a pattern without operators compiles to: its
    characters one after the other. *)
Fixpoint literal (c : ascii) (s : string) : Re.regex :=
  match s with
  | EmptyString => Re.Chr c
  | String c' s' => Re.Cat (Re.Chr c) (literal c' s')
  end.

Definition literal_of (pat : string) : option Re.regex :=
  match pat with
  | EmptyString => None
  | String c s => Some (literal c s)
  end.

(** The text starts with the characters of [s], compared the way the
    flags compare one character. *)
Fixpoint starts (flags : Z) (s t : string) : bool :=
  match s, t with
  | EmptyString, _ => true
  | String c s', String a t' => Re.chr_match flags c a && starts flags s' t'
  | String _ _, EmptyString => false
  end.

Fixpoint occurs (flags : Z) (s t : string) : bool :=
  starts flags s t
  || match t with
     | String _ t' => occurs flags s t'
     | EmptyString => false
     end.

Lemma exec_literal flags c s k st :
  starts flags (String c s) (Re.rest st) = false ->
  Re.exec flags (literal c s) k st = None.
Proof.
  revert c st. induction s as [|c' s IH]; intros c st;
    cbn [literal Re.exec]; unfold Re.read;
    destruct (Re.rest st) as [|a t] eqn:Hr; try reflexivity;
    cbn [starts]; destruct (Re.chr_match flags c a); try reflexivity.
  - destruct t; discriminate.
  - cbn [andb]. intros Hs. apply IH. exact Hs.
Qed.

Lemma exec_literal_found flags c s st :
  starts flags (String c s) (Re.rest st) = true ->
  exists st', Re.exec flags (literal c s) (fun x => Some x) st = Some st'.
Proof.
  revert c st. induction s as [|c' s IH]; intros c st;
    cbn [literal Re.exec]; unfold Re.read;
    destruct (Re.rest st) as [|a t] eqn:Hr; try discriminate;
    cbn [starts]; destruct (Re.chr_match flags c a); try discriminate;
    cbn [andb]; intros Hs.
  - eauto.
  - apply IH. exact Hs.
Qed.

Lemma search_literal flags c s t :
  Re.search_re flags (literal c s) t = occurs flags (String c s) t.
Proof.
  unfold Re.search_re. generalize (@None ascii) ([] : list (nat * string)).
  induction t as [|a t IH]; intros p cs; rewrite scan_unfold;
    unfold Re.match_here;
    change (occurs flags (String c s) ?x)
      with (starts flags (String c s) x
            || match x with
               | String _ t' => occurs flags (String c s) t'
               | EmptyString => false
               end);
    destruct (starts flags (String c s) _) eqn:Hs.
  - destruct (exec_literal_found flags c s (Re.MState "" p 0 cs) Hs) as [st' ->].
    reflexivity.
  - rewrite exec_literal; [reflexivity|exact Hs].
  - destruct (exec_literal_found flags c s (Re.MState (String a t) p 0 cs) Hs)
      as [st' ->]. reflexivity.
  - rewrite exec_literal; [|exact Hs]. cbn [orb]. apply IH.
Qed.

Lemma search_literal_pattern flags pat t :
  Re.compile pat = literal_of pat -> pat <> EmptyString ->
  Re.search pat t flags = occurs flags pat t.
Proof.
  intros Hc Hne. unfold Re.search. rewrite Hc.
  destruct pat as [|c s]; [congruence|]. apply search_literal.
Qed.

(** Without flags a character matches itself only, and the text starts
    with [s] as written. *)
Lemma starts_exact s t :
  starts Re.NOFLAG s t = true <-> exists post, t = (s ++ post)%string.
Proof.
  revert t; induction s as [|c s IH]; intros t; cbn [starts].
  - split; [exists t; reflexivity | reflexivity].
  - destruct t as [|a t].
    + split; [discriminate | intros [post H]; discriminate H].
    + unfold Re.chr_match.
      change (Re.has_flag Re.NOFLAG Re.IGNORECASE) with false.
      cbn [andb]. rewrite orb_false_r, andb_true_iff, Ascii.eqb_eq, IH.
      split.
      * intros [-> [post ->]]. exists post. reflexivity.
      * intros [post [= -> ->]]. eauto.
Qed.

Lemma occurs_exact s t :
  occurs Re.NOFLAG s t = true
  <-> exists pre post, t = (pre ++ s ++ post)%string.
Proof.
  induction t as [|a t IH]; cbn [occurs]; rewrite orb_true_iff, starts_exact.
  - split.
    + intros [[post H]|H]; [|discriminate]. exists EmptyString, post. exact H.
    + intros (pre & post & H). left. destruct pre; [|discriminate].
      exists post. exact H.
  - rewrite IH. split.
    + intros [[post H]|(pre & post & H)].
      * exists EmptyString, post. exact H.
      * exists (String a pre), post. simpl. now rewrite H.
    + intros (pre & post & H). destruct pre as [|b pre].
      * left. exists post. exact H.
      * right. injection H as _ H. eauto.
Qed.

(** *** The validation file *)

Definition VALIDATION : string := "startup/validation.ts".
Definition ENVIRONMENT : string := "config/environment.ts".

Definition missing_in (t : string) : list string :=
  filter (fun key => negb (occurs Re.NOFLAG key t)) REQ_ENVS.

Lemma missing_checks_absent t :
  filter (fun key => negb (Re.search key t Re.NOFLAG)) REQ_ENVS = missing_in t.
Proof.
  unfold missing_in. apply filter_ext_in. intros key Hin. f_equal.
  apply search_literal_pattern.
  - unfold REQ_ENVS in Hin. simpl in Hin.
    repeat (destruct Hin as [<-|Hin];
            [vm_compute; reflexivity|]).
    destruct Hin.
  - unfold REQ_ENVS in Hin. simpl in Hin.
    intuition (subst; discriminate).
Qed.

Lemma filter_only {A : Type} (f : A -> bool) before c after :
  f c = true ->
  (forall p, In p before \/ In p after -> f p = false) ->
  filter f (before ++ c :: after) = [c].
Proof.
  intros Hc Hb. rewrite filter_app. cbn [filter]. rewrite Hc.
  assert (Hnone : forall l, (forall p, In p l -> f p = false) -> filter f l = []).
  { induction l as [|x l IH]; intros H; [reflexivity|]. cbn [filter].
    rewrite (H x) by now left. apply IH. intros p Hp. apply H. now right. }
  rewrite (Hnone before), (Hnone after) by auto. reflexivity.
Qed.

Definition VALIDATION_WINS : Path :=
  tree [ file ["config"; "environment.ts"]
              "META_APP_ID IG_APP_SECRET GRAPH_API_VERSION API_BASE_URL ENCRYPTION_KEY DATABASE_URL REDIS_URL OPENAI_API_KEY PORT IG_VERIFY_TOKEN REDIRECT_URI";
         file ["src"; "startup"; "validation.ts"]
              "// TODO: check REPORT_URL and port";
         file ["deploy"; ".env.example"] "OPENAI_API_KEY=sk-your_key";
         file [".env.sample"] "OPENAI_API_KEY=sk-your_key";
         file [".env"] "OPENAI_API_KEY=sk-your_key" ].



(** *** Plain patterns of the checks *)

(** The same characters up to the case of letters. *)
Fixpoint same_letters (s t : string) : bool :=
  match s, t with
  | EmptyString, EmptyString => true
  | String c s', String a t' =>
      (Ascii.eqb c a || Ascii.eqb c (Re.swapcase a)) && same_letters s' t'
  | _, _ => false
  end.

Lemma starts_any_case s mid post :
  same_letters s mid = true ->
  starts SEARCH_FLAGS s (mid ++ post) = true.
Proof.
  revert mid; induction s as [|c s IH]; intros [|a mid]; cbn [same_letters];
    try discriminate; [reflexivity|].
  rewrite andb_true_iff. intros [Hc Hs].
  cbn [append starts]. unfold Re.chr_match.
  change (Re.has_flag SEARCH_FLAGS Re.IGNORECASE) with true.
  cbn [andb]. rewrite Hc. now apply IH.
Qed.

Lemma occurs_behind flags s t pre :
  starts flags s t = true -> occurs flags s (pre ++ t) = true.
Proof.
  intros Hs. induction pre as [|a pre IH]; cbn [append].
  - destruct t; cbn [occurs]; rewrite Hs; reflexivity.
  - cbn [occurs]. rewrite IH. apply orb_true_r.
Qed.

Definition NUMBERS : entry :=
  file ["src"; "limits.ts"] "const numbers = combine(a, b);".

(** X10.  A pattern of a scored check that has no operator is found
    wherever its characters stand in a searched file, in any mix of
    upper and lower case and also inside a longer word; the file is
    then a hit of the pattern's group.  So the only group of the media
    validation check, through its pattern [MB], is hit by a file that
    holds the word [numbers]. *)
Theorem plain_patterns_hit root c k regs rx p pre mid post :
  In c catalogue ->
  get (groups c) k = Some regs ->
  In rx regs ->
  Re.compile rx = literal_of rx ->
  In p (searched root) ->
  read_text_safe p = (pre ++ mid ++ post)%string ->
  same_letters rx mid = true ->
  exists r l,
    run c root = Ok r
    /\ get (hits r) k = Some l
    /\ In (str root p) l.
Proof.
  intros Hc Hk Hrx Hlit Hp Ht Hmid.
  pose proof catalogue_spec as Hspec. rewrite Forall_forall in Hspec.
  exists (outcome root c), (evidence root regs).
  split; [apply (Hspec c Hc)|]. split.
  - unfold outcome; cbn [hits]. rewrite get_table, Hk. reflexivity.
  - apply in_evidence. exists p. split; [exact Hp|]. split; [|reflexivity].
    unfold group_matches. rewrite existsb_exists. exists rx. split; [exact Hrx|].
    rewrite search_literal_pattern; [|exact Hlit|].
    + rewrite Ht. apply occurs_behind. now apply starts_any_case.
    + intros ->. vm_compute in Hlit. discriminate Hlit.
Qed.

Lemma plain_patterns_hit_witness :
  (exists r l,
      check_media_validation (tree [NUMBERS]) = Ok r
      /\ get (hits r) "size_type_checks" = Some l
      /\ In "/srv/app/src/limits.ts" l)
  /\ check_media_validation (tree [NUMBERS])
     = Ok (MkCheck true [("size_type_checks", ["/srv/app/src/limits.ts"])]).
Proof.
  split.
  - apply (plain_patterns_hit
             (tree [NUMBERS])
             (MkScored "media_validation" check_media_validation
                       media_validation_pats (fun s => s "size_type_checks"))
             "size_type_checks"
             ["mime"; "content[-_ ]type"; "file.*size"; "MB"; "8MB|10MB|1048576"]
             "MB" NUMBERS "const nu" "mb" "ers = combine(a, b);").
    + unfold catalogue. simpl. tauto.
    + reflexivity.
    + simpl. tauto.
    + vm_compute. reflexivity.
    + vm_compute. tauto.
    + reflexivity.
    + reflexivity.
  - vm_compute. reflexivity.
Defined.

(** *** Verdicts and hit lists *)

(** Whether the hit list of a group is non-empty. *)
Definition has_hits (h : dict (list string)) (k : string) : bool :=
  match get h k with
  | Some (_ :: _) => true
  | _ => false
  end.

(** The groups that are searched and reported without a say in the
    verdict, by check. *)
Definition REPORTED_ONLY : list (string * string) :=
  [ ("redis_required", "fail_on_end"); ("redis_required", "rediss_tls");
    ("openai_hardening", "input_cap") ].

Definition reported_only (c : scored) (k : string) : bool :=
  existsb (fun ck => String.eqb (fst ck) (title c) && String.eqb (snd ck) k)
          REPORTED_ONLY.

(** The truth values of the groups, with the one of [k] inverted. *)
Definition inverted (s : string -> bool) (k : string) : string -> bool :=
  fun k' => if String.eqb k' k then negb (s k') else s k'.

Lemma sat_has_hits root patterns k :
  sat root patterns k = has_hits (table root (searched root) patterns) k.
Proof.
  unfold sat, has_hits. rewrite get_table_ev. unfold ev.
  destruct (get patterns k) as [regs|]; [|reflexivity].
  cbn [option_map]. now destruct (evidence root regs).
Qed.

(** X11.  The verdict of every scored check is a function of the hit
    lists it reports: it can be recomputed from the result, and no
    subscript of [hits] fails.  Three groups are searched and reported
    without a say: [fail_on_end] and [rediss_tls] of the Redis check and
    [input_cap] of the OpenAI check; every other group of every check
    decides the verdict for some evidence of the other groups. *)
Theorem verdicts_follow_hits :
  Forall (fun c =>
            forall root,
              exists r,
                run c root = Ok r
                /\ keys (hits r) = keys (groups c)
                /\ ok r = rule c (has_hits (hits r)))
         catalogue
  /\ Forall (fun c =>
               forall s s',
                 (forall k, reported_only c k = false -> s k = s' k) ->
                 rule c s = rule c s')
            catalogue
  /\ Forall (fun c =>
               Forall (fun k =>
                         reported_only c k = false ->
                         exists s, rule c (inverted s k) = negb (rule c s))
                      (keys (groups c)))
            catalogue.
Proof.
  split; [|split].
  - pose proof catalogue_spec as H. unfold catalogue in *.
    repeat (apply Forall_cons_iff in H;
            let H1 := fresh "Hc" in destruct H as [H1 H];
            constructor;
            [intros root; eexists; split; [apply H1|];
             unfold outcome; cbn [hits ok]; split; [apply keys_table|];
             cbn [rule groups forallb keys map fst pkce_pats];
             rewrite !sat_has_hits; reflexivity|]).
    constructor.
  - unfold catalogue.
    repeat (constructor;
            [intros s s' H; cbn [rule forallb keys map fst pkce_pats];
             rewrite ?(H "has_pkce_terms"), ?(H "stores_in_redis"),
               ?(H "callback_reads_verifier"), ?(H "deletes_after_use"),
               ?(H "hash_merchant_and_body"), ?(H "db_unique"),
               ?(H "env_required"), ?(H "redis_window"),
               ?(H "handles_429_5xx"), ?(H "exponential_backoff"),
               ?(H "jitter"), ?(H "queue_failed_handler"), ?(H "push_dlq"),
               ?(H "renew_long_lived"), ?(H "policies"), ?(H "context_fn"),
               ?(H "composite_pk"), ?(H "encrypted_token"),
               ?(H "header_check"), ?(H "raw_body_used"),
               ?(H "timing_safe_equal"), ?(H "timeout"),
               ?(H "json_parse_guard"), ?(H "size_type_checks"),
               ?(H "has_build_stage"), ?(H "runtime_stage")
               by reflexivity;
             reflexivity|]).
    constructor.
  - unfold catalogue.
    repeat (constructor;
            [cbn [groups keys map fst pkce_pats idempotency_pats
                    redis_required_pats rate_limiter_pats retry_backoff_pats
                    dlq_pats token_renewal_pats rls_pats mapping_table_pats
                    hmac_rawbody_pats openai_hardening_pats
                    media_validation_pats docker_multistage_pats];
             repeat (constructor;
                     [intros Hr;
                      first [ discriminate Hr
                            | exists (fun _ => true); reflexivity
                            | exists (fun _ => false); reflexivity
                            | exists (String.eqb "handles_429_5xx"); reflexivity ]
                     |]);
             constructor|]).
    constructor.
Qed.

(** *** The Markdown report *)

Definition HEADINGS : list string :=
  [ "Ports summary"; "Env validation"; "PKCE"; "IDEMPOTENCY"; "REDIS_REQUIRED";
    "RATE_LIMITER"; "RETRY_BACKOFF"; "DLQ"; "TOKEN_RENEWAL"; "RLS";
    "MAPPING_TABLE"; "HMAC_RAWBODY"; "OPENAI_HARDENING"; "MEDIA_VALIDATION";
    "DOCKER_MULTISTAGE" ].

Definition VALIDATED_ONLY : list entry :=
  [ file ["src"; "startup"; "validation.ts"]
         "META_APP_ID IG_APP_SECRET GRAPH_API_VERSION API_BASE_URL ENCRYPTION_KEY DATABASE_URL REDIS_URL OPENAI_API_KEY PORT IG_VERIFY_TOKEN REDIRECT_URI";
    file [".env.example"] "OPENAI_API_KEY=sk-your_key" ].

Lemma md_of_report root :
  md_of root
  = ("Ports summary", true)
      :: ("Env validation", env_ok (scan_env_validation root))
      :: map (fun c => (upper c, get_ok (report_of root) c)) checks.
Proof.
  unfold md_of, get_ok, report_of, catalogue, checks. cbn [map app title].
  generalize (passed root) (summarize_ports root) (scan_env_validation root)
             (check_compose_ports root); intros.
  abstract_outcomes root. reflexivity.
Qed.

Lemma length_marked {A B : Type} (g : A -> B) (f : A -> bool) l :
  List.length (filter snd (map (fun c => (g c, f c)) l))
  = List.length (filter f l).
Proof.
  induction l as [|a l IH]; [reflexivity|].
  cbn [map filter snd]. destruct (f a); cbn [List.length]; now rewrite IH.
Qed.

(** X12.  On a run that completes, the Markdown file has fifteen
    sections in a fixed order: the ports summary, always marked as
    passed; the env validation, marked as passed exactly when a
    validation file was found and no required name is missing from it,
    whatever placeholders were reported; and one section per scored
    check, headed by its name in upper case and marked with the [ok] of
    the report.  The passed count of the score is the number of check
    sections marked as passed; the first two sections are not counted.
    The two files are written into the root. *)
Theorem markdown_agrees_with_report prog arg more (world : World) below :
  listing (world arg) = Some below ->
  can_write (world arg) = true ->
  exists r rep env,
    main (prog :: arg :: more) world = Ok r
    /\ report r = Some rep
    /\ get rep "env_validation" = Some (EnvValidation env)
    /\ md_sections r
       = ("Ports summary", true)
           :: ("Env validation",
               match env with
               | EnvScanned _ [] _ => true
               | _ => false
               end)
           :: map (fun c => (upper c, get_ok rep c)) checks
    /\ map fst (md_sections r) = HEADINGS
    /\ get rep "score"
       = Some (Score (List.length (filter snd (skipn 2 (md_sections r)))) 13)
    /\ written r = [ joinpath (resolved (world arg)) "audit_report.json";
                     joinpath (resolved (world arg)) "audit_report.md" ].
Proof.
  intros Hl Hw. set (root := MkPath (resolved (world arg)) below).
  exists (run_of root), (report_of root), (scan_env_validation root).
  split; [now apply main_runs|]. split; [reflexivity|].
  split; [apply report_diagnostic|].
  cbn [run_of md_sections written]. rewrite md_of_report.
  split; [|split; [|split]].
  - do 2 f_equal. unfold env_ok.
    destruct (scan_env_validation root) as [|f [|m ms] l]; reflexivity.
  - cbn [map fst]. rewrite map_map. reflexivity.
  - rewrite report_score. do 2 f_equal. cbn [skipn].
    rewrite passed_counts. symmetry. apply length_marked.
  - reflexivity.
Qed.

Lemma markdown_agrees_with_report_witness :
  (exists r rep env,
      main ["audit.py"; "."] (at_root VALIDATED_ONLY) = Ok r
      /\ report r = Some rep
      /\ get rep "env_validation" = Some (EnvValidation env)
      /\ md_sections r
         = ("Ports summary", true)
             :: ("Env validation",
                 match env with
                 | EnvScanned _ [] _ => true
                 | _ => false
                 end)
             :: map (fun c => (upper c, get_ok rep c)) checks
      /\ map fst (md_sections r) = HEADINGS
      /\ get rep "score"
         = Some (Score (List.length (filter snd (skipn 2 (md_sections r)))) 13)
      /\ written r = [ "/srv/app/audit_report.json"; "/srv/app/audit_report.md" ])
  /\ option_map md_sections
       (match main ["audit.py"; "."] (at_root VALIDATED_ONLY) with
        | Ok r => Some r
        | Raise _ => None
        end)
     = Some (("Ports summary", true) :: ("Env validation", true)
               :: ("PKCE", false) :: ("IDEMPOTENCY", false)
               :: ("REDIS_REQUIRED", true)
               :: map (fun h => (h, false)) (skipn 5 HEADINGS)).
Proof.
  split.
  - apply (markdown_agrees_with_report "audit.py" "." [] (at_root VALIDATED_ONLY)
             VALIDATED_ONLY); reflexivity.
  - vm_compute. reflexivity.
Defined.

(** *** Patterns that add nothing *)

Lemma eqb_swapcase x y :
  Ascii.eqb (Re.swapcase x) y = Ascii.eqb x (Re.swapcase y).
Proof.
  destruct (Ascii.eqb_spec (Re.swapcase x) y) as [<-|Hn].
  - rewrite swapcase_involutive. symmetry. apply Ascii.eqb_refl.
  - destruct (Ascii.eqb_spec x (Re.swapcase y)) as [->|]; [|reflexivity].
    now rewrite swapcase_involutive in Hn.
Qed.

Lemma starts_same_letters s1 s2 t :
  same_letters s1 s2 = true ->
  starts SEARCH_FLAGS s1 t = starts SEARCH_FLAGS s2 t.
Proof.
  revert s2 t; induction s1 as [|c1 s1 IH]; intros [|c2 s2] t;
    cbn [same_letters]; try discriminate; [reflexivity|].
  rewrite andb_true_iff. intros [Hc Hs].
  destruct t as [|a t]; [reflexivity|]. cbn [starts]. rewrite (IH s2 t Hs).
  f_equal. unfold Re.chr_match.
  change (Re.has_flag SEARCH_FLAGS Re.IGNORECASE) with true. cbn [andb].
  apply orb_true_iff in Hc. destruct Hc as [Hc|Hc]; apply Ascii.eqb_eq in Hc.
  - now subst c2.
  - subst c1. rewrite !eqb_swapcase, swapcase_involutive. apply orb_comm.
Qed.

Lemma occurs_same_letters s1 s2 t :
  same_letters s1 s2 = true ->
  occurs SEARCH_FLAGS s1 t = occurs SEARCH_FLAGS s2 t.
Proof.
  intros Hs. induction t as [|a t IH]; cbn [occurs];
    rewrite (starts_same_letters s1 s2 _ Hs); [reflexivity|now rewrite IH].
Qed.

Lemma starts_tail flags pre s t :
  starts flags (pre ++ s) t = true -> occurs flags s t = true.
Proof.
  revert t; induction pre as [|c pre IH]; intros t; cbn [append].
  - intros Hs. destruct t; cbn [occurs]; rewrite Hs; reflexivity.
  - destruct t as [|a t]; cbn [starts]; [discriminate|].
    rewrite andb_true_iff. intros [_ Hs]. cbn [occurs].
    rewrite (IH t Hs). apply orb_true_r.
Qed.

(** Where the longer text occurs, so does its tail. *)
Lemma occurs_tail flags pre s t :
  occurs flags (pre ++ s) t = true -> occurs flags s t = true.
Proof.
  induction t as [|a t IH]; cbn [occurs]; rewrite orb_true_iff.
  - intros [H|H]; [|discriminate]. now apply starts_tail in H.
  - intros [H|H].
    + apply starts_tail in H. exact H.
    + rewrite (IH H). apply orb_true_r.
Qed.

Lemma search_as_literal flags pat lit t :
  Re.compile pat = literal_of lit -> lit <> EmptyString ->
  Re.search pat t flags = occurs flags lit t.
Proof.
  intros Hc Hne. unfold Re.search. rewrite Hc.
  destruct lit as [|c s]; [congruence|]. apply search_literal.
Qed.

(** The patterns of the signature check without those that add
    nothing. *)
Definition hmac_rawbody_needed : dict (list string) :=
  [ ("header_check", ["X-Hub-Signature-256"]);
    ("raw_body_used", ["rawBody"; "req\.raw"]);
    ("timing_safe_equal", ["timingSafeEqual"]) ].

Lemma hmac_groups_needed t :
  Forall2
    (fun g g' =>
       fst g = fst g'
       /\ existsb (fun rx => Re.search rx t SEARCH_FLAGS) (snd g)
          = existsb (fun rx => Re.search rx t SEARCH_FLAGS) (snd g'))
    hmac_rawbody_pats hmac_rawbody_needed.
Proof.
  unfold hmac_rawbody_pats, hmac_rawbody_needed.
  repeat constructor; cbn [snd existsb]; rewrite ?orb_false_r.
  - rewrite !(search_literal_pattern SEARCH_FLAGS)
      by (try discriminate; vm_compute; reflexivity).
    rewrite (occurs_same_letters "x-hub-signature-256" "X-Hub-Signature-256")
      by reflexivity.
    apply orb_diag.
  - rewrite (search_literal_pattern SEARCH_FLAGS "rawBody")
      by (try discriminate; vm_compute; reflexivity).
    rewrite (search_literal_pattern SEARCH_FLAGS "getRawBody")
      by (try discriminate; vm_compute; reflexivity).
    rewrite (occurs_same_letters "rawBody" "RawBody") by reflexivity.
    destruct (occurs SEARCH_FLAGS "getRawBody" t) eqn:Hg.
    + apply (occurs_tail SEARCH_FLAGS "get" "RawBody") in Hg.
      rewrite Hg. reflexivity.
    + cbn [orb]. reflexivity.
  - rewrite (search_literal_pattern SEARCH_FLAGS "timingSafeEqual")
      by (try discriminate; vm_compute; reflexivity).
    rewrite (search_as_literal SEARCH_FLAGS "crypto\.timingSafeEqual"
                               "crypto.timingSafeEqual")
      by (try discriminate; vm_compute; reflexivity).
    destruct (occurs SEARCH_FLAGS "crypto.timingSafeEqual" t) eqn:Hg.
    + apply (occurs_tail SEARCH_FLAGS "crypto." "timingSafeEqual") in Hg.
      rewrite Hg. reflexivity.
    + apply orb_false_r.
Qed.

Lemma table_needed root :
  table root (searched root) hmac_rawbody_pats
  = map (fun kv => (fst kv,
                    evidence root
                      (match get hmac_rawbody_needed (fst kv) with
                       | Some regs => regs
                       | None => []
                       end)))
        hmac_rawbody_pats.
Proof.
  assert (H : forall regs regs',
             (forall t,
                 existsb (fun rx => Re.search rx t SEARCH_FLAGS) regs
                 = existsb (fun rx => Re.search rx t SEARCH_FLAGS) regs') ->
             evidence root regs = evidence root regs').
  { intros regs regs' Hsame. unfold evidence, evidence_in. f_equal.
    apply filter_ext. intros p. unfold group_matches. apply Hsame. }
  assert (Hg : forall t, Forall2 _ hmac_rawbody_pats hmac_rawbody_needed)
    by exact hmac_groups_needed.
  unfold table, hmac_rawbody_pats, hmac_rawbody_needed in *.
  cbn [map fst snd get String.eqb Ascii.eqb Bool.eqb].
  repeat f_equal; apply H; intros t; specialize (Hg t);
    repeat match goal with
           | Hf : Forall2 _ (_ :: _) (_ :: _) |- _ =>
               inversion Hf as [|? ? ? ? [_ ?] ?]; subst; clear Hf
           end; assumption.
Qed.

(** X13.  Three patterns of the signature check add nothing: under
    [re.I] the lower-case header name matches the same texts as the
    first header pattern, and wherever [getRawBody] or
    [crypto.timingSafeEqual] occurs so does [rawBody] or
    [timingSafeEqual].  The check computed from the four remaining
    patterns gives the same verdict and the same hit lists on every
    tree. *)
Theorem hmac_patterns_that_add_nothing :
  forall root,
    exists h,
      search_patterns root hmac_rawbody_needed = Ok h
      /\ check_hmac_rawbody root
         = Ok (MkCheck (has_hits h "header_check"
                        && (has_hits h "raw_body_used"
                            && has_hits h "timing_safe_equal"))
                       h).
Proof.
  intros root. eexists. split.
  - apply search_patterns_spec. repeat constructor; simpl; intuition discriminate.
  - pose proof catalogue_spec as H. rewrite Forall_forall in H.
    specialize (H (MkScored "hmac_rawbody" check_hmac_rawbody hmac_rawbody_pats
                     (fun s => s "header_check"
                               && (s "raw_body_used" && s "timing_safe_equal")))).
    cbn [run] in H. rewrite H by (unfold catalogue; simpl; tauto).
    unfold outcome. cbn [rule groups]. rewrite !sat_has_hits, table_needed.
    reflexivity.
Qed.

(** *** Trees without evidence *)

Lemma evidence_unread root regs :
  Forall (fun p => read_text_safe p = EmptyString) (searched root) ->
  needs_text regs = true ->
  evidence root regs = [].
Proof.
  intros Hall Hn. unfold evidence, evidence_in.
  rewrite Forall_forall in Hall.
  induction (searched root) as [|p l IH]; [reflexivity|]. cbn [filter].
  destruct (group_matches regs p) eqn:Hm.
  - apply (needs_text_readable regs p Hn) in Hm. unfold readable in Hm.
    rewrite (Hall p (or_introl eq_refl)) in Hm. discriminate Hm.
  - apply IH. intros q Hq. apply Hall. now right.
Qed.

Lemma outcome_unread root :
  Forall (fun p => read_text_safe p = EmptyString) (searched root) ->
  Forall (fun c => outcome root c
                   = MkCheck false (map (fun g => (fst g, [])) (groups c)))
         catalogue.
Proof.
  intros Hall.
  assert (Hev : forall patterns k,
             all_need_text patterns = true -> ev root patterns k = []).
  { intros patterns k Hn. unfold ev.
    destruct (get patterns k) as [regs|] eqn:Hk; [|reflexivity].
    apply evidence_unread; [exact Hall|].
    unfold all_need_text in Hn. rewrite forallb_forall in Hn.
    apply (Hn (k, regs)). now apply get_In. }
  assert (Htab : forall patterns,
             all_need_text patterns = true ->
             table root (searched root) patterns
             = map (fun g => (fst g, [])) patterns).
  { intros patterns Hn. unfold table. apply map_ext_in. intros [k regs] Hin.
    cbn [fst]. f_equal. apply evidence_unread; [exact Hall|].
    unfold all_need_text in Hn. rewrite forallb_forall in Hn.
    apply (Hn (k, regs) Hin). }
  unfold catalogue.
  repeat (constructor;
          [unfold outcome; cbn [rule groups forallb keys map fst pkce_pats];
           unfold sat; rewrite ?Hev, Htab by (vm_compute; reflexivity);
           reflexivity|]).
  constructor.
Qed.

(** A root where nothing can give evidence: two directories, one named
    like a source file, an empty source file, and three files with text
    that no check searches. *)
Definition NOTHING_TO_SEARCH : list entry :=
  [ Entry ["src"] false Fails Fails;
    Entry ["lib.js"] false Fails Fails;
    file ["src"; "index.ts"] "";
    file ["README.md"] "renew the long lived token";
    file ["Dockerfile"] "FROM node:18 AS build";
    file [".env"] "REDIS_URL=redis://cache:6379" ].

(** C6.  On a root below which no searched path has any text (nothing
    below the root at all, directories only, files that no check
    searches such as a README, a [Dockerfile] or a dotenv file, empty
    or unreadable source files) [main] raises nothing and returns 0,
    and in its report every scored check has [ok] false and an empty
    hit list for each of its groups.  The root exists and takes the
    report files. *)
Theorem empty_corpus_all_fail prog arg more (world : World) below :
  listing (world arg) = Some below ->
  can_write (world arg) = true ->
  Forall (fun p => read_text_safe p = EmptyString)
         (searched (MkPath (resolved (world arg)) below)) ->
  exists run rep,
    main (prog :: arg :: more) world = Ok run
    /\ exit_code run = 0%Z
    /\ report run = Some rep
    /\ map title catalogue = checks
    /\ Forall (fun c =>
                 get rep (title c)
                 = Some (Check (MkCheck false
                                        (map (fun g => (fst g, [])) (groups c)))))
              catalogue
    /\ get rep "score" = Some (Score 0 13).
Proof.
  intros Hl Hw Hall. rewrite (main_runs _ _ _ _ _ Hl Hw).
  set (root := MkPath (resolved (world arg)) below) in *.
  exists (run_of root), (report_of root).
  split; [reflexivity|]. split; [reflexivity|]. split; [reflexivity|].
  split; [reflexivity|].
  pose proof (outcome_unread root Hall) as Hout.
  split.
  - pose proof (report_checks root) as Hrep.
    rewrite Forall_forall in *. intros c Hc.
    rewrite (Hrep c Hc), (Hout c Hc). reflexivity.
  - rewrite report_score.
    assert (Hp : passed root = 0).
    { unfold passed. rewrite length_filter_sum.
      rewrite (map_ext_in _ (fun _ => 0)); [reflexivity|].
      intros c Hc. rewrite Forall_forall in Hout.
      now rewrite (Hout c Hc). }
    now rewrite Hp.
Qed.

Lemma empty_corpus_all_fail_witness :
  (exists run rep,
      main ["audit"; "app"] (at_root NOTHING_TO_SEARCH) = Ok run
      /\ exit_code run = 0%Z
      /\ report run = Some rep
      /\ map title catalogue = checks
      /\ Forall (fun c =>
                   get rep (title c)
                   = Some (Check (MkCheck false
                                          (map (fun g => (fst g, [])) (groups c)))))
                catalogue
      /\ get rep "score" = Some (Score 0 13))
  /\ map (str (tree NOTHING_TO_SEARCH)) (searched (tree NOTHING_TO_SEARCH))
     = ["/srv/app/src/index.ts"; "/srv/app/lib.js"].
Proof.
  split.
  - apply (empty_corpus_all_fail "audit" "app" [] (at_root NOTHING_TO_SEARCH)
                                 NOTHING_TO_SEARCH).
    + reflexivity.
    + reflexivity.
    + vm_compute. repeat constructor.
  - vm_compute. reflexivity.
Defined.

(** *** What a match reads *)

(** The character before the text that is left, after [m] was read. *)
Fixpoint last_from (p : option ascii) (m : string) : option ascii :=
  match m with
  | EmptyString => p
  | String a m' => last_from (Some a) m'
  end.

(** [st'] is [st] with [m] read. *)
Definition reads (st : Re.mstate) (m : string) (st' : Re.mstate) : Prop :=
  Re.rest st = (m ++ Re.rest st')%string
  /\ Re.prev st' = last_from (Re.prev st) m
  /\ Re.nread st' = Re.nread st + String.length m.

Fixpoint join (ms : list string) : string :=
  match ms with
  | [] => EmptyString
  | m :: ms' => (m ++ join ms')%string
  end.

(** The texts an expression can read, the place of the match and the
    upper bound of a repetition left aside. *)
Fixpoint shaped (flags : Z) (r : Re.regex) (m : string) : Prop :=
  match r with
  | Re.Eps | Re.Bol => m = EmptyString
  | Re.Chr c =>
      exists a, m = String a EmptyString /\ Re.chr_match flags c a = true
  | Re.Any =>
      exists a, m = String a EmptyString /\ Re.any_match flags a = true
  | Re.Cls neg items =>
      exists a, m = String a EmptyString
                /\ Re.cls_match flags neg items a = true
  | Re.Cat r1 r2 =>
      exists m1 m2, m = (m1 ++ m2)%string
                    /\ shaped flags r1 m1 /\ shaped flags r2 m2
  | Re.Alt r1 r2 => shaped flags r1 m \/ shaped flags r2 m
  | Re.Rep _ lo _ r1 =>
      exists ms, m = join ms /\ Forall (shaped flags r1) ms
                 /\ lo <= List.length ms
  | Re.Grp _ r1 => shaped flags r1 m
  end.

Lemma append_assoc (a b c : string) :
  ((a ++ b) ++ c)%string = (a ++ (b ++ c))%string.
Proof. induction a as [|x a IH]; simpl; [reflexivity | now rewrite IH]. Qed.

Lemma append_nil_r (a : string) : (a ++ "")%string = a.
Proof. induction a as [|x a IH]; simpl; [reflexivity | now rewrite IH]. Qed.

Lemma length_append (a b : string) :
  String.length (a ++ b) = String.length a + String.length b.
Proof. induction a as [|x a IH]; simpl; [reflexivity | now rewrite IH]. Qed.

Lemma last_from_append p a b :
  last_from p (a ++ b) = last_from (last_from p a) b.
Proof. revert p; induction a as [|x a IH]; intros p; simpl; [reflexivity | apply IH]. Qed.

Lemma reads_refl st : reads st EmptyString st.
Proof. unfold reads. simpl. repeat split; lia. Qed.

Lemma reads_trans st1 m1 st2 m2 st3 :
  reads st1 m1 st2 -> reads st2 m2 st3 -> reads st1 (m1 ++ m2) st3.
Proof.
  intros (H1 & H2 & H3) (G1 & G2 & G3). unfold reads.
  rewrite H1, G1, G2, H2, G3, H3, append_assoc, last_from_append, length_append.
  repeat split; lia.
Qed.

Lemma reads_one st a st' :
  Re.read st = Some (a, st') ->
  reads st (String a EmptyString) st' /\ Re.caps st' = Re.caps st.
Proof.
  unfold Re.read, reads. destruct st as [[|b t] p n cs]; simpl; [discriminate|].
  intros [= -> <-]. simpl. repeat split; lia.
Qed.

(** What a successful run hands to its continuation. *)
Definition handed (P : string -> Prop) (keeps : Prop)
           (k : Re.mstate -> option Re.mstate) (st x : Re.mstate) : Prop :=
  exists m st',
    reads st m st' /\ P m /\ (keeps -> Re.caps st' = Re.caps st)
    /\ k st' = Some x.

Section Rounds.
Variable body : (Re.mstate -> option Re.mstate) -> Re.mstate -> option Re.mstate.
Variable P : string -> Prop.
Variable keeps : Prop.
Hypothesis body_hands :
  forall k st x, body k st = Some x -> handed P keeps k st x.
Variables (greedy : bool) (k : Re.mstate -> option Re.mstate).

Lemma rep_optional_hands fuel left st x :
  Re.rep_optional body greedy k fuel left st = Some x ->
  handed (fun m => exists ms, m = join ms /\ Forall P ms) keeps k st x.
Proof.
  assert (Hstay : forall st,
             k st = Some x ->
             handed (fun m => exists ms, m = join ms /\ Forall P ms) keeps k st x).
  { intros st0 H. exists EmptyString, st0. split; [apply reads_refl|].
    split; [exists []; split; [reflexivity | constructor]|]. auto. }
  revert left st; induction fuel as [|fuel IH]; intros left st; simpl.
  - apply Hstay.
  - destruct (Re.exhausted left); [apply Hstay|].
    intros H.
    assert (Hcases :
      body (fun st1 => if Re.progressed st st1
                       then Re.rep_optional body greedy k fuel
                                            (Re.dec_bound left) st1
                       else None) st = Some x \/ k st = Some x).
    { destruct greedy; apply orelse_Some in H; tauto. }
    destruct Hcases as [Hb|Hk]; [|now apply Hstay].
    apply body_hands in Hb. destruct Hb as (m1 & st1 & Hr1 & Hp1 & Hc1 & Hb).
    destruct (Re.progressed st st1); [|discriminate].
    apply IH in Hb. destruct Hb as (m2 & st2 & Hr2 & (ms & -> & Hms) & Hc2 & Hk).
    exists (m1 ++ join ms)%string, st2.
    split; [eapply reads_trans; eauto|].
    split; [exists (m1 :: ms); split; [reflexivity | now constructor]|].
    split; [|exact Hk]. intros Hkeep. now rewrite (Hc2 Hkeep), (Hc1 Hkeep).
Qed.

Lemma rep_required_hands optional n st x :
  Re.rep_required body greedy k optional n st = Some x ->
  handed (fun m => exists ms, m = join ms /\ Forall P ms /\ n <= List.length ms)
         keeps k st x.
Proof.
  revert st; induction n as [|n IH]; intros st; cbn [Re.rep_required].
  - intros H. apply rep_optional_hands in H.
    destruct H as (m & st' & Hr & (ms & -> & Hms) & Hc & Hk).
    exists (join ms), st'. split; [exact Hr|].
    split; [exists ms; repeat split; auto; lia|]. auto.
  - intros H. apply body_hands in H.
    destruct H as (m1 & st1 & Hr1 & Hp1 & Hc1 & H).
    apply IH in H. destruct H as (m2 & st2 & Hr2 & (ms & -> & Hms & Hn) & Hc2 & Hk).
    exists (m1 ++ join ms)%string, st2.
    split; [eapply reads_trans; eauto|].
    split; [exists (m1 :: ms); repeat split; [now constructor | simpl; lia]|].
    split; [|exact Hk]. intros Hkeep. now rewrite (Hc2 Hkeep), (Hc1 Hkeep).
Qed.
End Rounds.

(** The matcher is sound: what it reads has the shape of the
    expression, and an expression without group leaves the groups as
    they were. *)
Lemma exec_hands flags r :
  forall k st x,
    Re.exec flags r k st = Some x ->
    handed (shaped flags r) (has_grp r = false) k st x.
Proof.
  induction r as [|c| |neg items| |r1 IH1 r2 IH2|r1 IH1 r2 IH2
                 |greedy lo hi r1 IH1|n r1 IH1];
    intros k st x; unfold handed; cbn [Re.exec has_grp shaped].
  - intros H. exists EmptyString, st. split; [apply reads_refl|]. auto.
  - destruct (Re.read st) as [[a st1]|] eqn:Hr; [|discriminate].
    destruct (Re.chr_match flags c a) eqn:Hm; [|discriminate].
    intros H. apply reads_one in Hr. destruct Hr as [Hr Hc].
    exists (String a EmptyString), st1. eauto 8.
  - destruct (Re.read st) as [[a st1]|] eqn:Hr; [|discriminate].
    destruct (Re.any_match flags a) eqn:Hm; [|discriminate].
    intros H. apply reads_one in Hr. destruct Hr as [Hr Hc].
    exists (String a EmptyString), st1. eauto 8.
  - destruct (Re.read st) as [[a st1]|] eqn:Hr; [|discriminate].
    destruct (Re.cls_match flags neg items a) eqn:Hm; [|discriminate].
    intros H. apply reads_one in Hr. destruct Hr as [Hr Hc].
    exists (String a EmptyString), st1. eauto 8.
  - destruct (Re.at_bol flags st); [|discriminate].
    intros H. exists EmptyString, st. split; [apply reads_refl|]. auto.
  - intros H. apply IH1 in H. destruct H as (m1 & st1 & Hr1 & Hs1 & Hc1 & H).
    apply IH2 in H. destruct H as (m2 & st2 & Hr2 & Hs2 & Hc2 & H).
    exists (m1 ++ m2)%string, st2. split; [eapply reads_trans; eauto|].
    split; [eauto|]. split; [|exact H].
    rewrite orb_false_iff. intros [G1 G2]. now rewrite (Hc2 G2), (Hc1 G1).
  - intros H. apply orelse_Some in H.
    destruct H as [H|H]; [apply IH1 in H | apply IH2 in H];
      destruct H as (m & st1 & Hr & Hs & Hc & H); exists m, st1;
      (split; [exact Hr|]); (split; [auto|]); (split; [|exact H]);
      rewrite orb_false_iff; intros [G1 G2]; auto.
  - intros H.
    apply (rep_required_hands (Re.exec flags r1) (shaped flags r1)
                              (has_grp r1 = false) IH1) in H.
    exact H.
  - intros H. apply IH1 in H. destruct H as (m & st1 & Hr & Hs & _ & H).
    exists m, (Re.close_group n st st1).
    split; [exact Hr|]. split; [exact Hs|]. split; [discriminate | exact H].
Qed.

(** A group around an expression without group records what was
    read. *)
Lemma group_hands flags n r k st x :
  has_grp r = false ->
  Re.exec flags (Re.Grp n r) k st = Some x ->
  exists m st',
    reads st m st' /\ shaped flags r m
    /\ Re.caps st' = (n, m) :: Re.caps st
    /\ k st' = Some x.
Proof.
  intros Hg H. cbn [Re.exec] in H. apply exec_hands in H.
  destruct H as (m & st1 & Hr & Hs & Hc & H).
  exists m, (Re.close_group n st st1). split; [exact Hr|]. split; [exact Hs|].
  split; [|exact H].
  unfold Re.close_group, Re.consumed; cbn [Re.caps].
  destruct Hr as (Hrest & _ & Hn). rewrite Hrest, Hn, (Hc Hg).
  replace (Re.nread st + String.length m - Re.nread st) with (String.length m)
    by lia.
  now rewrite substring_prefix.
Qed.

(** A repeated set reads characters of the set. *)
Lemma shaped_run flags greedy lo hi neg items m :
  shaped flags (Re.Rep greedy lo hi (Re.Cls neg items)) m ->
  all_chars (Re.cls_match flags neg items) m = true
  /\ lo <= String.length m.
Proof.
  cbn [shaped]. intros (ms & -> & Hms & Hlo).
  revert lo Hlo. induction Hms as [|m ms (a & -> & Ha) Hms IH]; intros lo Hlo.
  - simpl in *. split; [reflexivity | lia].
  - destruct (IH 0 (Nat.le_0_l _)) as [Hall _].
    cbn [join append all_chars List.length String.length] in *.
    rewrite Ha, Hall. split; [reflexivity|].
    destruct (IH (pred lo)) as [_ Hlen]; lia.
Qed.

(** *** Where [finditer] finds its matches *)

Lemma scan_position flags r t p cs st0 st1 :
  Re.scan flags r t p cs = Some (st0, st1) ->
  Re.match_here flags r st0 = Some st1
  /\ exists m, t = (m ++ Re.rest st0)%string
               /\ Re.prev st0 = last_from p m
               /\ Re.nread st0 = 0
               /\ Re.caps st0 = cs.
Proof.
  revert p; induction t as [|a t IH]; intros p; rewrite scan_unfold;
    destruct (Re.match_here flags r (Re.MState _ p 0 cs)) eqn:Hm.
  - intros [= <- <-]. split; [exact Hm|]. exists EmptyString. now simpl.
  - discriminate.
  - intros [= <- <-]. split; [exact Hm|]. exists EmptyString. now simpl.
  - intros H. apply IH in H. destruct H as (Hmatch & m & Ht & Hp & Hn & Hc).
    split; [exact Hmatch|]. exists (String a m). simpl. now rewrite <- Ht.
Qed.

Lemma finditer_from_positions flags r fuel :
  forall t p cs,
    In cs (Re.finditer_from fuel flags r t p) ->
    exists m st0 st1,
      t = (m ++ Re.rest st0)%string
      /\ Re.prev st0 = last_from p m
      /\ Re.nread st0 = 0
      /\ Re.caps st0 = []
      /\ Re.match_here flags r st0 = Some st1
      /\ Re.caps st1 = cs.
Proof.
  induction fuel as [|fuel IH]; intros t p cs; cbn [Re.finditer_from];
    [intros H; destruct H|].
  destruct (Re.scan flags r t p []) as [[st0 st1]|] eqn:Hs; [|intros []].
  apply scan_position in Hs.
  destruct Hs as (Hmatch & m & Ht & Hp & Hn & Hc).
  cbn [In]. intros [<-|Hin].
  - exists m, st0, st1. auto 8.
  - pose proof Hmatch as Hread. unfold Re.match_here in Hread.
    apply exec_hands in Hread.
    destruct Hread as (mm & st' & (Hrest & Hprev & _) & _ & _ & [= ->]).
    assert (Hnext : forall t' p' m',
               Re.rest st1 = (m' ++ t')%string ->
               p' = last_from (Re.prev st1) m' ->
               In cs (Re.finditer_from fuel flags r t' p') ->
               exists m0 st2 st3,
                 t = (m0 ++ Re.rest st2)%string
                 /\ Re.prev st2 = last_from p m0
                 /\ Re.nread st2 = 0
                 /\ Re.caps st2 = []
                 /\ Re.match_here flags r st2 = Some st3
                 /\ Re.caps st3 = cs).
    { intros t' p' m' Ht' Hp' Hin'. apply IH in Hin'.
      destruct Hin' as (m0 & st2 & st3 & E1 & E2 & E3 & E4 & E5 & E6).
      exists (m ++ mm ++ m' ++ m0)%string, st2, st3.
      split.
      { rewrite Ht, Hrest, Ht', E1, !append_assoc. reflexivity. }
      split; [|auto].
      rewrite E2, Hp', Hprev, Hp, <- !last_from_append, ?append_assoc.
      reflexivity. }
    destruct (Re.progressed st0 st1).
    + apply (Hnext (Re.rest st1) (Re.prev st1) EmptyString); auto.
    + destruct (Re.read st1) as [[a st2]|] eqn:Hr; [|destruct Hin].
      apply reads_one in Hr. destruct Hr as [(R1 & R2 & _) _].
      apply (Hnext (Re.rest st2) (Re.prev st2) (String a EmptyString)); auto.
Qed.

(** The start of the text or of a line. *)
Definition line_start (pre : string) : Prop :=
  pre = EmptyString
  \/ exists pre', pre = (pre' ++ String Re.nl EmptyString)%string.

Lemma last_from_line_start p pre :
  last_from p pre = Some Re.nl ->
  p = Some Re.nl /\ pre = EmptyString
  \/ exists pre', pre = (pre' ++ String Re.nl EmptyString)%string.
Proof.
  revert p; induction pre as [|a pre IH]; intros p; simpl.
  - auto.
  - intros H. apply IH in H. right.
    destruct H as [[[= ->] ->]|[pre' ->]].
    + exists EmptyString. reflexivity.
    + exists (String a pre'). reflexivity.
Qed.

Lemma last_from_none pre : last_from None pre = None -> pre = EmptyString.
Proof.
  destruct pre as [|a pre]; [reflexivity|]. simpl.
  assert (H : forall q m, last_from (Some q) m <> None).
  { intros q m; revert q; induction m; simpl; [discriminate | auto]. }
  intros E. now apply H in E.
Qed.

Lemma at_bol_line_start flags st pre :
  Re.at_bol flags st = true ->
  Re.prev st = last_from None pre ->
  line_start pre.
Proof.
  unfold Re.at_bol. intros H Hp. rewrite Hp in H.
  destruct (last_from None pre) as [c|] eqn:Hl.
  - apply andb_true_iff in H. destruct H as [_ H]. apply Ascii.eqb_eq in H.
    subst c. apply last_from_line_start in Hl.
    destruct Hl as [[[=] _]|Hl]. right. exact Hl.
  - left. now apply last_from_none.
Qed.

(** *** The assignment the env pattern reads *)

(** [t] begins with an assignment of the number [x] to [PORT], written
    in upper case, white space allowed before the name and around the
    equals sign; [post] is what follows the number. *)
Definition port_assignment (x post t : string) : Prop :=
  exists w1 w2 w3,
    t = (w1 ++ "PORT" ++ w2 ++ "=" ++ w3 ++ x ++ post)%string
    /\ all_chars Re.is_space w1 = true
    /\ all_chars Re.is_space w2 = true
    /\ all_chars Re.is_space w3 = true
    /\ numeral x = true.

Lemma chr_match_exact flags c a :
  Re.has_flag flags Re.IGNORECASE = false ->
  Re.chr_match flags c a = true -> a = c.
Proof.
  unfold Re.chr_match. intros ->. cbn [andb]. rewrite orb_false_r.
  intros H. apply Ascii.eqb_eq in H. congruence.
Qed.

Lemma shaped_chr flags c m :
  Re.has_flag flags Re.IGNORECASE = false ->
  shaped flags (Re.Chr c) m -> m = String c EmptyString.
Proof.
  intros Hf (a & -> & Ha). now rewrite (chr_match_exact flags c a Hf Ha).
Qed.

Lemma all_chars_ext (f g : ascii -> bool) m :
  (forall a, f a = true -> g a = true) ->
  all_chars f m = true -> all_chars g m = true.
Proof.
  intros H. induction m as [|a m IH]; simpl; [reflexivity|].
  rewrite !andb_true_iff. intros [Ha Hm]. auto.
Qed.

Lemma shaped_spaces m :
  shaped Re.MULTILINE (Re.Rep true 0 None (Re.Cls false [Re.CSpace])) m ->
  all_chars Re.is_space m = true.
Proof.
  intros H. apply shaped_run in H. destruct H as [H _].
  revert H. apply all_chars_ext. intros a.
  unfold Re.cls_match. cbn [existsb Re.citem_mem].
  change (Re.has_flag Re.MULTILINE Re.IGNORECASE) with false.
  cbn [andb]. now rewrite !orb_false_r.
Qed.

Lemma shaped_digits m :
  shaped Re.MULTILINE
         (Re.Rep true 1 None (Re.Cls false [Re.CRange "0" "9"])) m ->
  numeral m = true.
Proof.
  intros H. apply shaped_run in H. destruct H as [H Hlen].
  apply numeral_digits; [exact Hlen|].
  revert H. apply all_chars_ext. intros a.
  apply (digit_cls_match Re.MULTILINE [Re.CRange "0" "9"]). reflexivity.
Qed.

Ltac read_next H m st' Hr Hs Hc :=
  rewrite exec_Cat in H; apply exec_hands in H;
  destruct H as (m & st' & Hr & Hs & Hc & H);
  specialize (Hc eq_refl); destruct Hr as (Hr & _ & _).

Lemma env_port_match st0 st1 :
  Re.match_here Re.MULTILINE (Re.Cat Re.Bol ENV_PORT_BODY) st0 = Some st1 ->
  Re.at_bol Re.MULTILINE st0 = true
  /\ exists x,
       Re.caps st1 = (1, x) :: Re.caps st0
       /\ port_assignment x (Re.rest st1) (Re.rest st0).
Proof.
  unfold Re.match_here, ENV_PORT_BODY. rewrite exec_Cat, exec_Bol.
  destruct (Re.at_bol Re.MULTILINE st0); [|discriminate].
  intros H. split; [reflexivity|].
  read_next H w1 sa R1 S1 K1.
  read_next H c1 sb R2 S2 K2.
  read_next H c2 sc R3 S3 K3.
  read_next H c3 sd R4 S4 K4.
  read_next H c4 se R5 S5 K5.
  read_next H w2 sf R6 S6 K6.
  read_next H c5 sg R7 S7 K7.
  read_next H w3 sh R8 S8 K8.
  apply group_hands in H; [|reflexivity].
  destruct H as (x & si & (R9 & _ & _) & S9 & K9 & [= ->]).
  apply shaped_chr in S2, S3, S4, S5, S7; try reflexivity. subst.
  exists x. split.
  - rewrite K9, K8, K7, K6, K5, K4, K3, K2, K1. reflexivity.
  - exists w1, w2, w3.
    split; [rewrite R1, R2, R3, R4, R5, R6, R7, R8, R9; reflexivity|].
    auto using shaped_spaces, shaped_digits.
Qed.

(** Every port the env pattern finds stands in an assignment at the
    start of the text or of a line. *)
Lemma env_port_found t x :
  In x (Re.finditer_group1 ENV_PORT t Re.MULTILINE) ->
  exists pre from_here after,
    t = (pre ++ from_here)%string
    /\ line_start pre
    /\ port_assignment x after from_here.
Proof.
  unfold Re.finditer_group1, Re.finditer. rewrite env_port_compiled.
  intros Hin. apply in_flat_map in Hin. destruct Hin as (cs & Hcs & Hx).
  unfold Re.finditer_re in Hcs. apply finditer_from_positions in Hcs.
  destruct Hcs as (pre & st0 & st1 & Ht & Hp & _ & Hc0 & Hm & <-).
  apply env_port_match in Hm. destruct Hm as (Hbol & y & Hc & Hy).
  rewrite Hc in Hx. cbn [Re.group Nat.eqb] in Hx. destruct Hx as [<-|[]].
  exists pre, (Re.rest st0), (Re.rest st1).
  split; [exact Ht|]. split; [|exact Hy].
  now apply (at_bol_line_start Re.MULTILINE st0).
Qed.

(** *** Texts that differ in the case of letters *)

(** [same_letters t t'] relates two texts letter by letter: each
    character is the same or the other-case partner.  Below, a match
    under [re.I] is shown not to tell such texts apart. *)
Definition alike_prev (p p' : option ascii) : Prop :=
  match p, p' with
  | None, None => True
  | Some a, Some b => (Ascii.eqb a b || Ascii.eqb a (Re.swapcase b)) = true
  | _, _ => False
  end.

Definition alike_caps (cs cs' : list (nat * string)) : Prop :=
  Forall2 (fun g g' => fst g = fst g' /\ same_letters (snd g) (snd g') = true)
          cs cs'.

Definition alike (st st' : Re.mstate) : Prop :=
  same_letters (Re.rest st) (Re.rest st') = true
  /\ alike_prev (Re.prev st) (Re.prev st')
  /\ Re.nread st = Re.nread st'
  /\ alike_caps (Re.caps st) (Re.caps st').

Definition alike_result (x y : option Re.mstate) : Prop :=
  match x, y with
  | Some a, Some b => alike a b
  | None, None => True
  | _, _ => False
  end.

Definition blind (k k' : Re.mstate -> option Re.mstate) : Prop :=
  forall st st', alike st st' -> alike_result (k st) (k' st').

Lemma same_letter_cases a b :
  (Ascii.eqb a b || Ascii.eqb a (Re.swapcase b)) = true ->
  a = b \/ a = Re.swapcase b.
Proof.
  rewrite orb_true_iff, !Ascii.eqb_eq. tauto.
Qed.

Lemma same_letters_length t t' :
  same_letters t t' = true -> String.length t = String.length t'.
Proof.
  revert t'; induction t as [|a t IH]; intros [|b t']; cbn [same_letters];
    try discriminate; [reflexivity|].
  rewrite andb_true_iff. intros [_ H]. simpl. now rewrite (IH t' H).
Qed.

Lemma same_letters_substring n m t t' :
  same_letters t t' = true ->
  same_letters (substring n m t) (substring n m t') = true.
Proof.
  revert n m t'; induction t as [|a t IH]; intros n m [|b t'];
    cbn [same_letters]; try discriminate.
  - intros _. destruct n, m; reflexivity.
  - rewrite andb_true_iff. intros [Hab H].
    destruct n as [|n]; [destruct m as [|m]|]; cbn [substring same_letters].
    + reflexivity.
    + rewrite Hab. now apply IH.
    + now apply IH.
Qed.

Section Blind.
Variable flags : Z.
Hypothesis ignorecase : Re.has_flag flags Re.IGNORECASE = true.

Lemma chr_match_alike c a b :
  (Ascii.eqb a b || Ascii.eqb a (Re.swapcase b)) = true ->
  Re.chr_match flags c a = Re.chr_match flags c b.
Proof.
  intros H. apply same_letter_cases in H. destruct H as [->| ->];
    [reflexivity | now apply chr_match_recase].
Qed.

Lemma cls_match_alike neg items a b :
  (Ascii.eqb a b || Ascii.eqb a (Re.swapcase b)) = true ->
  Re.cls_match flags neg items a = Re.cls_match flags neg items b.
Proof.
  intros H. apply same_letter_cases in H. destruct H as [->| ->];
    [reflexivity | now apply cls_match_recase].
Qed.

Lemma any_match_alike a b :
  (Ascii.eqb a b || Ascii.eqb a (Re.swapcase b)) = true ->
  Re.any_match flags a = Re.any_match flags b.
Proof.
  intros H. apply same_letter_cases in H. destruct H as [->| ->];
    [reflexivity | apply any_match_recase].
Qed.

Lemma at_bol_alike st st' :
  alike st st' -> Re.at_bol flags st = Re.at_bol flags st'.
Proof.
  intros (_ & Hp & _). unfold Re.at_bol.
  destruct (Re.prev st) as [a|], (Re.prev st') as [b|]; simpl in Hp;
    try contradiction; [|reflexivity].
  apply same_letter_cases in Hp. destruct Hp as [->| ->];
    [reflexivity | now rewrite swapcase_nl].
Qed.

(** One character: the three atoms that read differ in their test
    only. *)
Lemma read_alike (test : ascii -> bool) k k' st st' :
  (forall a b, (Ascii.eqb a b || Ascii.eqb a (Re.swapcase b)) = true ->
               test a = test b) ->
  blind k k' ->
  alike st st' ->
  alike_result
    match Re.read st with
    | Some (a, st1) => if test a then k st1 else None
    | None => None
    end
    match Re.read st' with
    | Some (a, st1) => if test a then k' st1 else None
    | None => None
    end.
Proof.
  intros Htest Hk (Hr & Hp & Hn & Hc). unfold Re.read.
  destruct st as [[|a t] p n cs], st' as [[|b t'] p' n' cs'];
    cbn [Re.rest Re.prev Re.nread Re.caps same_letters] in *;
    try discriminate; [exact I|].
  apply andb_true_iff in Hr. destruct Hr as [Hab Ht].
  rewrite (Htest a b Hab). destruct (test b); [|exact I].
  apply Hk. repeat split; cbn [Re.rest Re.prev Re.nread Re.caps]; auto.
Qed.

Lemma orelse_alike x x' y y' :
  alike_result x x' -> alike_result y y' ->
  alike_result (Re.orelse x y) (Re.orelse x' y').
Proof. destruct x, x'; simpl; tauto. Qed.

Section Rounds.
Variable body : (Re.mstate -> option Re.mstate) -> Re.mstate -> option Re.mstate.
Hypothesis body_blind : forall k k', blind k k' -> blind (body k) (body k').
Variables (greedy : bool) (k k' : Re.mstate -> option Re.mstate).
Hypothesis k_blind : blind k k'.

Lemma rep_optional_blind fuel left :
  blind (Re.rep_optional body greedy k fuel left)
        (Re.rep_optional body greedy k' fuel left).
Proof.
  revert left; induction fuel as [|fuel IH]; intros left st st' Hst;
    cbn [Re.rep_optional].
  - now apply k_blind.
  - destruct (Re.exhausted left); [now apply k_blind|].
    assert (Hagain :
      alike_result
        (body (fun st1 => if Re.progressed st st1
                          then Re.rep_optional body greedy k fuel
                                               (Re.dec_bound left) st1
                          else None) st)
        (body (fun st1 => if Re.progressed st' st1
                          then Re.rep_optional body greedy k' fuel
                                               (Re.dec_bound left) st1
                          else None) st')).
    { apply body_blind; [|exact Hst]. intros st1 st1' H1.
      unfold Re.progressed.
      destruct Hst as (_ & _ & Hn & _), H1 as (A & B & Hn1 & C).
      rewrite <- Hn, <- Hn1.
      destruct (Nat.ltb (Re.nread st) (Re.nread st1)); [|exact I].
      apply IH. repeat split; auto. }
    destruct greedy; apply orelse_alike; auto.
Qed.

Lemma rep_required_blind optional n :
  blind (Re.rep_required body greedy k optional n)
        (Re.rep_required body greedy k' optional n).
Proof.
  induction n as [|n IH]; intros st st' Hst; cbn [Re.rep_required].
  - destruct Hst as (Hr & Hrest).
    rewrite <- (same_letters_length _ _ Hr).
    apply rep_optional_blind. split; assumption.
  - now apply body_blind.
Qed.
End Rounds.

Lemma close_group_alike n st0 st0' st1 st1' :
  alike st0 st0' -> alike st1 st1' ->
  alike (Re.close_group n st0 st1) (Re.close_group n st0' st1').
Proof.
  intros (R0 & _ & N0 & _) (R1 & P1 & N1 & Q1).
  unfold Re.close_group, Re.consumed, alike;
    cbn [Re.rest Re.prev Re.nread Re.caps].
  repeat split; auto. constructor; [|exact Q1]. cbn [fst snd].
  split; [reflexivity|]. rewrite <- N0, <- N1.
  now apply same_letters_substring.
Qed.

Lemma exec_blind r :
  forall k k', blind k k' -> blind (Re.exec flags r k) (Re.exec flags r k').
Proof.
  induction r as [|c| |neg items| |r1 IH1 r2 IH2|r1 IH1 r2 IH2
                 |greedy lo hi r1 IH1|n r1 IH1];
    intros k k' Hk st st' Hst; cbn [Re.exec].
  - now apply Hk.
  - apply read_alike; auto using chr_match_alike.
  - apply read_alike; auto using any_match_alike.
  - apply read_alike; auto using cls_match_alike.
  - rewrite (at_bol_alike st st' Hst).
    destruct (Re.at_bol flags st'); [now apply Hk | exact I].
  - apply IH1; [now apply IH2 | exact Hst].
  - apply orelse_alike; [now apply IH1 | now apply IH2].
  - now apply rep_required_blind.
  - apply IH1; [|exact Hst]. intros st1 st1' H1. apply Hk.
    now apply close_group_alike.
Qed.

Lemma scan_blind r t t' p p' :
  same_letters t t' = true ->
  alike_prev p p' ->
  match Re.scan flags r t p [], Re.scan flags r t' p' [] with
  | Some _, Some _ | None, None => True
  | _, _ => False
  end.
Proof.
  revert t' p p'; induction t as [|a t IH]; intros [|b t'] p p' Ht Hp;
    cbn [same_letters] in Ht; try discriminate;
    rewrite (scan_unfold flags r _ p), (scan_unfold flags r _ p');
    unfold Re.match_here.
  - assert (H : alike_result
                  (Re.exec flags r (fun st => Some st) (Re.MState "" p 0 []))
                  (Re.exec flags r (fun st => Some st) (Re.MState "" p' 0 []))).
    { apply exec_blind; [intros s s' Hs; exact Hs|].
      repeat split; cbn [Re.rest Re.prev Re.nread Re.caps]; auto.
      constructor. }
    destruct (Re.exec flags r _ (Re.MState "" p 0 [])),
             (Re.exec flags r _ (Re.MState "" p' 0 [])); simpl in H; tauto.
  - apply andb_true_iff in Ht. destruct Ht as [Hab Ht].
    assert (H : alike_result
                  (Re.exec flags r (fun st => Some st)
                           (Re.MState (String a t) p 0 []))
                  (Re.exec flags r (fun st => Some st)
                           (Re.MState (String b t') p' 0 []))).
    { apply exec_blind; [intros s s' Hs; exact Hs|].
      repeat split; cbn [Re.rest Re.prev Re.nread Re.caps same_letters]; auto.
      - now rewrite Hab, Ht.
      - constructor. }
    destruct (Re.exec flags r _ (Re.MState (String a t) p 0 [])),
             (Re.exec flags r _ (Re.MState (String b t') p' 0 []));
      simpl in H; try tauto.
    apply IH; [exact Ht | exact Hab].
Qed.

(** Under [re.I] a search gives the same answer on texts that differ
    in the case of letters only. *)
Lemma search_blind pat t t' :
  same_letters t t' = true ->
  Re.search pat t flags = Re.search pat t' flags.
Proof.
  intros Ht. unfold Re.search. destruct (Re.compile pat) as [r|]; [|reflexivity].
  unfold Re.search_re.
  pose proof (scan_blind r t t' None None Ht I) as H.
  destruct (Re.scan flags r t None []), (Re.scan flags r t' None []);
    simpl in H; tauto.
Qed.
End Blind.

(** *** Trees that differ in the case of letters *)

Definition alike_entry (p p' : entry) : Prop :=
  rel p = rel p' /\ is_file p = is_file p'
  /\ same_letters (read_text_safe p) (read_text_safe p') = true.

(** The same paths under the same root, the texts the same up to the
    case of their letters, each letter on its own. *)
Definition alike_tree (root root' : Path) : Prop :=
  root_str root = root_str root'
  /\ Forall2 alike_entry (walk root) (walk root').

Lemma Forall2_filter {A : Type} (R : A -> A -> Prop) (f g : A -> bool) l l' :
  (forall x y, R x y -> f x = g y) ->
  Forall2 R l l' -> Forall2 R (filter f l) (filter g l').
Proof.
  intros Hfg H. induction H as [|x y l l' Hxy Hl IH]; cbn [filter].
  - constructor.
  - rewrite (Hfg x y Hxy). destruct (g y); [constructor|]; assumption.
Qed.

Lemma Forall2_map_eq {A B : Type} (R : A -> A -> Prop) (f g : A -> B) l l' :
  (forall x y, R x y -> f x = g y) ->
  Forall2 R l l' -> map f l = map g l'.
Proof.
  intros Hfg H. induction H as [|x y l l' Hxy Hl IH]; cbn [map].
  - reflexivity.
  - now rewrite (Hfg x y Hxy), IH.
Qed.

Section Alike.
Variables (root root' : Path).
Hypothesis trees_alike : alike_tree root root'.

Lemma searched_alike : Forall2 alike_entry (searched root) (searched root').
Proof.
  destruct trees_alike as [_ Hw]. unfold searched.
  rewrite !glob_files_flat_map.
  induction SEARCHED as [|pat pats IH]; cbn [flat_map]; [constructor|].
  apply Forall2_app; [|exact IH]. unfold rglob.
  apply Forall2_filter; [|exact Hw].
  intros p p' (Hrel & _). unfold glob_match. now rewrite Hrel.
Qed.

Lemma evidence_alike regs : evidence root regs = evidence root' regs.
Proof.
  unfold evidence, evidence_in.
  apply (Forall2_map_eq alike_entry).
  - intros p p' (Hrel & _). unfold str.
    destruct trees_alike as [-> _]. now rewrite Hrel.
  - apply Forall2_filter; [|exact searched_alike].
    intros p p' (_ & _ & Ht). unfold group_matches.
    induction regs as [|rx regs IH]; cbn [existsb]; [reflexivity|].
    now rewrite IH, (search_blind SEARCH_FLAGS eq_refl rx _ _ Ht).
Qed.

Lemma ev_alike patterns k : ev root patterns k = ev root' patterns k.
Proof.
  unfold ev. destruct (get patterns k); [apply evidence_alike | reflexivity].
Qed.

Lemma table_alike patterns :
  table root (searched root) patterns = table root' (searched root') patterns.
Proof.
  unfold table. apply map_ext. intros [k regs]. f_equal. apply evidence_alike.
Qed.
End Alike.

Lemma checks_blind_to_case root root' :
  alike_tree root root' ->
  Forall (fun c => run c root = run c root') catalogue.
Proof.
  intros Halike.
  pose proof catalogue_spec as H. unfold catalogue in *.
  repeat (apply Forall_cons_iff in H;
          let H1 := fresh "Hc" in destruct H as [H1 H];
          constructor;
          [rewrite !H1; unfold outcome;
           cbn [rule groups forallb keys map fst pkce_pats]; unfold sat;
           rewrite ?(ev_alike root root' Halike),
             (table_alike root root' Halike);
           reflexivity|]).
  constructor.
Qed.

(** *** Flags, pattern by pattern *)

(** What one file gives for a pattern matched with the given flags. *)
Definition found_with (pat : string) (flags : Z) (p : entry) : list string :=
  Re.finditer_group1 pat (read_text_safe p) flags.

Definition MIXED_CASE : Path :=
  tree [file ["config.yml"] "cache: { Redis_Url: redis://cache }"].

Definition UPPER_CASE : Path :=
  tree [file ["config.yml"] "CACHE: { REDIS_URL: REDIS://CACHE }"].


End Laws.
